(** * ImageDatabase: the search thread's query preprocessing and the
      tag-validation dialogs

    A shallow embedding of

    - [app/gui/application.py], class [_SearchThread]: [run], [_preprocess],
      [failed], [error], [fetched_images]; class [Application]:
      [_add_images], [dropEvent], [_check_drag], [_get_paths];
    - [app/gui/dialogs/_tabs.py], [_TagsTab._check_cell_format] and
      [CompoundTagsTab._check_cell_format]; [Tab.search],
      [Tab._check_column] and [Tab.check_integrity];
      [TagTypesTab._check_cell_format]; the columns the tabs check and
      search; [Tab.add_row], [Tab.delete_selected_rows],
      [Tab.modified_rows_number], the rows of [_cell_edited],
      [TagTypesTab.apply] and [_TagsTab.apply]; [COMBO_ITEM_PATTERN],
      [_TagsTab._get_combo_text], [_id_from_combo], [_label_from_combo]
      and [update_type_label];
    - [app/gui/dialogs/_edit_tags_dialog.py], [EditTagsDialog._apply];
    - [app/gui/dialogs/edit_image_dialog.py], [EditImageDialog._get_tags],
      [_ensure_no_compound_tags], [_get_error], [_is_valid]; and, in the
      module [EditImageDialog], the attributes of the dialog with
      [__init__], [set_images], [set_image], [_set], [_next],
      [_on_dest_button_clicked], [_text_changed], [_get_new_path], [_add],
      [_edit], [_replace], [_move_image], [_apply] and [_get_title]. The
      base class of the dialogs is not among these files: the handler of
      its OK button is modelled ([ok_clicked]) from what is claimed of the
      tag list of the dialog.

    Text is a list of characters; a character is a code point below 256
    (the type [ascii]), classified the way Python classifies [str]
    characters. Text with code points from 256 on is outside the model.
    The calls into Python's [re] module are embedded as backtracking
    matchers written in continuation-passing style, one combinator per
    regular-expression construct, so that alternatives are tried in the
    order the [re] engine tries them. *)

From Stdlib Require Import String Ascii DecimalString Decimal.
From Stdlib Require Import List ListSet Bool Arith ZArith Lia.
From Stdlib Require Import DecimalNat Permutation.
Import ListNotations.

Set Implicit Arguments.

(* ================================================================== *)
(** * Part I. The embedding                                            *)
(* ================================================================== *)

(** ** Characters and text *)

Definition text := list ascii.

(** A string literal as text. *)
Definition str (s : string) : text := list_ascii_of_string s.

Definition code (c : ascii) : nat := nat_of_ascii c.

Definition in_range (lo hi : nat) (c : ascii) : bool :=
  (lo <=? code c) && (code c <=? hi).

Definition c_quote : ascii := "034"%char.
Definition c_slash : ascii := "/"%char.
Definition c_backslash : ascii := "\"%char.
Definition c_colon : ascii := ":"%char.
Definition c_percent : ascii := "%"%char.
Definition c_newline : ascii := "010"%char.
Definition c_underscore : ascii := "_"%char.
Definition c_lparen : ascii := "("%char.
Definition c_rparen : ascii := ")"%char.

(** [str.isalnum] on one character: the decimal digits and the letters of
    ASCII, and in the upper half the letters and numeric characters of
    Latin-1 (feminine and masculine ordinal, micro sign, superscript
    digits, vulgar fractions, the accented letters). *)
Definition isalnum (c : ascii) : bool :=
  in_range 48 57 c || in_range 65 90 c || in_range 97 122 c
  || (code c =? 170) || (code c =? 178) || (code c =? 179)
  || (code c =? 181) || (code c =? 185) || (code c =? 186)
  || in_range 188 190 c || in_range 192 214 c
  || in_range 216 246 c || in_range 248 255 c.

(** The class [\w] of a [str] pattern: alphanumeric or underscore. *)
Definition is_word (c : ascii) : bool := isalnum c || Ascii.eqb c c_underscore.

(** The class [\W]. *)
Definition is_nonword (c : ascii) : bool := negb (is_word c).

(** The class [\s] of a [str] pattern, which is also the set [str.split]
    and [str.strip] treat as white space: TAB to CR, FS to US, space, NEL
    and the no-break space. *)
Definition is_space (c : ascii) : bool :=
  in_range 9 13 c || in_range 28 32 c || (code c =? 133) || (code c =? 160).

(** The ASCII decimal digits. *)
Definition is_digit (c : ascii) : bool := in_range 48 57 c.

(** [.] without the DOTALL flag: anything but a newline. *)
Definition is_dot (c : ascii) : bool := negb (Ascii.eqb c c_newline).

(** The class [[^\\]]. *)
Definition is_not_backslash (c : ascii) : bool := negb (Ascii.eqb c c_backslash).

(** The delimiter class of the metatag pattern: the double quote or the
    slash. *)
Definition is_delim (c : ascii) : bool := Ascii.eqb c c_quote || Ascii.eqb c c_slash.

Fixpoint text_eqb (a b : text) : bool :=
  match a, b with
  | [], [] => true
  | x :: a', y :: b' => Ascii.eqb x y && text_eqb a' b'
  | _, _ => false
  end.

(** [s.startswith(p)]. *)
Fixpoint starts_with (p s : text) : bool :=
  match p, s with
  | [], _ => true
  | x :: p', y :: s' => Ascii.eqb x y && starts_with p' s'
  | _ :: _, [] => false
  end.

(** [str(n)] for a non-negative integer. *)
Definition str_of_nat (n : nat) : text :=
  list_ascii_of_string (NilZero.string_of_uint (Nat.to_uint n)).

(** Replacement of the first occurrence of a literal [old] by [new]: both
    [s.replace(old, new, 1)] and [re.sub(re.escape(old), new, s, count=1)]
    for a [new] without backslash. *)
Fixpoint replace_first (old new s : text) : text :=
  if starts_with old s then new ++ skipn (length old) s
  else match s with
       | [] => []
       | c :: s' => c :: replace_first old new s'
       end.

(** ** The regular-expression combinators

    A matcher takes the text from the current position on and a
    continuation for the rest of the pattern; it answers the text left
    after the whole match, or [None] when every alternative failed. *)

Definition cont := text -> option text.

(** One character of a class. *)
Definition re_char (p : ascii -> bool) (k : cont) : cont :=
  fun s => match s with
           | c :: s' => if p c then k s' else None
           | [] => None
           end.

(** [p*], greedy: one more character first, the rest of the pattern after
    the characters taken so far only when that failed. *)
Fixpoint re_star (p : ascii -> bool) (k : cont) (s : text) : option text :=
  match s with
  | c :: s' =>
      if p c then
        match re_star p k s' with
        | Some r => Some r
        | None => k s
        end
      else k s
  | [] => k s
  end.

(** [p+], greedy. *)
Definition re_plus (p : ascii -> bool) (k : cont) : cont :=
  re_char p (re_star p k).

(** [p*?], lazy: the rest of the pattern first, one more character only
    when that failed. *)
Fixpoint re_star_lazy (p : ascii -> bool) (k : cont) (s : text) : option text :=
  match k s with
  | Some r => Some r
  | None =>
      match s with
      | c :: s' => if p c then re_star_lazy p k s' else None
      | [] => None
      end
  end.

(** [(\\\\)*], greedy: pairs of backslashes. *)
Fixpoint re_backslash_pairs (k : cont) (s : text) : option text :=
  match s with
  | c1 :: c2 :: s' =>
      if Ascii.eqb c1 c_backslash && Ascii.eqb c2 c_backslash then
        match re_backslash_pairs k s' with
        | Some r => Some r
        | None => k s
        end
      else k s
  | _ => k s
  end.

(** [a|b]: the left alternative first. *)
Definition re_alt (a b : cont) : cont :=
  fun s => match a s with
           | Some r => Some r
           | None => b s
           end.

(** The end of the pattern. *)
Definition re_end : cont := fun s => Some s.

(** ** The metatag-literal pattern of [_preprocess]

    The pattern of line 643, matched at the start of [s], piece by piece:
    - [\w+], [\s*], a colon, [\s*]: the key and the colon;
    - group 2: one delimiter [d], the double quote or the slash;
    - group 3, two alternatives: [(\\\\)*], pairs of backslashes only; or
      [.*?] followed by [[^\\]] followed by [(\\\\)*], a shortest run of
      characters other than the newline, one character other than the
      backslash, and pairs of backslashes;
    - the back-reference to group 2: the delimiter [d] again.
    Group 1 is the whole match. *)
Definition meta_tag_re (s : text) : option text :=
  re_plus is_word
    (re_star is_space
      (re_char (Ascii.eqb c_colon)
        (re_star is_space
          (fun s1 =>
             match s1 with
             | d :: s2 =>
                 if is_delim d then
                   let closing := re_char (Ascii.eqb d) re_end in
                   re_alt (re_backslash_pairs closing)
                          (re_star_lazy is_dot
                             (re_char is_not_backslash
                                (re_backslash_pairs closing)))
                          s2
                 else None
             | [] => None
             end)))) s.

(** A match object: the text before the match, [match[1]], the text after. *)
Definition match_object := (text * text * text)%type.

(** [re.search(pattern, s)]: the match at the leftmost position that has
    one; every position is tried, the end of the text included. *)
Fixpoint re_search (s : text) : option match_object :=
  match meta_tag_re s with
  | Some r => Some ([], firstn (length s - length r) s, r)
  | None =>
      match s with
      | [] => None
      | c :: s' =>
          match re_search s' with
          | Some (a, m, b) => Some (c :: a, m, b)
          | None => None
          end
      end
  end.

(** [f'%%{index}%%']. *)
Definition placeholder (index : nat) : text :=
  [c_percent; c_percent] ++ str_of_nat index ++ [c_percent; c_percent].

(** [meta_tag_values]: a dict keyed by the index; [items()] yields the
    entries in the order of insertion, and every insertion is under a
    fresh key, so the dict is the list of its entries in that order. *)
Definition meta_tag_values := list (nat * text).

(** The first loop of [_preprocess], lines 639-647.
<<
    while match := re.search(..., self._query):
        index += 1
        meta_tag_values[index] = match[1]
        self._query = re.sub(re.escape(match[1]), f'%%{index}%%', self._query, count=1)
>>
    [fuel] bounds the number of iterations the model follows; [None] is
    the model running out of it. *)
Fixpoint protect_loop (fuel : nat) (query : text) (index : nat)
    (values : meta_tag_values) : option (text * nat * meta_tag_values) :=
  match re_search query with
  | None => Some (query, index, values)
  | Some (_, m, _) =>
      match fuel with
      | 0 => None
      | S fuel' =>
          let index' := index + 1 in
          protect_loop fuel' (replace_first m (placeholder index') query)
                       index' (values ++ [(index', m)])
      end
  end.

(** ** The replacement template of [re.sub]

    [re.sub] reads a replacement string through the template parser of the
    [re] module before it looks for any match: a backslash starts an
    escape. [TGroup n] is a reference to group [n] of the match. *)

Inductive tpl_item : Type :=
  | TChar (c : ascii)
  | TGroup (n : nat).

Definition is_octal (c : ascii) : bool := in_range 48 55 c.

Definition is_ascii_letter (c : ascii) : bool :=
  in_range 65 90 c || in_range 97 122 c.

Definition digit_value (c : ascii) : nat := code c - 48.

(** The value of a decimal numeral. *)
Definition decimal_value (ds : text) : nat :=
  fold_left (fun acc d => 10 * acc + digit_value d) ds 0.

(** [s.getuntil('>')]: the group name and the text after the [>]. *)
Fixpoint get_until_gt (s : text) : option (text * text) :=
  match s with
  | [] => None
  | c :: s' =>
      if Ascii.eqb c ">"%char then Some ([], s')
      else match get_until_gt s' with
           | Some (name, rest) => Some (c :: name, rest)
           | None => None
           end
  end.

(** The escapes the template parser knows by name: [\a \b \f \n \r \t \v]
    and the doubled backslash. *)
Definition named_escape (c : ascii) : option ascii :=
  if Ascii.eqb c "a"%char then Some "007"%char
  else if Ascii.eqb c "b"%char then Some "008"%char
  else if Ascii.eqb c "f"%char then Some "012"%char
  else if Ascii.eqb c "n"%char then Some "010"%char
  else if Ascii.eqb c "r"%char then Some "013"%char
  else if Ascii.eqb c "t"%char then Some "009"%char
  else if Ascii.eqb c "v"%char then Some "011"%char
  else if Ascii.eqb c c_backslash then Some c_backslash
  else None.

(** [sre_parse.parse_template] for a pattern with [groups] capturing groups
    and no named group; [None] is the exception it raises ([re.error], or
    [IndexError] for an unknown group name). A group name is read as a
    plain decimal numeral, the one spelling every version of the parser
    accepts. [fuel] is at least the length of the template. *)
Fixpoint parse_template (groups fuel : nat) (s : text) : option (list tpl_item) :=
  match fuel with
  | 0 => match s with [] => Some [] | _ => None end
  | S fuel' =>
      let continue_with (items : list tpl_item) (rest : text) :=
        match parse_template groups fuel' rest with
        | Some more => Some (items ++ more)
        | None => None
        end in
      let group (index : nat) (rest : text) :=
        if index <=? groups then continue_with [TGroup index] rest else None in
      match s with
      | [] => Some []
      | c :: s1 =>
          if negb (Ascii.eqb c c_backslash) then continue_with [TChar c] s1
          else
            match s1 with
            | [] => None
            | e :: s2 =>
                if Ascii.eqb e "g"%char then
                  match s2 with
                  | lt :: s3 =>
                      if Ascii.eqb lt "<"%char then
                        match get_until_gt s3 with
                        | Some (name, rest) =>
                            if negb (length name =? 0) && forallb is_digit name
                            then group (decimal_value name) rest
                            else None
                        | None => None
                        end
                      else None
                  | [] => None
                  end
                else if Ascii.eqb e "0"%char then
                  match s2 with
                  | o1 :: s3 =>
                      if is_octal o1 then
                        match s3 with
                        | o2 :: s4 =>
                            if is_octal o2 then
                              continue_with
                                [TChar (ascii_of_nat
                                   ((8 * digit_value o1 + digit_value o2) mod 256))] s4
                            else continue_with [TChar (ascii_of_nat (digit_value o1))] s3
                        | [] => continue_with [TChar (ascii_of_nat (digit_value o1))] s3
                        end
                      else continue_with [TChar (ascii_of_nat 0)] s2
                  | [] => continue_with [TChar (ascii_of_nat 0)] s2
                  end
                else if is_digit e then
                  match s2 with
                  | d2 :: s3 =>
                      if is_digit d2 then
                        match s3 with
                        | d3 :: s4 =>
                            if is_octal e && is_octal d2 && is_octal d3 then
                              let v := 64 * digit_value e + 8 * digit_value d2
                                       + digit_value d3 in
                              if 255 <? v then None
                              else continue_with [TChar (ascii_of_nat v)] s4
                            else group (10 * digit_value e + digit_value d2) s3
                        | [] => group (10 * digit_value e + digit_value d2) s3
                        end
                      else group (digit_value e) s2
                  | [] => group (digit_value e) s2
                  end
                else
                  match named_escape e with
                  | Some c' => continue_with [TChar c'] s2
                  | None =>
                      if is_ascii_letter e then None
                      else continue_with [TChar c_backslash; TChar e] s2
                  end
            end
      end
  end.

(** [match.expand(template)]: group 0 is the whole match, and a group that
    took no part in the match is the empty string. *)
Definition expand_template (items : list tpl_item) (g0 g1 g2 : text) : text :=
  flat_map (fun it =>
              match it with
              | TChar c => [c]
              | TGroup 0 => g0
              | TGroup 1 => g1
              | TGroup _ => g2
              end) items.

(** ** The compound-tag pattern of [_preprocess]

    [(\W|^){tag.label}(\W|$)], line 658. A label is made of word
    characters ([Tag.LABEL_PATTERN], checked when a tag is edited), so the
    label stands in the pattern for its own characters. *)

Record CompoundTag : Type := {
  label : text;
  definition : text
}.

(** [$] without the MULTILINE flag: the end of the text, or just before a
    newline that ends the text. *)
Definition at_dollar (s : text) : bool :=
  match s with
  | [] => true
  | [c] => Ascii.eqb c c_newline
  | _ => false
  end.

(** Group 2, [(\W|$)], then the end of the pattern: group 2 and the text
    after the match. *)
Definition re_nonword_or_end (s : text) : option (text * text) :=
  match s with
  | c :: s' =>
      if is_nonword c then Some ([c], s')
      else if at_dollar s then Some ([], s) else None
  | [] => if at_dollar s then Some ([], s) else None
  end.

(** The literal label, then group 2. *)
Definition re_label (lbl : text) (s : text) : option (text * text) :=
  if starts_with lbl s then re_nonword_or_end (skipn (length lbl) s) else None.

(** The whole pattern at the current position; [at_start] tells whether
    this position is the beginning of the text, where [^] matches. The
    answer is group 1, group 2 and the text after the match. *)
Definition compound_tag_re (lbl : text) (at_start : bool) (s : text)
  : option (text * text * text) :=
  let by_nonword :=
    match s with
    | c :: s' =>
        if is_nonword c then
          match re_label lbl s' with
          | Some (g2, rest) => Some ([c], g2, rest)
          | None => None
          end
        else None
    | [] => None
    end in
  match by_nonword with
  | Some r => Some r
  | None =>
      if at_start then
        match re_label lbl s with
        | Some (g2, rest) => Some ([], g2, rest)
        | None => None
        end
      else None
  end.

(** The scan of [re.sub(pattern, template, s)] without a count: the match
    at the leftmost position from the current one on is replaced by the
    expanded template and the scan goes on after that match; [skip] counts
    the characters of the last match still to be passed over. Every match
    holds the label, so it is never empty. *)
Fixpoint re_sub_scan (lbl : text) (items : list tpl_item) (at_start : bool)
    (skip : nat) (s : text) : text :=
  match skip with
  | S skip' =>
      match s with
      | [] => []
      | _ :: s' => re_sub_scan lbl items false skip' s'
      end
  | 0 =>
      match compound_tag_re lbl at_start s with
      | Some (g1, g2, rest) =>
          let g0 := g1 ++ lbl ++ g2 in
          expand_template items g0 g1 g2 ++
          match s with
          | [] => []
          | _ :: s' => re_sub_scan lbl items false (length g0 - 1) s'
          end
      | None =>
          match s with
          | [] => []
          | c :: s' => c :: re_sub_scan lbl items false 0 s'
          end
      end
  end.

(** [fr'\1({tag.definition})\2']. *)
Definition tag_template (tag : CompoundTag) : text :=
  [c_backslash; "1"%char; c_lparen] ++ definition tag
  ++ [c_rparen; c_backslash; "2"%char].

(** [re.sub(fr'(\W|^){tag.label}(\W|$)', fr'\1({tag.definition})\2', query)];
    [None] when the template is refused. *)
Definition re_sub_tag (tag : CompoundTag) (query : text) : option text :=
  let template := tag_template tag in
  match parse_template 2 (length template) template with
  | Some items => Some (re_sub_scan (label tag) items true 0 query)
  | None => None
  end.

(** The [for tag in compound_tags] loop, lines 657-658. *)
Fixpoint expand_pass (compound_tags : list CompoundTag) (query : text) : option text :=
  match compound_tags with
  | [] => Some query
  | tag :: tags' =>
      match re_sub_tag tag query with
      | Some query' => expand_pass tags' query'
      | None => None
      end
  end.

Definition _MAXIMUM_DEPTH : nat := 20.

(** What the second loop of [_preprocess] ends in. *)
Inductive expansion : Type :=
  | Expanded (query : text)          (* the loop condition became false *)
  | MaxRecursion (query : text)      (* the guard of line 660 fired *)
  | TemplateError.                   (* [re.sub] raised *)

(** The second loop of [_preprocess], lines 652-662.
<<
    previous_query = ''
    depth = 0
    while self._query != previous_query:
        previous_query = self._query
        for tag in compound_tags: ...
        depth += 1
        if depth >= self._MAXIMUM_DEPTH:
            self._error = ...
            return
>>
    [fuel] bounds the number of passes the model follows. *)
Fixpoint expand_loop (fuel : nat) (compound_tags : list CompoundTag)
    (query previous_query : text) (depth : nat) : option expansion :=
  if text_eqb query previous_query then Some (Expanded query)
  else
    match fuel with
    | 0 => None
    | S fuel' =>
        match expand_pass compound_tags query with
        | None => Some TemplateError
        | Some query' =>
            let depth' := depth + 1 in
            if _MAXIMUM_DEPTH <=? depth' then Some (MaxRecursion query')
            else expand_loop fuel' compound_tags query' query depth'
        end
    end.

(** The last loop of [_preprocess], lines 665-666. *)
Definition restore (values : meta_tag_values) (query : text) : text :=
  fold_left (fun q entry => replace_first (placeholder (fst entry)) (snd entry) q)
            values query.

(** The number of colons of a text. *)
Definition count_colons (s : text) : nat := count_occ ascii_dec s c_colon.

(** The first loop run from its initial state, [index = 0] and an empty
    dict. The loop makes at most one iteration per colon of the query
    ([protect_loop_terminates] below), so the fuel given here is never
    used up and the last branch is never taken. *)
Definition protect (query : text) : text * nat * meta_tag_values :=
  match protect_loop (count_colons query) query 0 [] with
  | Some r => r
  | None => (query, 0, [])
  end.

(** The second loop run from its initial state. The guard of line 660
    stops it after [_MAXIMUM_DEPTH] passes at the latest
    ([expand_loop_terminates] below), so the last branch is never taken. *)
Definition expand (compound_tags : list CompoundTag) (query : text) : expansion :=
  match expand_loop _MAXIMUM_DEPTH compound_tags query [] 0 with
  | Some r => r
  | None => TemplateError
  end.

(** ** The search thread *)

(** What [queries.query_to_sympy] ends in: an expression, or the
    [ValueError] it raises on a query that does not compile, with its
    message. *)
Inductive compile_result (Expr : Type) : Type :=
  | Compiled (expr : Expr)
  | ValueError (message : text).

Arguments Compiled {Expr} expr.
Arguments ValueError {Expr} message.

(** The collaborators of the search thread, none of which is part of the
    files embedded here: the query compiler, the two DAOs and the
    translations. A DAO method answers [None] when the database could not
    be read. *)
Record collaborators (Expr Image : Type) : Type := {
  sp_true : Expr;
  query_to_sympy : text -> bool -> compile_result Expr;
  get_all_tags : list CompoundTag;
  get_images : Expr -> option (list Image);
  get_tagless_images : option (list Image);
  translate_max_recursion : nat -> text;
  translate_image_loading_error : text
}.

(** The attributes of a [_SearchThread]. *)
Record SearchThread (Image : Type) : Type := {
  _query : text;
  _tagless_images : bool;
  _images : option (list Image);
  _error : option text
}.

(** [_SearchThread.__init__]. *)
Definition new_thread (Image : Type) (query : text) (tagless_images : bool)
  : SearchThread Image :=
  {| _query := query; _tagless_images := tagless_images;
     _images := Some []; _error := None |}.

(** The calls a method makes, in order. *)
Inductive call : Type :=
  | Call_ImageDao
  | Call_preprocess
  | Call_get_all_tags
  | Call_query_to_sympy (query : text) (simplify : bool)
  | Call_get_images
  | Call_get_tagless_images
  | Call_close.

(** A method returns with the thread in some state, or an exception leaves
    it. *)
Inductive outcome (Image : Type) : Type :=
  | Returned (self : SearchThread Image)
  | Raised.

Arguments Returned {Image} self.
Arguments Raised {Image}.

Definition set_query (Image : Type) (self : SearchThread Image) (q : text)
  : SearchThread Image :=
  {| _query := q; _tagless_images := _tagless_images self;
     _images := _images self; _error := _error self |}.

Definition set_error (Image : Type) (self : SearchThread Image) (e : text)
  : SearchThread Image :=
  {| _query := _query self; _tagless_images := _tagless_images self;
     _images := _images self; _error := Some e |}.

Definition set_images (Image : Type) (self : SearchThread Image)
    (images : option (list Image)) : SearchThread Image :=
  {| _query := _query self; _tagless_images := _tagless_images self;
     _images := images; _error := _error self |}.

(** [_SearchThread._preprocess], lines 638-666. *)
Definition _preprocess (Expr Image : Type) (env : collaborators Expr Image)
    (self : SearchThread Image) : outcome Image * list call :=
  let '(query1, _, values) := protect (_query self) in
  let compound_tags := get_all_tags env in
  match expand compound_tags query1 with
  | TemplateError => (Raised, [Call_get_all_tags])
  | MaxRecursion query2 =>
      (Returned (set_error (set_query self query2)
                           (translate_max_recursion env _MAXIMUM_DEPTH)),
       [Call_get_all_tags])
  | Expanded query2 =>
      (Returned (set_query self (restore values query2)), [Call_get_all_tags])
  end.

(** [not self._error]: [None] and the empty string are false. *)
Definition no_error (e : option text) : bool :=
  match e with
  | None => true
  | Some [] => true
  | Some (_ :: _) => false
  end.

(** [_SearchThread.run], lines 616-636. *)
Definition run (Expr Image : Type) (env : collaborators Expr Image)
    (self : SearchThread Image) : outcome Image * list call :=
  let tagless := _tagless_images self in
  let (pre, calls1) :=
    if negb tagless then
      let (r, cs) := _preprocess env self in (r, Call_preprocess :: cs)
    else (Returned self, []) in
  match pre with
  | Raised => (Raised, Call_ImageDao :: calls1)
  | Returned self1 =>
      if no_error (_error self1) then
        let (compiled, calls2) :=
          if negb tagless then
            (query_to_sympy env (_query self1) true,
             [Call_query_to_sympy (_query self1) true])
          else (Compiled (sp_true env), []) in
        match compiled with
        | ValueError message =>
            (Returned (set_error self1 message), Call_ImageDao :: calls1 ++ calls2)
        | Compiled expr =>
            let (images, calls3) :=
              if negb tagless then (get_images env expr, [Call_get_images])
              else (get_tagless_images env, [Call_get_tagless_images]) in
            let self2 := set_images self1 images in
            let self3 :=
              match images with
              | None => set_error self2 (translate_image_loading_error env)
              | Some _ => self2
              end in
            (Returned self3, Call_ImageDao :: calls1 ++ calls2 ++ calls3 ++ [Call_close])
        end
      else (Returned self1, Call_ImageDao :: calls1)
  end.

(** The property [failed]. *)
Definition failed (Image : Type) (self : SearchThread Image) : bool :=
  match _error self with
  | Some _ => true
  | None => false
  end.

(** The property [error]. *)
Definition error (Image : Type) (self : SearchThread Image) : option text :=
  _error self.

(** The property [fetched_images]. *)
Definition fetched_images (Image : Type) (self : SearchThread Image)
  : option (list Image) := _images self.

(** ** The compound-tags tab of the tag editor *)

(** The table of a tab and what its checks call: the cell texts,
    [Tag.LABEL_PATTERN.match], [int] on a cell text ([None] when it raises
    [ValueError]), [TagsDao.tag_exists], the compiler and two
    translations. *)
Record tags_tab (Expr : Type) : Type := {
  item_text : nat -> nat -> text;
  label_pattern_match : text -> bool;
  int_of_text : text -> option nat;
  tag_exists : nat -> text -> bool;
  tab_query_to_sympy : text -> bool -> compile_result Expr;
  translate_invalid_tag_name : text;
  translate_duplicate_tag_name : text
}.

(** The pair a format check returns, or the exception that leaves it. *)
Inductive check_result : Type :=
  | Checked (ok : bool) (message : text)
  | CheckRaised.

(** [_TagsTab._check_cell_format], lines 716-724. *)
Definition TagsTab_check_cell_format (Expr : Type) (tab : tags_tab Expr)
    (row col : nat) : check_result :=
  let cell := item_text tab row col in
  if col =? 1 then
    if negb (label_pattern_match tab cell) then
      Checked false (translate_invalid_tag_name tab)
    else
      match int_of_text tab (item_text tab row 0) with
      | None => CheckRaised
      | Some tag_id =>
          if tag_exists tab tag_id cell then
            Checked false (translate_duplicate_tag_name tab)
          else Checked true []
      end
  else Checked true [].

(** [CompoundTagsTab._check_cell_format], lines 831-841. *)
Definition CompoundTagsTab_check_cell_format (Expr : Type) (tab : tags_tab Expr)
    (row col : nat) : check_result * list call :=
  match TagsTab_check_cell_format tab row col with
  | CheckRaised => (CheckRaised, [])
  | Checked false message => (Checked false message, [])
  | Checked true _ =>
      if col =? 2 then
        let tag_label := item_text tab row 2 in
        match tab_query_to_sympy tab tag_label false with
        | ValueError e => (Checked false e, [Call_query_to_sympy tag_label false])
        | Compiled _ => (Checked true [], [Call_query_to_sympy tag_label false])
        end
      else (Checked true [], [])
  end.

(** ** The image-edit dialog *)

Inductive tag_class : Type :=
  | TagClass
  | CompoundTagClass.

(** What the dialog calls: [model.Tag.from_string] ([None] when it raises
    [ValueError]) and [TagsDao.get_tag_class] ([None] when no tag has the
    label). *)
Record edit_image_env (Tag : Type) : Type := {
  from_string : text -> option Tag;
  get_tag_class : text -> option tag_class
}.

(** [s.split()]: the maximal runs of characters that are not white space;
    [cur] holds the run being read, last character first. *)
Fixpoint split_from (cur : text) (s : text) : list text :=
  match s with
  | [] => match cur with [] => [] | _ :: _ => [rev cur] end
  | c :: s' =>
      if is_space c then
        match cur with
        | [] => split_from [] s'
        | _ :: _ => rev cur :: split_from [] s'
        end
      else split_from (c :: cur) s'
  end.

Definition split (s : text) : list text := split_from [] s.

(** [[model.Tag.from_string(t) for t in tokens]]: the first token refused
    raises. *)
Fixpoint tags_of_tokens (Tag : Type) (env : edit_image_env Tag) (tokens : list text)
  : option (list Tag) :=
  match tokens with
  | [] => Some []
  | t :: rest =>
      match from_string env t with
      | None => None
      | Some tag =>
          match tags_of_tokens env rest with
          | None => None
          | Some tags => Some (tag :: tags)
          end
      end
  end.

(** [EditImageDialog._get_tags], line 217, on the text of the input field. *)
Definition _get_tags (Tag : Type) (env : edit_image_env Tag) (tags_input : text)
  : option (list Tag) :=
  tags_of_tokens env (split tags_input).

(** Line 222: [tag if tag[0].isalnum() or tag[0] == '_' else tag[1:]]. A
    token of [split] is never empty. *)
Definition strip_type_symbol (tag : text) : text :=
  match tag with
  | [] => []
  | c :: rest => if isalnum c || Ascii.eqb c c_underscore then tag else rest
  end.

Definition is_compound (c : option tag_class) : bool :=
  match c with
  | Some CompoundTagClass => true
  | _ => false
  end.

(** The loop of [_ensure_no_compound_tags], lines 221-225. *)
Fixpoint no_compound_among (Tag : Type) (env : edit_image_env Tag) (tokens : list text)
  : bool :=
  match tokens with
  | [] => true
  | tag :: rest =>
      if is_compound (get_tag_class env (strip_type_symbol tag)) then false
      else no_compound_among env rest
  end.

(** [EditImageDialog._ensure_no_compound_tags]. *)
Definition _ensure_no_compound_tags (Tag : Type) (env : edit_image_env Tag)
    (tags_input : text) : bool :=
  no_compound_among env (split tags_input).

(** [EditImageDialog._get_error], lines 227-236. *)
Definition _get_error (Tag : Type) (env : edit_image_env Tag) (tags_input : text)
  : option text :=
  match _get_tags env tags_input with
  | None => Some (str "Invalid tag format!")
  | Some tags =>
      if length tags =? 0 then Some (str "No tags specified!")
      else if negb (_ensure_no_compound_tags env tags_input) then
        Some (str "Compound tags are not allowed here!")
      else None
  end.

(** [EditImageDialog._is_valid]. *)
Definition _is_valid (Tag : Type) (env : edit_image_env Tag) (tags_input : text)
  : bool :=
  match _get_error env tags_input with
  | None => true
  | Some _ => false
  end.

(** ** The search of a tab, [Tab.search] *)

Definition c_star : ascii := "*"%char.
Definition c_question : ascii := "?"%char.
Definition c_dot : ascii := "."%char.
Definition c_caret : ascii := "^"%char.
Definition c_dollar : ascii := "$"%char.

(** The class [[*?]]. *)
Definition is_wildcard (c : ascii) : bool :=
  Ascii.eqb c c_star || Ascii.eqb c c_question.

(** The class [[^*?\\]]. *)
Definition is_plain_char (c : ascii) : bool :=
  negb (is_wildcard c || Ascii.eqb c c_backslash).

(** The class of line 168: the brackets, the parentheses, the plus sign,
    the opening brace, the dot, the caret and the dollar sign. *)
Definition is_meta (c : ascii) : bool :=
  Ascii.eqb c "["%char || Ascii.eqb c "]"%char || Ascii.eqb c c_lparen
  || Ascii.eqb c c_rparen || Ascii.eqb c "+"%char || Ascii.eqb c "{"%char
  || Ascii.eqb c c_dot || Ascii.eqb c c_caret || Ascii.eqb c c_dollar.

(** The look-behind [(?<!\\)]; [prev] is the character before the current
    position, [None] at the beginning of the text. *)
Definition not_after_backslash (prev : option ascii) : bool :=
  match prev with
  | Some c => negb (Ascii.eqb c c_backslash)
  | None => true
  end.

(** Group 2 of the pattern of line 164: a character that is neither
    wildcard nor backslash, or the end of the text. *)
Definition plain_or_end : cont :=
  re_alt (re_char is_plain_char re_end)
         (fun s => if at_dollar s then Some s else None).

(** The pattern of line 164 at the current position: not after a
    backslash, one backslash, pairs of backslashes, group 2. *)
Definition invalid_backslash_re (prev : option ascii) (s : text) : option text :=
  if not_after_backslash prev then
    re_char (Ascii.eqb c_backslash) (re_backslash_pairs plain_or_end) s
  else None.

(** [re.search] of that pattern, as a truth value: every position is
    tried, from the current one on. *)
Fixpoint has_invalid_backslash (prev : option ascii) (s : text) : bool :=
  match invalid_backslash_re prev s with
  | Some _ => true
  | None =>
      match s with
      | [] => false
      | c :: s' => has_invalid_backslash (Some c) s'
      end
  end.

(** [(\\\\)*] as part of a group: greedy, the pairs taken so far are handed
    to the rest of the pattern. *)
Fixpoint rx_backslash_pairs (R : Type) (k : text -> text -> option R)
    (taken s : text) : option R :=
  match s with
  | c1 :: c2 :: s' =>
      if Ascii.eqb c1 c_backslash && Ascii.eqb c2 c_backslash then
        match rx_backslash_pairs k (taken ++ [c1; c2]) s' with
        | Some r => Some r
        | None => k taken s
        end
      else k taken s
  | _ => k taken s
  end.

(** A pattern matched at a position, given the character before it: group
    1, group 2 (empty when the pattern has one group) and the text after
    the match. In the patterns below the groups make up the whole match,
    and a match is never empty. *)
Definition matcher := option ascii -> text -> option (text * text * text).

(** The pattern of line 168, one character of the class. *)
Definition meta_re : matcher :=
  fun _ s =>
    match s with
    | c :: rest => if is_meta c then Some ([c], [], rest) else None
    | [] => None
    end.

(** Group 2 of the pattern of line 170, one wildcard, after group 1. *)
Definition one_wildcard (g1 s : text) : option (text * text * text) :=
  match s with
  | c :: rest => if is_wildcard c then Some (g1, [c], rest) else None
  | [] => None
  end.

(** The pattern of line 170: not after a backslash, pairs of backslashes
    (group 1), one wildcard (group 2). *)
Definition wildcard_re : matcher :=
  fun prev s =>
    if not_after_backslash prev then rx_backslash_pairs one_wildcard [] s
    else None.

(** The scan of [re.sub(pattern, template, s)] for such a pattern: as
    [re_sub_scan], with the character before the position kept for the
    look-behind. *)
Fixpoint re_sub_all (m : matcher) (items : list tpl_item) (prev : option ascii)
    (skip : nat) (s : text) : text :=
  match skip with
  | S skip' =>
      match s with
      | [] => []
      | c :: s' => re_sub_all m items (Some c) skip' s'
      end
  | 0 =>
      match m prev s with
      | Some (g1, g2, _) =>
          expand_template items (g1 ++ g2) g1 g2 ++
          match s with
          | [] => []
          | c :: s' => re_sub_all m items (Some c) (length (g1 ++ g2) - 1) s'
          end
      | None =>
          match s with
          | [] => []
          | c :: s' => c :: re_sub_all m items (Some c) 0 s'
          end
      end
  end.

(** [re.sub(pattern, template, s)] for a pattern of [groups] groups;
    [None] when the template is refused. *)
Definition re_sub (m : matcher) (groups : nat) (template s : text) : option text :=
  match parse_template groups (length template) template with
  | Some items => Some (re_sub_all m items None 0 s)
  | None => None
  end.

(** Lines 167-171: the regular expression made from the query. *)
Definition search_pattern (query : text) : option text :=
  match re_sub meta_re 1 (str "\\\1") query with
  | None => None
  | Some pattern =>
      match re_sub wildcard_re 2 (str "\1.\2") pattern with
      | None => None
      | Some pattern' => Some (c_caret :: pattern' ++ [c_dollar])
      end
  end.

(** A tab of the tag editor: its table (the number of rows, the hidden
    rows, the text of the item of a cell), the columns it searches, the
    columns it checks with the flag that asks for the search of
    duplicates, the format check of its class and two translations. *)
Record Tab : Type := {
  rowCount : nat;
  isRowHidden : nat -> bool;
  cell_text : nat -> nat -> text;
  _search_columns : list nat;
  _columns_to_check : list (nat * bool);
  _check_cell_format : nat -> nat -> check_result;
  translate_empty_cell : text;
  translate_duplicate_value : nat -> text
}.

(** What [search] ends in: the value returned with the cell left selected,
    or an exception. *)
Inductive search_result : Type :=
  | SearchReturned (found : option bool) (selection : option (nat * nat))
  | SearchRaised.

(** The inner loop of lines 177-184: [n] rows from [row] on. *)
Fixpoint search_rows (fullmatch : text -> bool) (tab : Tab) (col row n : nat)
  : option nat :=
  match n with
  | 0 => None
  | S n' =>
      if fullmatch (cell_text tab row col) then Some row
      else search_rows fullmatch tab col (S row) n'
  end.

(** The outer loop of lines 176-186. *)
Fixpoint search_cells (fullmatch : text -> bool) (tab : Tab) (cols : list nat)
    (start_row : nat) : option (nat * nat) :=
  match cols with
  | [] => None
  | col :: cols' =>
      match search_rows fullmatch tab col start_row (rowCount tab - start_row) with
      | Some row => Some (row, col)
      | None => search_cells fullmatch tab cols' start_row
      end
  end.

(** Lines 155-158: the row after the first selected index. *)
Definition start_row_of (selected : list (nat * nat)) : nat :=
  match selected with
  | (row, _) :: _ => row + 1
  | [] => 0
  end.

(** [Tab.search], lines 148-188. [selected] holds the selected indexes,
    row and column; [re_compile] is [re.compile] with the flag IGNORECASE
    followed by [fullmatch], [None] when the pattern is refused. The
    selection is cleared before anything else. *)
Definition Tab_search (re_compile : text -> option (text -> bool)) (tab : Tab)
    (selected : list (nat * nat)) (query : text) : search_result :=
  let start_row := start_row_of selected in
  if has_invalid_backslash None query then SearchReturned None None
  else
    match search_pattern query with
    | None => SearchRaised
    | Some pattern =>
        match re_compile pattern with
        | None => SearchRaised
        | Some fullmatch =>
            match search_cells fullmatch tab (_search_columns tab) start_row with
            | Some cell => SearchReturned (Some true) (Some cell)
            | None => SearchReturned (Some false) None
            end
        end
    end.

(** ** The integrity checks of a tab *)

(** [s.lstrip()], [s.rstrip()] and [s.strip()]. *)
Fixpoint lstrip (s : text) : text :=
  match s with
  | c :: s' => if is_space c then lstrip s' else s
  | [] => []
  end.

Definition rstrip (s : text) : text := rev (lstrip (rev s)).

Definition strip (s : text) : text := lstrip (rstrip s).

(** The status codes of [Tab]. *)
Definition _OK : nat := 0.
Definition _DUPLICATE : nat := 1.
Definition _EMPTY : nat := 2.
Definition _FORMAT : nat := 4.

(** What [_check_column] ends in: the tuple it returns, or the exception
    the format check let through. *)
Inductive column_check : Type :=
  | ColumnChecked (status : nat) (row : Z) (message : text)
  | ColumnRaised.

(** The inner loop of [_check_column], lines 262-266: [n] rows from [r]
    on. *)
Fixpoint find_duplicate (tab : Tab) (column row : nat) (cell_value : text)
    (r n : nat) : option nat :=
  match n with
  | 0 => None
  | S n' =>
      if isRowHidden tab r then find_duplicate tab column row cell_value (S r) n'
      else if negb (r =? row) && text_eqb (cell_text tab r column) cell_value
           then Some r
           else find_duplicate tab column row cell_value (S r) n'
  end.

(** The outer loop of [_check_column], lines 249-267: [n] rows from [row]
    on. *)
Fixpoint check_rows (tab : Tab) (column : nat) (check_duplicates : bool)
    (row n : nat) : column_check :=
  match n with
  | 0 => ColumnChecked _OK (-1) []
  | S n' =>
      if isRowHidden tab row then check_rows tab column check_duplicates (S row) n'
      else if text_eqb (strip (cell_text tab row column)) [] then
        ColumnChecked _EMPTY (Z.of_nat row) (translate_empty_cell tab)
      else
        match _check_cell_format tab row column with
        | CheckRaised => ColumnRaised
        | Checked false message => ColumnChecked _FORMAT (Z.of_nat row) message
        | Checked true _ =>
            if check_duplicates then
              match find_duplicate tab column row (cell_text tab row column)
                                   0 (rowCount tab) with
              | Some r =>
                  ColumnChecked _DUPLICATE (Z.of_nat r)
                                (translate_duplicate_value tab row)
              | None => check_rows tab column check_duplicates (S row) n'
              end
            else check_rows tab column check_duplicates (S row) n'
        end
  end.

(** [Tab._check_column], lines 237-267. *)
Definition _check_column (tab : Tab) (column : nat) (check_duplicates : bool)
  : column_check :=
  check_rows tab column check_duplicates 0 (rowCount tab).

(** The loop of [check_integrity], lines 204-207, over the items of
    [_columns_to_check]; [None] when a check raised. *)
Fixpoint check_columns (tab : Tab) (columns : list (nat * bool)) : option bool :=
  match columns with
  | [] => Some true
  | (col, check_duplicates) :: columns' =>
      match _check_column tab col check_duplicates with
      | ColumnRaised => None
      | ColumnChecked status _ _ =>
          if status =? _OK then check_columns tab columns' else Some false
      end
  end.

(** [Tab.check_integrity], lines 198-208. *)
Definition check_integrity (tab : Tab) : option bool :=
  check_columns tab (_columns_to_check tab).

(** [_TagsTab.__init__], lines 507-511: the columns to check and the
    columns to search, from the additional columns of the subclass. *)
Definition TagsTab_cols_to_check (additional_columns : list (text * bool))
  : list (nat * bool) :=
  (1, true)
  :: map (fun c => (c, snd (nth (c - 2) additional_columns ([], false))))
         (seq 2 (length additional_columns)).

Definition TagsTab_search_cols (additional_search_columns : list nat) : list nat :=
  1 :: map (fun i => i + 2) additional_search_columns.

(** The tab of the compound tags, lines 794-841: one additional column,
    the definition, checked without the search of duplicates and open to
    the search. [rows] and [hidden] are the rows of its table. *)
Definition CompoundTagsTab (Expr : Type) (tab : tags_tab Expr) (rows : nat)
    (hidden : nat -> bool) (definition_header empty_cell : text)
    (duplicate_value : nat -> text) : Tab :=
  {| rowCount := rows;
     isRowHidden := hidden;
     cell_text := item_text tab;
     _search_columns := TagsTab_search_cols [0];
     _columns_to_check := TagsTab_cols_to_check [(definition_header, false)];
     _check_cell_format :=
       fun row col => fst (CompoundTagsTab_check_cell_format tab row col);
     translate_empty_cell := empty_cell;
     translate_duplicate_value := duplicate_value |}.

(** The tab of the tags, lines 765-791: no additional column. *)
Definition TagsTab (Expr : Type) (tab : tags_tab Expr) (rows : nat)
    (hidden : nat -> bool) (empty_cell : text) (duplicate_value : nat -> text)
  : Tab :=
  {| rowCount := rows;
     isRowHidden := hidden;
     cell_text := item_text tab;
     _search_columns := TagsTab_search_cols [];
     _columns_to_check := TagsTab_cols_to_check [];
     _check_cell_format := TagsTab_check_cell_format tab;
     translate_empty_cell := empty_cell;
     translate_duplicate_value := duplicate_value |}.

(** The table of the tab of the tag types and what its format check
    calls: [TagType.LABEL_PATTERN.match], [TagType.SYMBOL_PATTERN.match]
    and two translations. *)
Record tag_types_tab : Type := {
  type_item_text : nat -> nat -> text;
  type_label_match : text -> bool;
  type_symbol_match : text -> bool;
  translate_invalid_type_name : text;
  translate_invalid_tag_type_symbol : text
}.

(** [TagTypesTab._check_cell_format], lines 406-414. *)
Definition TagTypesTab_check_cell_format (tab : tag_types_tab) (row col : nat)
  : check_result :=
  let cell := type_item_text tab row col in
  if col =? 1 then
    Checked (type_label_match tab cell) (translate_invalid_type_name tab)
  else if col =? 2 then
    Checked (type_symbol_match tab cell) (translate_invalid_tag_type_symbol tab)
  else Checked true [].

(** The tab of the tag types, lines 280-308. *)
Definition TagTypesTab (tab : tag_types_tab) (rows : nat) (hidden : nat -> bool)
    (empty_cell : text) (duplicate_value : nat -> text) : Tab :=
  {| rowCount := rows;
     isRowHidden := hidden;
     cell_text := type_item_text tab;
     _search_columns := [1; 2];
     _columns_to_check := [(1, true); (2, true)];
     _check_cell_format := TagTypesTab_check_cell_format tab;
     translate_empty_cell := empty_cell;
     translate_duplicate_value := duplicate_value |}.

(** ** The rows a tab has to save

    The three sets of rows of a [Tab], with the number of rows of its
    table and the rows it has hidden. A set of rows is the list of its
    elements, none twice; the order is the one a loop over the set meets
    them in, and no statement below depends on it. *)
Record tab_rows : Type := {
  row_count : nat;
  hidden_rows : set nat;
  _added_rows : set nat;
  _changed_rows : set nat;
  _deleted_rows : set nat;
  _dummy_type_id : Z
}.

(** A tab as [__init__] and [init] leave it, over a table of [n] rows. *)
Definition new_rows (n : nat) : tab_rows :=
  {| row_count := n; hidden_rows := []; _added_rows := [];
     _changed_rows := []; _deleted_rows := []; _dummy_type_id := (-1)%Z |}.

(** The property [modified_rows_number], lines 118-121. *)
Definition modified_rows_number (self : tab_rows) : nat :=
  length (_changed_rows self) + length (_added_rows self)
  + length (_deleted_rows self).

(** [Tab.add_row], lines 123-131. The cells [_set_row] fills do not reach
    [_cell_edited], [_initialized] being false meanwhile. *)
Definition add_row (self : tab_rows) : tab_rows :=
  let row := row_count self in
  {| row_count := S row;
     hidden_rows := hidden_rows self;
     _added_rows := set_add Nat.eq_dec row (_added_rows self);
     _changed_rows := _changed_rows self;
     _deleted_rows := _deleted_rows self;
     _dummy_type_id := (_dummy_type_id self - 1)%Z |}.

(** [Tab.delete_selected_rows], lines 133-146: [selected_rows] is the set
    of the selected rows, [confirmed] the answer to the question, asked
    only when some row is selected. The second component holds the rows
    whose values are handed to [_rows_deleted]. *)
Definition delete_selected_rows (selected_rows : set nat) (confirmed : bool)
    (self : tab_rows) : tab_rows * list nat :=
  if (0 <? length selected_rows) && confirmed then
    ({| row_count := row_count self;
        hidden_rows := set_union Nat.eq_dec (hidden_rows self) selected_rows;
        _added_rows := set_diff Nat.eq_dec (_added_rows self) selected_rows;
        _changed_rows := set_diff Nat.eq_dec (_changed_rows self) selected_rows;
        _deleted_rows :=
          set_union Nat.eq_dec (_deleted_rows self)
                    (set_diff Nat.eq_dec selected_rows (_added_rows self));
        _dummy_type_id := _dummy_type_id self |},
     selected_rows)
  else (self, []).

(** The rows of [_cell_edited], lines 394-398 and 705-709: [differs] tells
    whether the value of the row is no longer the one loaded. *)
Definition _cell_edited (initialized editable : bool) (row : nat) (differs : bool)
    (self : tab_rows) : tab_rows :=
  let with_changed (changed : set nat) :=
    {| row_count := row_count self;
       hidden_rows := hidden_rows self;
       _added_rows := _added_rows self;
       _changed_rows := changed;
       _deleted_rows := _deleted_rows self;
       _dummy_type_id := _dummy_type_id self |} in
  if initialized && editable then
    if set_mem Nat.eq_dec row (_added_rows self) then self
    else if differs then with_changed (set_add Nat.eq_dec row (_changed_rows self))
    else if set_mem Nat.eq_dec row (_changed_rows self)
         then with_changed (set_remove Nat.eq_dec row (_changed_rows self))
         else self
  else self.

(** ** Saving the rows *)

(** The methods of [TagsDao] the tabs call when they save, over the state
    [S] of the database; each answers whether it succeeded. An argument
    [None] is the [None] that [get_value] answers for a row it cannot
    read. *)
Record tags_dao (S TypeValue TagValue : Type) : Type := {
  add_type : option TypeValue -> S -> bool * S;
  delete_type : Z -> S -> bool * S;
  update_type : option TypeValue -> S -> bool * S;
  add_compound_tag : option TagValue -> S -> bool * S;
  delete_tag : Z -> S -> bool * S;
  update_tag : option TagValue -> S -> bool * S
}.

(** One of the three loops of [apply]: the call [op] for every row of the
    set; the answer is the conjunction of the results, the rows to keep
    and the state of the database, or [None] when a call raised. *)
Fixpoint apply_rows (S : Type) (op : nat -> S -> option (bool * S))
    (rows : list nat) (s : S) : option (bool * set nat * S) :=
  match rows with
  | [] => Some (true, [], s)
  | row :: rows' =>
      match op row s with
      | None => None
      | Some (res, s1) =>
          match apply_rows op rows' s1 with
          | None => None
          | Some (ok, to_keep, s2) =>
              Some (res && ok, if res then to_keep else row :: to_keep, s2)
          end
      end
  end.

(** The three loops, one after the other; [delete] raises on a row whose
    value is [None], the attribute [id] being read from it. *)
Definition apply_sets (S Value : Type)
    (add update : option Value -> S -> bool * S) (delete : Z -> S -> bool * S)
    (get_value : nat -> S -> option Value) (value_id : Value -> Z)
    (self : tab_rows) (s : S) : option (bool * tab_rows * S) :=
  match apply_rows (fun row s0 => Some (add (get_value row s0) s0))
                   (_added_rows self) s with
  | None => None
  | Some (ok1, keep1, s1) =>
      match apply_rows (fun row s0 =>
                          match get_value row s0 with
                          | None => None
                          | Some v => Some (delete (value_id v) s0)
                          end)
                       (_deleted_rows self) s1 with
      | None => None
      | Some (ok2, keep2, s2) =>
          match apply_rows (fun row s0 => Some (update (get_value row s0) s0))
                           (_changed_rows self) s2 with
          | None => None
          | Some (ok3, keep3, s3) =>
              Some (ok1 && ok2 && ok3,
                    {| row_count := row_count self;
                       hidden_rows := hidden_rows self;
                       _added_rows := keep1;
                       _changed_rows := keep3;
                       _deleted_rows := keep2;
                       _dummy_type_id := _dummy_type_id self |},
                    s3)
          end
      end
  end.

(** [TagTypesTab.apply], lines 338-365. *)
Definition TagTypesTab_apply (S TypeValue TagValue : Type)
    (dao : tags_dao S TypeValue TagValue)
    (get_value : nat -> S -> option TypeValue) (value_id : TypeValue -> Z)
    (self : tab_rows) (s : S) : option (bool * tab_rows * S) :=
  apply_sets (add_type dao) (update_type dao) (delete_type dao)
             get_value value_id self s.

(** [_TagsTab.apply], lines 549-576. *)
Definition TagsTab_apply (S TypeValue TagValue : Type)
    (dao : tags_dao S TypeValue TagValue)
    (get_value : nat -> S -> option TagValue) (value_id : TagValue -> Z)
    (self : tab_rows) (s : S) : option (bool * tab_rows * S) :=
  apply_sets (add_compound_tag dao) (update_tag dao) (delete_tag dao)
             get_value value_id self s.

(** The tabs of the tag editor: the tag types, the compound tags, the
    tags. *)
Record editor_tabs : Type := {
  types_rows : tab_rows;
  compound_rows : tab_rows;
  tags_rows : tab_rows
}.

(** What [EditTagsDialog._apply] leaves: the value returned, whether the
    error of saving was shown, whether the Apply button was disabled and
    the [_apply] of the base class called, the tabs and the database. *)
Record applied (S : Type) : Type := {
  returned : bool;
  error_shown : bool;
  apply_disabled : bool;
  tabs_after : editor_tabs;
  dao_after : S
}.

(** [EditTagsDialog._apply], lines 176-184. [all] stops at the first tab
    whose [apply] answers false, [map] calling [apply] only when [all]
    asks for the next result. *)
Definition EditTagsDialog_apply (S TypeValue TagValue : Type)
    (dao : tags_dao S TypeValue TagValue)
    (type_value : nat -> S -> option TypeValue) (type_id : TypeValue -> Z)
    (compound_value tag_value : nat -> S -> option TagValue)
    (tag_id : TagValue -> Z)
    (tabs : editor_tabs) (s : S) : option (applied S) :=
  let result (ok : bool) (tabs' : editor_tabs) (s' : S) :=
    Some {| returned := true; error_shown := negb ok; apply_disabled := ok;
            tabs_after := tabs'; dao_after := s' |} in
  match TagTypesTab_apply dao type_value type_id (types_rows tabs) s with
  | None => None
  | Some (ok1, types', s1) =>
      if negb ok1 then
        result false {| types_rows := types'; compound_rows := compound_rows tabs;
                        tags_rows := tags_rows tabs |} s1
      else
        match TagsTab_apply dao compound_value tag_id (compound_rows tabs) s1 with
        | None => None
        | Some (ok2, compound', s2) =>
            if negb ok2 then
              result false {| types_rows := types'; compound_rows := compound';
                              tags_rows := tags_rows tabs |} s2
            else
              match TagsTab_apply dao tag_value tag_id (tags_rows tabs) s2 with
              | None => None
              | Some (ok3, tags', s3) =>
                  result ok3 {| types_rows := types'; compound_rows := compound';
                                tags_rows := tags' |} s3
              end
        end
  end.

(** ** The items of the comboboxes of the tag types *)

Definition c_space : ascii := " "%char.
Definition c_minus : ascii := "-"%char.

(** [str(n)] for an integer. *)
Definition str_of_int (n : Z) : text :=
  if (n <? 0)%Z then c_minus :: str_of_nat (Z.abs_nat n)
  else str_of_nat (Z.to_nat n).

(** [_TagsTab._get_combo_text], lines 754-762. *)
Definition _get_combo_text (ident : Z) (label : text) : text :=
  str_of_int ident ++ str " - " ++ label.

(** A greedy star inside a group: the characters taken so far are
    handed to the rest of the pattern. *)
Fixpoint rx_star (R : Type) (p : ascii -> bool) (k : text -> text -> option R)
    (taken s : text) : option R :=
  match s with
  | c :: s' =>
      if p c then
        match rx_star p k (taken ++ [c]) s' with
        | Some r => Some r
        | None => k taken s
        end
      else k taken s
  | [] => k taken s
  end.

(** A greedy plus that makes up a group. *)
Definition rx_plus (R : Type) (p : ascii -> bool) (k : text -> text -> option R)
    (s : text) : option R :=
  match s with
  | c :: s' => if p c then rx_star p k [c] s' else None
  | [] => None
  end.

(** Literal characters of a pattern. *)
Definition rx_literal (R : Type) (lit : text) (k : text -> option R) (s : text)
  : option R :=
  if starts_with lit s then k (skipn (length lit) s) else None.

(** [COMBO_ITEM_PATTERN], line 485, matched at the start of the text: the
    groups 1 and 2. *)
Definition combo_item_re (s : text) : option (text * text) :=
  rx_plus is_digit
    (fun g1 =>
       rx_literal (str " - ")
         (rx_plus is_dot
            (fun g2 rest => if at_dollar rest then Some (g1, g2) else None)))
    s.

(** [COMBO_ITEM_PATTERN.search(text)]: the pattern begins with [^], which
    without the MULTILINE flag matches at the start of the text only, so
    that the start is the one position where the search can succeed. *)
Definition combo_item_search (s : text) : option (text * text) :=
  combo_item_re s.

(** [_TagsTab._label_from_combo], lines 732-741. *)
Definition _label_from_combo (s : text) : option text :=
  match combo_item_search s with
  | Some (_, g2) => Some g2
  | None => None
  end.

(** [_TagsTab._id_from_combo], lines 743-752; [int] of a text of decimal
    digits is its value. *)
Definition _id_from_combo (s : text) : option Z :=
  match combo_item_search s with
  | Some (g1, _) => Some (Z.of_nat (decimal_value g1))
  | None => None
  end.

(** The items [_set_row] gives the combobox of a row, lines 674-676: the
    item of no type, then one item for every tag type, a tag type being
    its identifier and its label. *)
Definition combo_items (no_type : text) (types : list (Z * text)) : list text :=
  no_type :: map (fun ty => _get_combo_text (fst ty) (snd ty)) types.

(** The inner loop of [update_type_label], lines 611-614: the first item
    whose text starts with [prefix] gets the text [new_text]. *)
Fixpoint set_first_item (prefix new_text : text) (items : list text) : list text :=
  match items with
  | [] => []
  | item :: rest =>
      if starts_with prefix item then new_text :: rest
      else item :: set_first_item prefix new_text rest
  end.

(** [_TagsTab.update_type_label], lines 603-614, on the comboboxes of the
    type column: for every row of the table, whether it is hidden and the
    items of its combobox. *)
Definition update_type_label (ident : Z) (label : text)
    (combos : list (bool * list text)) : list (bool * list text) :=
  map (fun row =>
         if negb (fst row) then
           (fst row,
            set_first_item (str_of_int ident ++ [c_space])
                           (_get_combo_text ident label) (snd row))
         else row)
      combos.

(** ** The image-edit dialog: its images, its destination and saving

    The attributes and the widgets of an [EditImageDialog] and the
    methods that change them, under the names they have in the class. *)

Module EditImageDialog.

Inductive mode : Type :=
  | EDIT
  | ADD
  | REPLACE.

(** [_TITLES], line 23. *)
Definition _TITLES (m : mode) : text :=
  match m with
  | EDIT => str "Edit"
  | ADD => str "Add"
  | REPLACE => str "Replace"
  end.

Definition is_replace (m : mode) : bool :=
  match m with REPLACE => true | _ => false end.

Definition is_add (m : mode) : bool :=
  match m with ADD => true | _ => false end.

Definition is_edit (m : mode) : bool :=
  match m with EDIT => true | _ => false end.

(** [model.Image(id, path)]. *)
Record Image : Type := {
  id : Z;
  path : text
}.

(** The exceptions that leave the methods below; [ExternalError] stands
    for every exception that a call outside these files raises and that
    the dialog does not catch: an error of [os.remove] or [shutil.move]
    other than the one the dialog catches, an error of the database. *)
Inductive exception : Type :=
  | IndexError
  | ValueError
  | TypeError
  | ExternalError.

Inductive result (A : Type) : Type :=
  | Return (a : A)
  | Raise (e : exception).

Arguments Return {A} a.
Arguments Raise {A} e.

(** [l[i]] for a list: a negative index counts from the end. *)
Definition getitem (A : Type) (l : list A) (i : Z) : option A :=
  if (0 <=? i)%Z then nth_error l (Z.to_nat i)
  else if (0 <=? Z.of_nat (length l) + i)%Z
       then nth_error l (Z.to_nat (Z.of_nat (length l) + i))
       else None.

(** [l[0] = x]. *)
Definition setitem_0 (A : Type) (l : list A) (x : A) : option (list A) :=
  match l with
  | [] => None
  | _ :: rest => Some (x :: rest)
  end.

(** [sep.join(items)]. *)
Fixpoint join (sep : text) (items : list text) : text :=
  match items with
  | [] => []
  | [x] => x
  | x :: rest => x ++ sep ++ join sep rest
  end.

(** [a < b] for two [str], by code points. *)
Fixpoint text_ltb (a b : text) : bool :=
  match a, b with
  | _, [] => false
  | [], _ :: _ => true
  | x :: a', y :: b' =>
      if code x <? code y then true
      else if code y <? code x then false
      else text_ltb a' b'
  end.

Fixpoint insert_sorted (x : text) (l : list text) : list text :=
  match l with
  | [] => [x]
  | y :: l' => if text_ltb x y then x :: l else y :: insert_sorted x l'
  end.

(** [sorted(items)] for a list of [str]: the items in ascending order. *)
Definition sorted (items : list text) : list text :=
  fold_right insert_sorted [] items.

(** The attributes of the dialog and the state of its widgets:
    - [_tags] maps the identifier of an image to the raw labels of its
      tags;
    - [_tags_input] is the plain text of the input field;
    - [_skip_btn] is [None] without a Skip button, and otherwise tells
      whether the button is disabled;
    - [_ok_btn_text] is [None] as long as the button has the text the base
      class gave it;
    - [_canvas] is the path of the image shown;
    - [errors_shown] holds the texts of the error boxes shown, the last
      one first.
    The calls to the widgets set this state and return. *)
Record dialog : Type := {
  _mode : mode;
  _index : Z;
  _images : list Image;
  _tags : Z -> option (list text);
  _destination : option text;
  _tags_changed : bool;
  _image_to_replace : option text;
  _tags_input : text;
  _tags_input_disabled : bool;
  _skip_btn : option bool;
  _ok_btn_disabled : bool;
  _ok_btn_text : option text;
  _canvas : option text;
  _dest_label : text;
  window_title : text;
  errors_shown : list text
}.

(** [_get_title], lines 339-340. *)
Definition _get_title (m : mode) (index : Z) (images : list Image) : text :=
  _TITLES m ++ str " Image (" ++ str_of_int (index + 1) ++ str "/"
  ++ str_of_nat (length images) ++ str ")".

(** [__init__] with [_init_body] and [_init_buttons], lines 25-52 and
    102-120. *)
Definition __init__ (m : mode) (show_skip : bool) : result dialog :=
  if show_skip && is_replace m then Raise ValueError
  else
    Return {| _mode := m; _index := (-1)%Z; _images := [];
              _tags := fun _ => None;
              _destination := None; _tags_changed := false;
              _image_to_replace := None;
              _tags_input := []; _tags_input_disabled := is_replace m;
              _skip_btn := if show_skip then Some false else None;
              _ok_btn_disabled := is_replace m; _ok_btn_text := None;
              _canvas := None; _dest_label := [];
              window_title := _get_title m (-1) [];
              errors_shown := [] |}.

(** [_set], lines 158-183. *)
Definition _set (index : Z) (self : dialog) : result dialog :=
  match getitem (_images self) index with
  | None => Raise IndexError
  | Some image =>
      let last :=
        (_index self =? Z.of_nat (length (_images self)) - 1)%Z in
      Return
        {| _mode := _mode self; _index := _index self;
           _images := _images self; _tags := _tags self;
           _destination := _destination self;
           _tags_changed := false;
           _image_to_replace := _image_to_replace self;
           _tags_input :=
             if negb (is_add (_mode self)) then
               join (str " ")
                    (match _tags self (id image) with
                     | Some labels => sorted labels
                     | None => []
                     end)
             else _tags_input self;
           _tags_input_disabled :=
             if is_replace (_mode self) then true
             else _tags_input_disabled self;
           _skip_btn :=
             match _skip_btn self with
             | Some disabled => Some (if last then true else disabled)
             | None => None
             end;
           _ok_btn_disabled := _ok_btn_disabled self;
           _ok_btn_text :=
             match _skip_btn self with
             | Some _ => Some (if last then str "Finish" else str "Next")
             | None => _ok_btn_text self
             end;
           _canvas := Some (path image);
           _dest_label := _dest_label self;
           window_title := _get_title (_mode self) (_index self) (_images self);
           errors_shown := errors_shown self |}
  end.

(** [set_images], lines 136-147; [sorted_images] is [sorted(images)], the
    order of the images being defined outside these files. *)
Definition set_images (sorted_images : list Image)
    (tags : Z -> option (list text)) (self : dialog) : result dialog :=
  _set 0
    {| _mode := _mode self; _index := 0; _images := sorted_images;
       _tags := tags;
       _destination := _destination self;
       _tags_changed := _tags_changed self;
       _image_to_replace := _image_to_replace self;
       _tags_input := _tags_input self;
       _tags_input_disabled := _tags_input_disabled self;
       _skip_btn := _skip_btn self;
       _ok_btn_disabled := _ok_btn_disabled self;
       _ok_btn_text := _ok_btn_text self;
       _canvas := _canvas self; _dest_label := _dest_label self;
       window_title := window_title self;
       errors_shown := errors_shown self |}.

(** [set_image], lines 149-156. *)
Definition set_image (image : Image) (tags : list text) (self : dialog)
  : result dialog :=
  set_images [image]
             (fun i => if (i =? id image)%Z then Some tags else None) self.

(** [_next], lines 185-188. *)
Definition _next (self : dialog) : result dialog :=
  _set (_index self + 1)
    {| _mode := _mode self; _index := (_index self + 1)%Z;
       _images := _images self; _tags := _tags self;
       _destination := _destination self;
       _tags_changed := _tags_changed self;
       _image_to_replace := _image_to_replace self;
       _tags_input := _tags_input self;
       _tags_input_disabled := _tags_input_disabled self;
       _skip_btn := _skip_btn self;
       _ok_btn_disabled := _ok_btn_disabled self;
       _ok_btn_text := _ok_btn_text self;
       _canvas := _canvas self; _dest_label := _dest_label self;
       window_title := window_title self;
       errors_shown := errors_shown self |}.

(** [utils.show_error(text, parent=self)]. *)
Definition show_error (message : text) (self : dialog) : dialog :=
  {| _mode := _mode self; _index := _index self;
     _images := _images self; _tags := _tags self;
     _destination := _destination self;
     _tags_changed := _tags_changed self;
     _image_to_replace := _image_to_replace self;
     _tags_input := _tags_input self;
     _tags_input_disabled := _tags_input_disabled self;
     _skip_btn := _skip_btn self;
     _ok_btn_disabled := _ok_btn_disabled self;
     _ok_btn_text := _ok_btn_text self;
     _canvas := _canvas self; _dest_label := _dest_label self;
     window_title := window_title self;
     errors_shown := message :: errors_shown self |}.

(** Lines 210-211: the label of the destination. *)
Definition show_destination (destination : text) (self : dialog) : dialog :=
  {| _mode := _mode self; _index := _index self;
     _images := _images self; _tags := _tags self;
     _destination := _destination self;
     _tags_changed := _tags_changed self;
     _image_to_replace := _image_to_replace self;
     _tags_input := _tags_input self;
     _tags_input_disabled := _tags_input_disabled self;
     _skip_btn := _skip_btn self;
     _ok_btn_disabled := _ok_btn_disabled self;
     _ok_btn_text := _ok_btn_text self;
     _canvas := _canvas self;
     _dest_label := str "Path: " ++ destination;
     window_title := window_title self;
     errors_shown := errors_shown self |}.

(** [_on_dest_button_clicked], lines 190-211; [chosen] is what the file
    or directory chooser answered. *)
Definition _on_dest_button_clicked (chosen : option text) (self : dialog)
  : result dialog :=
  match chosen with
  | None => Return self
  | Some destination =>
      if is_replace (_mode self) then
        match getitem (_images self) 0 with
        | None => Raise IndexError
        | Some img =>
            let to_replace :=
              match _image_to_replace self with
              | None => path img
              | Some p => p
              end in
            let with_images (images : list Image) (dest : option text)
                (ok_disabled : bool) :=
              {| _mode := _mode self; _index := _index self;
                 _images := images; _tags := _tags self;
                 _destination := dest;
                 _tags_changed := _tags_changed self;
                 _image_to_replace := Some to_replace;
                 _tags_input := _tags_input self;
                 _tags_input_disabled := _tags_input_disabled self;
                 _skip_btn := _skip_btn self;
                 _ok_btn_disabled := ok_disabled;
                 _ok_btn_text := _ok_btn_text self;
                 _canvas := _canvas self; _dest_label := _dest_label self;
                 window_title := window_title self;
                 errors_shown := errors_shown self |} in
            if text_eqb to_replace destination then
              Return
                (show_error (str "Cannot replace image with itself!")
                   (with_images (_images self) (_destination self)
                                (_ok_btn_disabled self)))
            else
              match setitem_0 (_images self)
                              {| id := id img; path := destination |} with
              | None => Raise IndexError
              | Some images =>
                  match _set 0 (with_images images (Some destination) false) with
                  | Raise e => Raise e
                  | Return self' => Return (show_destination destination self')
                  end
              end
        end
      else
        Return
          (show_destination destination
             {| _mode := _mode self; _index := _index self;
                _images := _images self; _tags := _tags self;
                _destination := Some destination;
                _tags_changed := _tags_changed self;
                _image_to_replace := _image_to_replace self;
                _tags_input := _tags_input self;
                _tags_input_disabled := _tags_input_disabled self;
                _skip_btn := _skip_btn self;
                _ok_btn_disabled := _ok_btn_disabled self;
                _ok_btn_text := _ok_btn_text self;
                _canvas := _canvas self; _dest_label := _dest_label self;
                window_title := window_title self;
                errors_shown := errors_shown self |})
  end.

(** The user edits the text of the input field: the field holds
    [new_text], and its signal calls [_text_changed], lines 213-214. *)
Definition _text_changed (new_text : text) (self : dialog) : dialog :=
  {| _mode := _mode self; _index := _index self;
     _images := _images self; _tags := _tags self;
     _destination := _destination self;
     _tags_changed := true;
     _image_to_replace := _image_to_replace self;
     _tags_input := new_text;
     _tags_input_disabled := _tags_input_disabled self;
     _skip_btn := _skip_btn self;
     _ok_btn_disabled := _ok_btn_disabled self;
     _ok_btn_text := _ok_btn_text self;
     _canvas := _canvas self; _dest_label := _dest_label self;
     window_title := window_title self;
     errors_shown := errors_shown self |}.

(** What the dialog calls outside these files, over the state [W] of the
    database and of the disk: the functions of [os.path] and
    [utils.slashed]; the methods of [ImageDao], each answering whether it
    succeeded; [shutil.move], which answers [false] for the
    [FileExistsError] that [_move_image] catches, and [os.remove], which
    answers [false] for the [FileNotFoundError] that [_replace] catches.
    Each of the calls that reach the database or the disk answers [None]
    when it raises any other exception, which no method of the dialog
    catches. *)
Record system (W Tag : Type) : Type := {
  dirname : text -> text;
  basename : text -> text;
  path_join : text -> text -> text;
  slashed : text -> text;
  add_image : text -> list Tag -> W -> option (bool * W);
  update_image_tags : Z -> list Tag -> W -> option (bool * W);
  update_image_path : Z -> option text -> W -> option (bool * W);
  shutil_move : text -> text -> W -> option (bool * W);
  os_remove : text -> W -> option (bool * W)
}.

(** [_get_new_path], lines 266-277. *)
Definition _get_new_path (W Tag : Type) (sys : system W Tag) (self : dialog)
    (image : Image) : option text :=
  match _destination self with
  | Some destination =>
      if negb (is_replace (_mode self))
         && negb (text_eqb (dirname sys (path image)) destination)
      then Some (slashed sys (path_join sys destination
                                        (basename sys (path image))))
      else None
  | None => None
  end.

(** [_move_image], lines 324-337. *)
Definition _move_image (W Tag : Type) (sys : system W Tag)
    (old_path new_path : text) (self : dialog) (w : W)
  : result (bool * dialog * W) :=
  match shutil_move sys old_path new_path w with
  | None => Raise ExternalError
  | Some (true, w1) => Return (true, self, w1)
  | Some (false, w1) =>
      Return (false, show_error (str "File already exists in destination!") self,
              w1)
  end.

(** [_add], lines 279-291. *)
Definition _add (W Tag : Type) (sys : system W Tag) (image : Image)
    (tags : list Tag) (new_path : option text) (self : dialog) (w : W)
  : result (bool * dialog * W) :=
  match add_image sys (match new_path with
                       | None => path image
                       | Some p => p
                       end) tags w with
  | None => Raise ExternalError
  | Some (ok, w1) =>
      match new_path with
      | Some p =>
          if ok then _move_image sys (path image) p self w1
          else Return (ok, self, w1)
      | None => Return (ok, self, w1)
      end
  end.

(** [_edit], lines 293-310. *)
Definition _edit (W Tag : Type) (sys : system W Tag) (image : Image)
    (tags : list Tag) (new_path : option text) (self : dialog) (w : W)
  : result (bool * dialog * W) :=
  match (if _tags_changed self then update_image_tags sys (id image) tags w
         else Some (true, w)) with
  | None => Raise ExternalError
  | Some (ok, w1) =>
      match new_path with
      | Some p =>
          if ok then
            match update_image_path sys (id image) (Some p) w1 with
            | None => Raise ExternalError
            | Some (ok2, w2) =>
                if ok2 then _move_image sys (path image) p self w2
                else Return (ok2, self, w2)
            end
          else Return (ok, self, w1)
      | None => Return (ok, self, w1)
      end
  end.

(** [_replace], lines 312-322; [os.remove(None)] raises [TypeError]. *)
Definition _replace (W Tag : Type) (sys : system W Tag) (self : dialog) (w : W)
  : result (bool * dialog * W) :=
  match _image_to_replace self with
  | None => Raise TypeError
  | Some p =>
      match os_remove sys p w with
      | None => Raise ExternalError
      | Some (false, w1) => Return (false, self, w1)
      | Some (true, w1) =>
          match getitem (_images self) 0 with
          | None => Raise IndexError
          | Some img =>
              match update_image_path sys (id img) (_destination self) w1 with
              | None => Raise ExternalError
              | Some (ok, w2) => Return (ok, self, w2)
              end
          end
      end
  end.

(** [_apply], lines 241-264: the value returned, which tells the base
    class to close the dialog, the dialog and the state of the database
    and of the disk. The [_apply] of the base class is outside these
    files. *)
Definition _apply (W Tag : Type) (env : edit_image_env Tag) (sys : system W Tag)
    (self : dialog) (w : W) : result (bool * dialog * W) :=
  match _get_tags env (_tags_input self) with
  | None => Raise ValueError
  | Some tags =>
      match getitem (_images self) (_index self) with
      | None => Raise IndexError
      | Some image =>
          let new_path := _get_new_path sys self image in
          let done :=
            match _mode self with
            | ADD => _add sys image tags new_path self w
            | EDIT => _edit sys image tags new_path self w
            | REPLACE => _replace sys self w
            end in
          match done with
          | Raise e => Raise e
          | Return (ok, self1, w1) =>
              if ok then
                let close :=
                  (_index self1 =? Z.of_nat (length (_images self1)) - 1)%Z in
                if negb close then
                  match _next self1 with
                  | Raise e => Raise e
                  | Return self2 => Return (close, self2, w1)
                  end
                else Return (close, self1, w1)
              else
                Return
                  (false,
                   show_error (if is_edit (_mode self1)
                               then str "Could not apply changes!"
                               else str "Could not add image!") self1,
                   w1)
          end
      end
  end.

End EditImageDialog.

(** ** Adding images to the database: the files dropped on the window *)

(** A URL of the MIME data of a drag or drop event: [isLocalFile()] and
    [toLocalFile()]. *)
Record url : Type := {
  isLocalFile : bool;
  toLocalFile : text
}.

(** The event: [mimeData().hasUrls()] and [mimeData().urls()]. *)
Record drop_event : Type := {
  hasUrls : bool;
  urls : list url
}.

(** What the window asks the disk and the database: [Path.absolute],
    [Path.is_file], [Path.is_dir], [utils.files.accept_image_file],
    [utils.files.get_files_from_directory], which answers the files or
    raises [RecursionError] with a depth, and
    [ImageDao.image_registered]. *)
Record files_env : Type := {
  absolute : text -> text;
  is_file : text -> bool;
  is_dir : text -> bool;
  accept_image_file : text -> bool;
  get_files_from_directory : text -> list text + text;
  image_registered : text -> bool
}.

(** [Application._get_paths], lines 552-565; [None] is the [ValueError]
    of a URL that is not a local file. *)
Fixpoint get_paths_from (env : files_env) (us : list url) (paths : list text)
  : option (list text) :=
  match us with
  | [] => Some paths
  | u :: rest =>
      if negb (isLocalFile u) then None
      else get_paths_from env rest (paths ++ [absolute env (toLocalFile u)])
  end.

Definition _get_paths (env : files_env) (event : drop_event) : option (list text) :=
  get_paths_from env (urls event) [].

(** The loop of [_check_drag], lines 543-548: whether the event is
    accepted. *)
Fixpoint check_paths (env : files_env) (paths : list text) : bool :=
  match paths with
  | [] => true
  | path :: rest =>
      if negb (is_dir env path) && negb (accept_image_file env path) then false
      else check_paths env rest
  end.

(** [Application._check_drag], lines 529-550: [true] when the event is
    accepted, [false] when it is ignored. *)
Definition _check_drag (env : files_env) (event : drop_event) : bool :=
  if hasUrls event then
    match _get_paths env event with
    | None => false
    | Some paths => check_paths env paths
    end
  else false.

(** What [_add_images] ends in: nothing at all, the message that the
    images are registered already, in the plural or not, or the dialog
    opened on the images to add, after the message that some images are
    registered or without it, and with the Skip button or without it. *)
Inductive add_images_result : Type :=
  | NothingToAdd
  | AllRegistered (plural : bool)
  | DialogOpened (some_registered_shown : bool) (show_skip : bool)
                 (images_to_add : list text)
  | AddRaised.

(** The loop of lines 296-298; [None] is the [IndexError] of
    [registered[i]]. *)
Fixpoint images_to_add_from (registered : list bool) (i : nat)
    (image_paths : list text) : option (list text) :=
  match image_paths with
  | [] => Some []
  | path :: rest =>
      match nth_error registered i with
      | None => None
      | Some r =>
          match images_to_add_from registered (S i) rest with
          | None => None
          | Some images => Some (if negb r then path :: images else images)
          end
      end
  end.

(** [all(l)] and [any(l)] for a list of [bool]. *)
Definition all (l : list bool) : bool := forallb (fun b => b) l.
Definition any (l : list bool) : bool := existsb (fun b => b) l.

(** [Application._add_images], lines 277-304. *)
Definition _add_images (env : files_env) (image_paths : list text)
  : add_images_result :=
  match image_paths with
  | [] => NothingToAdd
  | _ :: _ =>
      let registered := map (image_registered env) image_paths in
      if all registered then AllRegistered (1 <? length registered)
      else
        match images_to_add_from registered 0 image_paths with
        | None => AddRaised
        | Some images =>
            DialogOpened (any registered) (1 <? length images) images
        end
  end.

(** What [dropEvent] ends in: the [ValueError] of [_get_paths], the error
    of a directory that is too deep, the message that no file was found,
    or the call of [_add_images]. *)
Inductive drop_result : Type :=
  | DropRaised
  | MaximumRecursion (depth : text)
  | NoFilesFound
  | ImagesAdded (files : list text) (added : add_images_result).

(** The loop of [dropEvent], lines 514-522: the files, or the depth of
    the [RecursionError] that broke the loop. *)
Fixpoint dropped_files (env : files_env) (paths : list text) (files : list text)
  : list text + text :=
  match paths with
  | [] => inl files
  | path :: rest =>
      if is_file env path then dropped_files env rest (files ++ [path])
      else
        match get_files_from_directory env path with
        | inl found => dropped_files env rest (files ++ found)
        | inr depth => inr depth
        end
  end.

(** [Application.dropEvent], lines 511-527. *)
Definition dropEvent (env : files_env) (event : drop_event) : drop_result :=
  match _get_paths env event with
  | None => DropRaised
  | Some paths =>
      match dropped_files env paths [] with
      | inr depth => MaximumRecursion depth
      | inl [] => NoFilesFound
      | inl (f :: files) => ImagesAdded (f :: files) (_add_images env (f :: files))
      end
  end.

(** ** The click on OK in the image-edit dialog *)

(** Modelled from the spec: the handler of the OK button, which the base
    class [Dialog] defines (dialog_base.py is not among the files; the
    image-edit dialog overrides [_is_valid], [_get_error] and [_apply] of
    that class and calls neither of the first two itself). The words
    followed are those of the claim on the tag list of the dialog: a tag
    list that is invalid is reported, with an error that is not [None],
    and blocks apply. So a click on OK shows the error of [_get_error]
    and calls nothing else when [_is_valid] answers false, and it calls
    [_apply] when [_is_valid] answers true. *)
Definition ok_clicked (W Tag : Type) (env : edit_image_env Tag)
    (sys : EditImageDialog.system W Tag) (self : EditImageDialog.dialog) (w : W)
  : EditImageDialog.result (bool * EditImageDialog.dialog * W) :=
  if _is_valid env (EditImageDialog._tags_input self)
  then EditImageDialog._apply env sys self w
  else
    match _get_error env (EditImageDialog._tags_input self) with
    | Some reason =>
        EditImageDialog.Return (false, EditImageDialog.show_error reason self, w)
    | None => EditImageDialog.Return (false, self, w)
    end.

(* ================================================================== *)
(** * Part II. Notions the statements are written in                   *)
(* ================================================================== *)

(** [n] backslashes. *)
Definition backslashes (n : nat) : text := repeat c_backslash n.

(** The texts group 3 of the metatag pattern can hold. *)
Inductive literal_value : text -> Prop :=
  | LV_pairs (k : nat) : literal_value (backslashes (2 * k))
  | LV_lazy (x : text) (c : ascii) (k : nat) :
      forallb is_dot x = true ->
      is_not_backslash c = true ->
      literal_value (x ++ c :: backslashes (2 * k)).

(** The texts the metatag pattern matches: a key, a colon, a delimiter, a
    value and the same delimiter again, with optional white space around
    the colon. *)
Inductive meta_literal : text -> Prop :=
  | ML (c : ascii) (w sp1 sp2 : text) (d : ascii) (v : text) :
      is_word c = true ->
      forallb is_word w = true ->
      forallb is_space sp1 = true ->
      forallb is_space sp2 = true ->
      is_delim d = true ->
      literal_value v ->
      meta_literal (c :: w ++ sp1 ++ c_colon :: sp2 ++ d :: v ++ [d]).

(** The metatag pattern matches at no position of [a], the text that
    follows being [rest]. *)
Definition no_match_within (a rest : text) : Prop :=
  forall a1 a2, a = a1 ++ a2 -> a2 <> [] -> meta_tag_re (a2 ++ rest) = None.

(** [old] occurs at no position of [a], the text that follows [a] being
    [rest]. *)
Definition no_occurrence_within (old a rest : text) : Prop :=
  forall a1 a2, a = a1 ++ a2 -> a2 <> [] -> starts_with old (a2 ++ rest) = false.

(** The Literal Protector as the specification words it: the leftmost
    match is replaced where it stands by the placeholder of the next
    index, and its text is stored under that index. *)
Fixpoint protector_spec (fuel : nat) (work : text) (index : nat)
    (values : meta_tag_values) : option (text * nat * meta_tag_values) :=
  match re_search work with
  | None => Some (work, index, values)
  | Some (before, m, after) =>
      match fuel with
      | 0 => None
      | S fuel' =>
          protector_spec fuel' (before ++ placeholder (S index) ++ after)
                         (S index) (values ++ [(S index, m)])
      end
  end.

(** [n] passes of the Macro Expander, one after the other. *)
Fixpoint passes (compound_tags : list CompoundTag) (n : nat) (query : text)
  : option text :=
  match n with
  | 0 => Some query
  | S n' =>
      match passes compound_tags n' query with
      | Some q => expand_pass compound_tags q
      | None => None
      end
  end.

(** Pass number [S n] produces no change. *)
Definition pass_is_fixed (compound_tags : list CompoundTag) (n : nat) (query : text)
  : Prop :=
  exists q, passes compound_tags n query = Some q
            /\ passes compound_tags (S n) query = Some q.

(** The first claim about the max-recursion error, as the specification
    states it: the error is reported exactly when all the passes the limit
    allows are made and none of them produces no change. *)
Definition max_recursion_as_specified (compound_tags : list CompoundTag)
    (query : text) : Prop :=
  (exists r, expand compound_tags query = MaxRecursion r)
  <-> (passes compound_tags _MAXIMUM_DEPTH query <> None
       /\ forall k, k < _MAXIMUM_DEPTH -> ~ pass_is_fixed compound_tags k query).

(** A compound tag given by its label and its definition. *)
Definition compound_tag (lbl def : string) : CompoundTag :=
  {| label := str lbl; definition := str def |}.

(** Nineteen compound tags, each defined as the next letter, in the order
    that makes every pass expand one of them. *)
Definition chain_of_19 : list CompoundTag :=
  [ compound_tag "s" "t"; compound_tag "r" "s"; compound_tag "q" "r";
    compound_tag "p" "q"; compound_tag "o" "p"; compound_tag "n" "o";
    compound_tag "m" "n"; compound_tag "l" "m"; compound_tag "k" "l";
    compound_tag "j" "k"; compound_tag "i" "j"; compound_tag "h" "i";
    compound_tag "g" "h"; compound_tag "f" "g"; compound_tag "e" "f";
    compound_tag "d" "e"; compound_tag "c" "d"; compound_tag "b" "c";
    compound_tag "a" "b" ].

(** A compiler that refuses every query, a store with no image and no
    compound tag. *)
Definition refusing_env : collaborators unit nat :=
  {| sp_true := tt;
     query_to_sympy := fun _ _ => ValueError (str "syntax error");
     get_all_tags := [];
     get_images := fun _ => Some [];
     get_tagless_images := Some [7];
     translate_max_recursion := fun _ => str "maximum depth reached";
     translate_image_loading_error := str "could not load images" |}.

(** A tab whose compiler refuses the text [AND] and takes everything
    else. *)
Definition sample_tab : tags_tab unit :=
  {| item_text := fun row col => if col =? 2 then
                                   if row =? 0 then str "cat OR dog" else str "AND"
                                 else str "pet";
     label_pattern_match := fun _ => true;
     int_of_text := fun _ => Some 1;
     tag_exists := fun _ _ => false;
     tab_query_to_sympy := fun q _ =>
       if text_eqb q (str "AND") then ValueError (str "syntax error")
       else Compiled tt;
     translate_invalid_tag_name := str "invalid tag name";
     translate_duplicate_tag_name := str "duplicate tag name" |}.

(** A tag store in which [pet] is the one compound tag, and a
    [from_string] that takes every token. *)
Definition sample_dialog_env : edit_image_env text :=
  {| from_string := fun t => Some t;
     get_tag_class := fun lbl =>
       if text_eqb lbl (str "pet") then Some CompoundTagClass else Some TagClass |}.


(** The characters a placeholder is made of. *)
Definition is_placeholder_char (c : ascii) : bool :=
  Ascii.eqb c c_percent || is_digit c.

(** The characters of a metatag literal up to its opening delimiter. *)
Definition is_key_char (c : ascii) : bool :=
  is_word c || is_space c || Ascii.eqb c c_colon || is_delim c.

(** The texts between the literals, with the literal that follows each:
    what the query is cut into by a run of the Literal Protector. *)
Definition segments := list (text * text).

(** The query the segments come from; [tail] is the text after the last
    literal. *)
Fixpoint original_of (segs : segments) (tail : text) : text :=
  match segs with
  | [] => tail
  | (t, m) :: segs' => t ++ m ++ original_of segs' tail
  end.

(** The working string: each literal replaced by the placeholder of its
    index, the first one being [index + 1]. *)
Fixpoint work_of (segs : segments) (index : nat) (tail : text) : text :=
  match segs with
  | [] => tail
  | (t, m) :: segs' => t ++ placeholder (index + 1) ++ work_of segs' (index + 1) tail
  end.

(** The entries stored for the literals. *)
Fixpoint entries_of (segs : segments) (index : nat) : meta_tag_values :=
  match segs with
  | [] => []
  | (t, m) :: segs' => (index + 1, m) :: entries_of segs' (index + 1)
  end.


(** The text is empty or begins with a character that is no word
    character. *)
Definition starts_nonword (b : text) : Prop :=
  b = [] \/ exists c b', b = c :: b' /\ is_nonword c = true.

(** The text ends with a character that is no word character. *)
Definition ends_nonword (a : text) : Prop :=
  exists a' c, a = a' ++ [c] /\ is_nonword c = true.

(** [w] stands in [s] as a whole word: bounded on each side by a character
    that is no word character, or by the end of the text. With [lb] false
    the left end of the text does not count as a bound. *)
Definition whole_word_from (lb : bool) (w s : text) : Prop :=
  exists a b, s = a ++ w ++ b
              /\ ((a = [] /\ lb = true) \/ ends_nonword a)
              /\ starts_nonword b.

Definition whole_word (w s : text) : Prop := whole_word_from true w s.








(** A compound tag that refers to itself and holds a regular-expression
    metatag with the escape for a digit. *)
Definition digits_tag : CompoundTag := compound_tag "loop" "loop AND path:/\d+/".

(** A query in which every backslash, read from the left, escapes a
    wildcard or a backslash. *)
Inductive well_escaped : text -> Prop :=
  | WE_nil : well_escaped []
  | WE_char (c : ascii) (s : text) :
      c <> c_backslash -> well_escaped s -> well_escaped (c :: s)
  | WE_escape (d : ascii) (s : text) :
      is_wildcard d = true \/ d = c_backslash ->
      well_escaped s -> well_escaped (c_backslash :: d :: s).

Fixpoint escapes_ok (s : text) : bool :=
  match s with
  | [] => true
  | c :: s' =>
      if Ascii.eqb c c_backslash then
        match s' with
        | d :: s'' => (is_wildcard d || Ascii.eqb d c_backslash) && escapes_ok s''
        | [] => false
        end
      else escapes_ok s'
  end.

(** The regular expression of a query, read from the left: an escaped
    character stays as it is, a wildcard gets a dot before it, a character
    of the class of line 168 gets a backslash before it. *)
Fixpoint wildcard_pattern (s : text) : text :=
  match s with
  | [] => []
  | c :: s' =>
      if Ascii.eqb c c_backslash then
        match s' with
        | d :: s'' => c :: d :: wildcard_pattern s''
        | [] => [c]
        end
      else if is_wildcard c then c_dot :: c :: wildcard_pattern s'
      else if is_meta c then c_backslash :: c :: wildcard_pattern s'
      else c :: wildcard_pattern s'
  end.

(** The query after line 168. *)
Definition escape_meta (s : text) : text :=
  flat_map (fun c => if is_meta c then [c_backslash; c] else [c]) s.

Definition meta_items : list tpl_item := [TChar c_backslash; TGroup 1].

Definition wildcard_items : list tpl_item := [TGroup 1; TChar c_dot; TGroup 2].

(** A table of four rows and two searched columns, and a [re.compile] that
    knows one pattern. *)
Definition sample_search_tab : Tab :=
  {| rowCount := 4;
     isRowHidden := fun _ => false;
     cell_text := fun row col =>
       if col =? 1 then
         match row with 0 => str "cat" | 1 => str "dog" | 2 => str "cow" | _ => str "cat" end
       else str "x";
     _search_columns := [1; 2];
     _columns_to_check := [(1, true)];
     _check_cell_format := fun _ _ => Checked true [];
     translate_empty_cell := str "empty";
     translate_duplicate_value := fun _ => str "duplicate" |}.

Definition sample_compile (pattern : text) : option (text -> bool) :=
  if text_eqb pattern (str "^c.*$") then
    Some (fun s => match s with c :: _ => Ascii.eqb c "c"%char | [] => false end)
  else None.

(** The cell of a visible row passes the checks of [_check_column]: it is
    not blank, its format is accepted and, when duplicates are looked for,
    no other visible row holds the same text. *)
Definition row_passes (tab : Tab) (column : nat) (check_duplicates : bool)
    (row : nat) : Prop :=
  strip (cell_text tab row column) <> []
  /\ (exists message, _check_cell_format tab row column = Checked true message)
  /\ (check_duplicates = true ->
      forall r, r < rowCount tab -> isRowHidden tab r = false -> r <> row ->
                cell_text tab r column <> cell_text tab row column).

(** A table of compound tags in which the rows 0 and 2 hold the same
    label, the row 1 being hidden. *)
Definition twin_rows_tab : Tab :=
  {| rowCount := 3;
     isRowHidden := fun row => row =? 1;
     cell_text := fun row col =>
       if col =? 1 then (if row =? 1 then str "" else str "pets") else str "cat";
     _search_columns := [1; 2];
     _columns_to_check := [(1, true); (2, false)];
     _check_cell_format := fun _ _ => Checked true [];
     translate_empty_cell := str "empty cell";
     translate_duplicate_value := fun row => str "duplicate of row " ++ str_of_nat row |}.

(** What the user does to the rows of a tab. *)
Inductive row_op : Type :=
  | AddRow
  | DeleteSelectedRows (selected_rows : set nat) (confirmed : bool)
  | CellEdited (row : nat) (differs : bool).

Definition row_step (op : row_op) (self : tab_rows) : tab_rows :=
  match op with
  | AddRow => add_row self
  | DeleteSelectedRows selected_rows confirmed =>
      fst (delete_selected_rows selected_rows confirmed self)
  | CellEdited row differs => _cell_edited true true row differs self
  end.

Definition run_ops (ops : list row_op) (self : tab_rows) : tab_rows :=
  fold_left (fun s op => row_step op s) ops self.

(** The operation bears on rows of the table. *)
Definition op_in_table (op : row_op) (self : tab_rows) : Prop :=
  match op with
  | AddRow => True
  | DeleteSelectedRows selected_rows _ =>
      NoDup selected_rows /\ forall r, In r selected_rows -> r < row_count self
  | CellEdited row _ => row < row_count self
  end.

Fixpoint ops_in_table (ops : list row_op) (self : tab_rows) : Prop :=
  match ops with
  | [] => True
  | op :: ops' => op_in_table op self /\ ops_in_table ops' (row_step op self)
  end.

(** The sets of rows fit together: they hold rows of the table, none
    twice; an added row is neither changed, nor deleted, nor hidden; a
    deleted row is hidden. *)
Definition rows_consistent (self : tab_rows) : Prop :=
  NoDup (_added_rows self) /\ NoDup (_changed_rows self)
  /\ NoDup (_deleted_rows self)
  /\ (forall r, In r (_added_rows self) \/ In r (_changed_rows self)
                \/ In r (_deleted_rows self) \/ In r (hidden_rows self) ->
                r < row_count self)
  /\ (forall r, In r (_added_rows self) ->
                ~ In r (_changed_rows self) /\ ~ In r (_deleted_rows self)
                /\ ~ In r (hidden_rows self))
  /\ (forall r, In r (_deleted_rows self) -> In r (hidden_rows self)).

(** A database that refuses to delete the type 7 and takes everything
    else, counting the calls it takes. *)
Definition sample_dao : tags_dao nat Z Z :=
  {| add_type := fun _ s => (true, S s);
     delete_type := fun ident s => (negb (ident =? 7)%Z, S s);
     update_type := fun _ s => (true, S s);
     add_compound_tag := fun _ s => (true, S s);
     delete_tag := fun _ s => (true, S s);
     update_tag := fun _ s => (true, S s) |}.

Definition sample_tabs : editor_tabs :=
  {| types_rows := {| row_count := 3; hidden_rows := [1]; _added_rows := [2];
                      _changed_rows := [0]; _deleted_rows := [1];
                      _dummy_type_id := (-2)%Z |};
     compound_rows := {| row_count := 1; hidden_rows := []; _added_rows := [];
                         _changed_rows := [0]; _deleted_rows := [];
                         _dummy_type_id := (-1)%Z |};
     tags_rows := new_rows 2 |}.

(** The tag types with the label of the type [ident] replaced. *)
Definition relabel (ident : Z) (label : text) (types : list (Z * text))
  : list (Z * text) :=
  map (fun ty => if (fst ty =? ident)%Z then (ident, label) else ty) types.

Definition is_not_space_char (c : ascii) : bool := negb (Ascii.eqb c c_space).

(** What the user does in the image-edit dialog: a click on Skip, a click
    on the button of the destination with the answer of the chooser, an
    edit of the tags, a click on OK. *)
Inductive dialog_event : Type :=
  | ClickSkip
  | ClickDest (chosen : option text)
  | EditTags (new_text : text)
  | ClickOk.

(** One event. A disabled button or field takes no event; the click on OK
    ends in [_apply]. The answer tells whether the dialog is to be
    closed. *)
Definition dialog_step (W Tag : Type) (env : edit_image_env Tag)
    (sys : EditImageDialog.system W Tag) (ev : dialog_event)
    (self : EditImageDialog.dialog) (w : W)
  : EditImageDialog.result (bool * EditImageDialog.dialog * W) :=
  match ev with
  | ClickSkip =>
      match EditImageDialog._skip_btn self with
      | Some false =>
          match EditImageDialog._next self with
          | EditImageDialog.Raise e => EditImageDialog.Raise e
          | EditImageDialog.Return self' =>
              EditImageDialog.Return (false, self', w)
          end
      | _ => EditImageDialog.Return (false, self, w)
      end
  | ClickDest chosen =>
      match EditImageDialog._on_dest_button_clicked chosen self with
      | EditImageDialog.Raise e => EditImageDialog.Raise e
      | EditImageDialog.Return self' => EditImageDialog.Return (false, self', w)
      end
  | EditTags new_text =>
      if EditImageDialog._tags_input_disabled self
      then EditImageDialog.Return (false, self, w)
      else EditImageDialog.Return
             (false, EditImageDialog._text_changed new_text self, w)
  | ClickOk =>
      if EditImageDialog._ok_btn_disabled self
      then EditImageDialog.Return (false, self, w)
      else EditImageDialog._apply env sys self w
  end.

(** The events one after the other, until the dialog is closed. *)
Fixpoint run_dialog (W Tag : Type) (env : edit_image_env Tag)
    (sys : EditImageDialog.system W Tag) (events : list dialog_event)
    (self : EditImageDialog.dialog) (w : W)
  : EditImageDialog.result (bool * EditImageDialog.dialog * W) :=
  match events with
  | [] => EditImageDialog.Return (false, self, w)
  | ev :: rest =>
      match dialog_step env sys ev self w with
      | EditImageDialog.Raise e => EditImageDialog.Raise e
      | EditImageDialog.Return (closed, self', w') =>
          if closed then EditImageDialog.Return (true, self', w')
          else run_dialog env sys rest self' w'
      end
  end.

(** The dialog shows one of its images, and Skip is enabled only before
    the last one; in the mode REPLACE, OK is enabled only once the image
    to replace is known. *)
Definition dialog_in_range (self : EditImageDialog.dialog) : Prop :=
  (0 <= EditImageDialog._index self
   < Z.of_nat (length (EditImageDialog._images self)))%Z
  /\ (EditImageDialog._skip_btn self = Some false ->
      (EditImageDialog._index self
       < Z.of_nat (length (EditImageDialog._images self)) - 1)%Z)
  /\ (EditImageDialog._mode self = EditImageDialog.REPLACE ->
      EditImageDialog._ok_btn_disabled self = false ->
      EditImageDialog._image_to_replace self <> None).

(** In the mode REPLACE, on the image [image]: the image to replace, once
    known, is the path of [image]; as long as no destination is set, OK
    is disabled; a destination is another path than the one of [image],
    and the dialog then holds the image with the destination as its
    path. *)
Definition replacing (image : EditImageDialog.Image)
    (self : EditImageDialog.dialog) : Prop :=
  EditImageDialog._mode self = EditImageDialog.REPLACE
  /\ EditImageDialog._skip_btn self = None
  /\ EditImageDialog._tags_input_disabled self = true
  /\ EditImageDialog._index self = 0%Z
  /\ match EditImageDialog._destination self with
     | None =>
         EditImageDialog._ok_btn_disabled self = true
         /\ EditImageDialog._images self = [image]
         /\ (EditImageDialog._image_to_replace self = None
             \/ EditImageDialog._image_to_replace self
                = Some (EditImageDialog.path image))
     | Some d =>
         d <> EditImageDialog.path image
         /\ EditImageDialog._ok_btn_disabled self = false
         /\ EditImageDialog._images self
            = [{| EditImageDialog.id := EditImageDialog.id image;
                  EditImageDialog.path := d |}]
         /\ EditImageDialog._image_to_replace self
            = Some (EditImageDialog.path image)
     end.

(** No white space in a text. *)
Definition no_space (s : text) : bool := forallb (fun c => negb (is_space c)) s.

(** A database and a disk that take everything and count the calls, with
    tags that are their labels. *)
Definition sample_system : EditImageDialog.system nat text :=
  {| EditImageDialog.dirname := fun p => p;
     EditImageDialog.basename := fun p => p;
     EditImageDialog.path_join := fun a b => a ++ str "/" ++ b;
     EditImageDialog.slashed := fun p => p;
     EditImageDialog.add_image := fun _ _ w => Some (true, S w);
     EditImageDialog.update_image_tags := fun _ _ w => Some (true, S w);
     EditImageDialog.update_image_path := fun _ _ w => Some (true, S w);
     EditImageDialog.shutil_move := fun _ _ w => Some (true, S w);
     EditImageDialog.os_remove := fun _ w => Some (true, S w) |}.

Definition sample_tag_env : edit_image_env text :=
  {| from_string := fun t => Some t; get_tag_class := fun _ => Some TagClass |}.

Definition sample_image (n : Z) (p : string) : EditImageDialog.Image :=
  {| EditImageDialog.id := n; EditImageDialog.path := str p |}.

(** A dialog in the mode EDIT on one image with two tags. *)
Definition sample_edit_dialog : EditImageDialog.dialog :=
  {| EditImageDialog._mode := EditImageDialog.EDIT;
     EditImageDialog._index := 0;
     EditImageDialog._images := [sample_image 4 "a.png"];
     EditImageDialog._tags := fun _ => Some [str "dog"; str "cat"];
     EditImageDialog._destination := None;
     EditImageDialog._tags_changed := true;
     EditImageDialog._image_to_replace := None;
     EditImageDialog._tags_input := str "bird";
     EditImageDialog._tags_input_disabled := false;
     EditImageDialog._skip_btn := None;
     EditImageDialog._ok_btn_disabled := false;
     EditImageDialog._ok_btn_text := None;
     EditImageDialog._canvas := None;
     EditImageDialog._dest_label := [];
     EditImageDialog.window_title := [];
     EditImageDialog.errors_shown := [] |}.

(** The files a dropped path stands for, when no directory is too deep. *)
Definition files_of (env : files_env) (path : text) : list text :=
  if is_file env path then [path]
  else match get_files_from_directory env path with
       | inl found => found
       | inr _ => []
       end.

(** The dropped path is a directory that is too deep. *)
Definition too_deep (env : files_env) (path : text) : bool :=
  if is_file env path then false
  else match get_files_from_directory env path with
       | inl _ => false
       | inr _ => true
       end.

(** A disk with the image [a.png], registered, the image [b.png], not
    registered, and the directory [d] that holds [b.png]. *)
Definition sample_files_env : files_env :=
  {| absolute := fun p => p;
     is_file := fun p => text_eqb p (str "a.png") || text_eqb p (str "b.png");
     is_dir := fun p => text_eqb p (str "d");
     accept_image_file :=
       fun p => text_eqb p (str "a.png") || text_eqb p (str "b.png");
     get_files_from_directory := fun _ => inl [str "b.png"];
     image_registered := fun p => text_eqb p (str "a.png") |}.

Definition sample_drop : drop_event :=
  {| hasUrls := true;
     urls := [ {| isLocalFile := true; toLocalFile := str "a.png" |};
               {| isLocalFile := true; toLocalFile := str "d" |} ] |}.

(** ** The literals of a query, from left to right *)

(** The segments are those of a scan of the query from left to right that
    never comes back: each literal is the leftmost match of what follows
    the literal before it, and what follows the last literal holds no
    match. *)
Fixpoint scanned (segs : segments) (tail : text) : Prop :=
  match segs with
  | [] => re_search tail = None
  | (t, m) :: segs' =>
      re_search (t ++ m ++ original_of segs' tail)
      = Some (t, m, original_of segs' tail)
      /\ scanned segs' tail
  end.

(** A slash-delimited value that holds a quoted value with a newline in
    it: [a:/ b:"], a newline, ["/]. *)
Definition nested_literal_query : text :=
  str "a:/ b:" ++ [c_quote; c_newline; c_quote] ++ str "/".

(** The quoted literal of [nested_literal_query]. *)
Definition inner_literal : text := str "b:" ++ [c_quote; c_newline; c_quote].

(** ** The tags the image-edit dialog hands to the database *)

(** One event of the dialog, the click on OK going through [ok_clicked];
    the other events are those of [dialog_step]. *)
Definition checked_step (W Tag : Type) (env : edit_image_env Tag)
    (sys : EditImageDialog.system W Tag) (ev : dialog_event)
    (self : EditImageDialog.dialog) (w : W)
  : EditImageDialog.result (bool * EditImageDialog.dialog * W) :=
  match ev with
  | ClickOk =>
      if EditImageDialog._ok_btn_disabled self
      then EditImageDialog.Return (false, self, w)
      else ok_clicked env sys self w
  | _ => dialog_step env sys ev self w
  end.

(** The events one after the other, until the dialog is closed. *)
Fixpoint checked_run (W Tag : Type) (env : edit_image_env Tag)
    (sys : EditImageDialog.system W Tag) (events : list dialog_event)
    (self : EditImageDialog.dialog) (w : W)
  : EditImageDialog.result (bool * EditImageDialog.dialog * W) :=
  match events with
  | [] => EditImageDialog.Return (false, self, w)
  | ev :: rest =>
      match checked_step env sys ev self w with
      | EditImageDialog.Raise e => EditImageDialog.Raise e
      | EditImageDialog.Return (closed, self', w') =>
          if closed then EditImageDialog.Return (true, self', w')
          else checked_run env sys rest self' w'
      end
  end.

(** The tags are those of tokens none of which names a compound tag, a
    leading character that is neither alphanumeric nor an underscore taken
    off. *)
Definition compound_free (Tag : Type) (env : edit_image_env Tag)
    (tags : list Tag) : Prop :=
  exists tokens,
    tags_of_tokens env tokens = Some tags
    /\ forall t, In t tokens ->
         get_tag_class env (strip_type_symbol t) <> Some CompoundTagClass.

(** Two databases and disks that answer alike, except maybe where
    [add_image] or [update_image_tags] is given a list of tags outside
    [P]. *)
Definition same_on (W Tag : Type) (P : list Tag -> Prop)
    (sys sys' : EditImageDialog.system W Tag) : Prop :=
  EditImageDialog.dirname sys = EditImageDialog.dirname sys'
  /\ EditImageDialog.basename sys = EditImageDialog.basename sys'
  /\ EditImageDialog.path_join sys = EditImageDialog.path_join sys'
  /\ EditImageDialog.slashed sys = EditImageDialog.slashed sys'
  /\ EditImageDialog.update_image_path sys = EditImageDialog.update_image_path sys'
  /\ EditImageDialog.shutil_move sys = EditImageDialog.shutil_move sys'
  /\ EditImageDialog.os_remove sys = EditImageDialog.os_remove sys'
  /\ (forall tags, P tags -> forall p w,
        EditImageDialog.add_image sys p tags w
        = EditImageDialog.add_image sys' p tags w)
  /\ (forall tags, P tags -> forall i w,
        EditImageDialog.update_image_tags sys i tags w
        = EditImageDialog.update_image_tags sys' i tags w).

(** A database that keeps the lists of tags it is given, and a disk that
    does nothing. *)
Definition recording_system : EditImageDialog.system (list (list text)) text :=
  {| EditImageDialog.dirname := fun p => p;
     EditImageDialog.basename := fun p => p;
     EditImageDialog.path_join := fun a b => a ++ str "/" ++ b;
     EditImageDialog.slashed := fun p => p;
     EditImageDialog.add_image := fun _ tags w => Some (true, w ++ [tags]);
     EditImageDialog.update_image_tags := fun _ tags w => Some (true, w ++ [tags]);
     EditImageDialog.update_image_path := fun _ _ w => Some (true, w);
     EditImageDialog.shutil_move := fun _ _ w => Some (true, w);
     EditImageDialog.os_remove := fun _ w => Some (true, w) |}.

(** A dialog in the mode ADD on one image, with the text [input] in the
    field of the tags. *)
Definition sample_add_dialog (input : string) : EditImageDialog.dialog :=
  {| EditImageDialog._mode := EditImageDialog.ADD;
     EditImageDialog._index := 0;
     EditImageDialog._images := [sample_image 4 "a.png"];
     EditImageDialog._tags := fun _ => None;
     EditImageDialog._destination := None;
     EditImageDialog._tags_changed := true;
     EditImageDialog._image_to_replace := None;
     EditImageDialog._tags_input := str input;
     EditImageDialog._tags_input_disabled := false;
     EditImageDialog._skip_btn := None;
     EditImageDialog._ok_btn_disabled := false;
     EditImageDialog._ok_btn_text := None;
     EditImageDialog._canvas := None;
     EditImageDialog._dest_label := [];
     EditImageDialog.window_title := [];
     EditImageDialog.errors_shown := [] |}.

(* ================================================================== *)
(** * Part III. Lemmas and theorems                                    *)
(* ================================================================== *)

Unset Implicit Arguments.

(** ** Text *)

Lemma text_eqb_eq (a b : text) : text_eqb a b = true <-> a = b.
Proof.
  revert b. induction a as [|x a IH]; intros [|y b]; simpl; split;
    try congruence; try reflexivity.
  - intros H. apply andb_true_iff in H as [Hx Hab].
    apply Ascii.eqb_eq in Hx. apply IH in Hab. congruence.
  - intros H. injection H as -> ->. rewrite Ascii.eqb_refl. simpl.
    apply IH. reflexivity.
Qed.

Lemma text_eqb_refl (a : text) : text_eqb a a = true.
Proof. apply text_eqb_eq. reflexivity. Qed.

Lemma text_eqb_neq (a b : text) : text_eqb a b = false <-> a <> b.
Proof.
  split.
  - intros H E. apply text_eqb_eq in E. congruence.
  - intros H. destruct (text_eqb a b) eqn:E; [|reflexivity].
    apply text_eqb_eq in E. contradiction.
Qed.

Lemma starts_with_app (p r : text) : starts_with p (p ++ r) = true.
Proof.
  induction p as [|x p IH]; simpl; [reflexivity|].
  rewrite Ascii.eqb_refl. exact IH.
Qed.

Lemma starts_with_inv (p s : text) :
  starts_with p s = true -> exists r, s = p ++ r.
Proof.
  revert s. induction p as [|x p IH]; intros s H.
  - exists s. reflexivity.
  - destruct s as [|y s]; simpl in H; [discriminate|].
    apply andb_true_iff in H as [Hx Hp].
    apply Ascii.eqb_eq in Hx. subst y.
    destruct (IH _ Hp) as [r ->]. exists r. reflexivity.
Qed.

Lemma skipn_app_length (A : Type) (p r : list A) : skipn (length p) (p ++ r) = r.
Proof. induction p; simpl; auto. Qed.

Lemma firstn_app_length (A : Type) (p r : list A) : firstn (length p) (p ++ r) = p.
Proof. induction p; simpl; congruence. Qed.

Lemma replace_first_eq (old new s : text) :
  replace_first old new s =
  if starts_with old s then new ++ skipn (length old) s
  else match s with
       | [] => []
       | c :: s' => c :: replace_first old new s'
       end.
Proof. destruct s; reflexivity. Qed.

Lemma replace_first_here (old new b : text) :
  replace_first old new (old ++ b) = new ++ b.
Proof.
  rewrite replace_first_eq, starts_with_app, skipn_app_length. reflexivity.
Qed.

(** The first occurrence is the one replaced. *)
Lemma replace_first_at (old new a b : text) :
  no_occurrence_within old a (old ++ b) ->
  replace_first old new (a ++ old ++ b) = a ++ new ++ b.
Proof.
  induction a as [|c a IH]; intros Hno.
  - exact (replace_first_here old new b).
  - rewrite replace_first_eq.
    rewrite (Hno [] (c :: a) eq_refl) by discriminate.
    simpl. f_equal. apply IH.
    intros a1 a2 E Hne. apply (Hno (c :: a1) a2); [simpl; congruence|assumption].
Qed.

(** Some occurrence is replaced whenever there is one. *)
Lemma replace_first_occurs (old new a b : text) :
  exists a' b', a ++ old ++ b = a' ++ old ++ b'
                /\ replace_first old new (a ++ old ++ b) = a' ++ new ++ b'.
Proof.
  induction a as [|c a IH].
  - exists [], b. split; [reflexivity|]. exact (replace_first_here old new b).
  - rewrite replace_first_eq.
    destruct (starts_with old ((c :: a) ++ old ++ b)) eqn:E.
    + apply starts_with_inv in E as [r E]. exists [], r. split.
      * exact E.
      * rewrite E, skipn_app_length. reflexivity.
    + destruct IH as (a' & b' & E1 & E2). exists (c :: a'), b'. split.
      * simpl. congruence.
      * simpl. congruence.
Qed.

(** ** The combinators: what a match looks like, and when there is one *)

Lemma re_star_sound (p : ascii -> bool) (k : cont) (s r : text) :
  re_star p k s = Some r ->
  exists x y, s = x ++ y /\ forallb p x = true /\ k y = Some r.
Proof.
  induction s as [|c s IH]; simpl; intros H.
  - exists [], []. auto.
  - destruct (p c) eqn:Hp.
    + destruct (re_star p k s) as [r'|] eqn:E.
      * injection H as ->. destruct (IH eq_refl) as (x & y & -> & Hx & Hy).
        exists (c :: x), y. simpl. rewrite Hp. auto.
      * exists [], (c :: s). auto.
    + exists [], (c :: s). auto.
Qed.

Lemma re_star_here (p : ascii -> bool) (k : cont) (s : text) :
  k s <> None -> re_star p k s <> None.
Proof.
  intros H. destruct s as [|c s]; simpl; [exact H|].
  destruct (p c); [|exact H].
  destruct (re_star p k s); [discriminate|exact H].
Qed.

Lemma re_star_complete (p : ascii -> bool) (k : cont) (x y : text) :
  forallb p x = true -> k y <> None -> re_star p k (x ++ y) <> None.
Proof.
  induction x as [|c x IH]; simpl; intros Hx Hy.
  - apply re_star_here. exact Hy.
  - apply andb_true_iff in Hx as [Hc Hx]. rewrite Hc.
    specialize (IH Hx Hy). destruct (re_star p k (x ++ y)); congruence.
Qed.

Lemma re_star_lazy_eq (p : ascii -> bool) (k : cont) (s : text) :
  re_star_lazy p k s =
  match k s with
  | Some r => Some r
  | None =>
      match s with
      | c :: s' => if p c then re_star_lazy p k s' else None
      | [] => None
      end
  end.
Proof. destruct s; reflexivity. Qed.

Lemma re_star_lazy_sound (p : ascii -> bool) (k : cont) (s r : text) :
  re_star_lazy p k s = Some r ->
  exists x y, s = x ++ y /\ forallb p x = true /\ k y = Some r.
Proof.
  induction s as [|c s IH]; rewrite re_star_lazy_eq; intros H.
  - destruct (k []) eqn:E; [|discriminate]. exists [], [].
    repeat split; congruence.
  - destruct (k (c :: s)) eqn:E.
    + exists [], (c :: s). repeat split; congruence.
    + destruct (p c) eqn:Hp; [|discriminate].
      destruct (IH H) as (x & y & -> & Hx & Hy).
      exists (c :: x), y. simpl. rewrite Hp. auto.
Qed.

Lemma re_star_lazy_complete (p : ascii -> bool) (k : cont) (x y : text) :
  forallb p x = true -> k y <> None -> re_star_lazy p k (x ++ y) <> None.
Proof.
  induction x as [|c x IH]; intros Hx Hy; rewrite re_star_lazy_eq.
  - simpl. destruct (k y); [discriminate|contradiction].
  - simpl in Hx. apply andb_true_iff in Hx as [Hc Hx].
    simpl. destruct (k (c :: x ++ y)); [discriminate|].
    rewrite Hc. apply IH; assumption.
Qed.

Lemma re_backslash_pairs_eq (k : cont) (s : text) :
  re_backslash_pairs k s =
  match s with
  | c1 :: c2 :: s' =>
      if Ascii.eqb c1 c_backslash && Ascii.eqb c2 c_backslash then
        match re_backslash_pairs k s' with
        | Some r => Some r
        | None => k s
        end
      else k s
  | _ => k s
  end.
Proof. destruct s as [|c1 [|c2 s]]; reflexivity. Qed.

Lemma re_backslash_pairs_sound (k : cont) (s r : text) :
  re_backslash_pairs k s = Some r ->
  exists n y, s = backslashes (2 * n) ++ y /\ k y = Some r.
Proof.
  remember (length s) as len eqn:Hlen. revert s r Hlen.
  induction len as [len IH] using lt_wf_ind. intros s r Hlen.
  rewrite re_backslash_pairs_eq.
  destruct s as [|c1 [|c2 s']]; intros H.
  - exists 0, []. auto.
  - exists 0, [c1]. auto.
  - destruct (Ascii.eqb c1 c_backslash && Ascii.eqb c2 c_backslash) eqn:E.
    + destruct (re_backslash_pairs k s') as [r'|] eqn:E'.
      * injection H as ->.
        apply andb_true_iff in E as [E1 E2].
        apply Ascii.eqb_eq in E1, E2. subst c1 c2.
        destruct (IH (length s')) with (s := s') (r := r)
          as (n & y & -> & Hy); [simpl in Hlen; lia|reflexivity|exact E'|].
        exists (S n), y. split; [|exact Hy].
        replace (2 * S n) with (S (S (2 * n))) by lia. reflexivity.
      * exists 0, (c1 :: c2 :: s'). auto.
    + exists 0, (c1 :: c2 :: s'). auto.
Qed.

Lemma re_backslash_pairs_here (k : cont) (s : text) :
  k s <> None -> re_backslash_pairs k s <> None.
Proof.
  intros H. rewrite re_backslash_pairs_eq.
  destruct s as [|c1 [|c2 s']]; try exact H.
  destruct (Ascii.eqb c1 c_backslash && Ascii.eqb c2 c_backslash); [|exact H].
  destruct (re_backslash_pairs k s'); [discriminate|exact H].
Qed.

Lemma re_backslash_pairs_complete (k : cont) (n : nat) (y : text) :
  k y <> None -> re_backslash_pairs k (backslashes (2 * n) ++ y) <> None.
Proof.
  intros Hy. induction n as [|n IH].
  - apply re_backslash_pairs_here. exact Hy.
  - replace (2 * S n) with (S (S (2 * n))) by lia.
    change (backslashes (S (S (2 * n))) ++ y)
      with (c_backslash :: c_backslash :: backslashes (2 * n) ++ y).
    rewrite re_backslash_pairs_eq, Ascii.eqb_refl.
    destruct (re_backslash_pairs k (backslashes (2 * n) ++ y)) eqn:E;
      [discriminate|contradiction].
Qed.

(** ** The metatag pattern *)

(** A match of the pattern is a metatag literal. *)
Lemma meta_tag_re_sound (s r : text) :
  meta_tag_re s = Some r -> exists m, s = m ++ r /\ meta_literal m.
Proof.
  unfold meta_tag_re, re_plus, re_char at 1. intros H.
  destruct s as [|c s]; [discriminate|].
  destruct (is_word c) eqn:Hc; [|discriminate].
  apply re_star_sound in H as (w & s1 & -> & Hw & H).
  apply re_star_sound in H as (sp1 & s2 & -> & Hsp1 & H).
  unfold re_char at 1 in H.
  destruct s2 as [|col s2]; [discriminate|].
  destruct (Ascii.eqb c_colon col) eqn:Hcol; [|discriminate].
  apply Ascii.eqb_eq in Hcol. subst col.
  apply re_star_sound in H as (sp2 & s3 & -> & Hsp2 & H).
  destruct s3 as [|d s3]; [discriminate|].
  destruct (is_delim d) eqn:Hd; [|discriminate].
  unfold re_alt in H.
  assert (Hclose : forall y q, re_char (Ascii.eqb d) re_end y = Some q -> y = d :: q).
  { intros y q Hy. unfold re_char, re_end in Hy.
    destruct y as [|e y]; [discriminate|].
    destruct (Ascii.eqb d e) eqn:He; [|discriminate].
    apply Ascii.eqb_eq in He. congruence. }
  destruct (re_backslash_pairs (re_char (Ascii.eqb d) re_end) s3) as [r1|] eqn:E1.
  - injection H as ->.
    apply re_backslash_pairs_sound in E1 as (k & y & -> & Hy).
    apply Hclose in Hy. subst y.
    exists (c :: w ++ sp1 ++ c_colon :: sp2 ++ d :: backslashes (2 * k) ++ [d]).
    split.
    + simpl. repeat (rewrite <- app_assoc; simpl). reflexivity.
    + apply ML; auto. apply LV_pairs.
  - apply re_star_lazy_sound in H as (x & y & -> & Hx & H).
    unfold re_char at 1 in H.
    destruct y as [|e y]; [discriminate|].
    destruct (is_not_backslash e) eqn:He; [|discriminate].
    apply re_backslash_pairs_sound in H as (k & z & -> & Hz).
    apply Hclose in Hz. subst z.
    exists (c :: w ++ sp1 ++ c_colon :: sp2 ++ d :: (x ++ e :: backslashes (2 * k)) ++ [d]).
    split.
    + simpl. repeat (rewrite <- app_assoc; simpl). reflexivity.
    + apply ML; auto. apply LV_lazy; auto.
Qed.

(** Wherever a metatag literal stands, the pattern matches. *)
Lemma meta_tag_re_complete (m t : text) :
  meta_literal m -> meta_tag_re (m ++ t) <> None.
Proof.
  intros [c w sp1 sp2 d v Hc Hw Hsp1 Hsp2 Hd Hv].
  unfold meta_tag_re, re_plus, re_char at 1. simpl. rewrite Hc.
  repeat (rewrite <- app_assoc; simpl).
  apply re_star_complete; [exact Hw|].
  apply re_star_complete; [exact Hsp1|].
  unfold re_char at 1. rewrite Ascii.eqb_refl.
  apply re_star_complete; [exact Hsp2|].
  rewrite Hd. unfold re_alt.
  assert (Hclose : re_char (Ascii.eqb d) re_end (d :: t) <> None).
  { unfold re_char, re_end. rewrite Ascii.eqb_refl. discriminate. }
  destruct (re_backslash_pairs (re_char (Ascii.eqb d) re_end) (v ++ d :: t)) eqn:E;
    [discriminate|].
  destruct Hv as [k|x e k Hx He].
  - exfalso. revert E. apply re_backslash_pairs_complete. exact Hclose.
  - repeat (rewrite <- app_assoc; simpl).
    apply re_star_lazy_complete; [exact Hx|].
    unfold re_char at 1. rewrite He.
    apply re_backslash_pairs_complete. exact Hclose.
Qed.

Lemma meta_literal_colon (m : text) : meta_literal m -> In c_colon m.
Proof.
  intros [c w sp1 sp2 d v _ _ _ _ _ _].
  right. apply in_or_app. right. apply in_or_app. right. left. reflexivity.
Qed.

(** ** [re.search] *)

Lemma length_app_sub (A : Type) (m r : list A) :
  length (m ++ r) - length r = length m.
Proof. rewrite length_app. lia. Qed.

Arguments meta_tag_re : simpl never.

Lemma re_search_eq (s : text) :
  re_search s =
  match meta_tag_re s with
  | Some r => Some ([], firstn (length s - length r) s, r)
  | None =>
      match s with
      | [] => None
      | c :: s' =>
          match re_search s' with
          | Some (a, m, b) => Some (c :: a, m, b)
          | None => None
          end
      end
  end.
Proof. destruct s; reflexivity. Qed.

Lemma meta_tag_re_nil : meta_tag_re [] = None.
Proof. reflexivity. Qed.

Lemma re_search_sound (s a m b : text) :
  re_search s = Some (a, m, b) ->
  s = a ++ m ++ b /\ meta_literal m /\ meta_tag_re (m ++ b) = Some b
  /\ no_match_within a (m ++ b).
Proof.
  revert a. induction s as [|c s IH]; intros a H; rewrite re_search_eq in H.
  - rewrite meta_tag_re_nil in H. discriminate.
  - destruct (meta_tag_re (c :: s)) as [r|] eqn:E.
    + destruct (meta_tag_re_sound _ _ E) as (m' & Hs & Hm).
      rewrite Hs, length_app_sub, firstn_app_length in H.
      injection H as <- <- <-.
      repeat split; auto.
      * rewrite <- Hs. exact E.
      * intros a1 a2 Ha Hne. destruct a1; destruct a2; try discriminate.
        contradiction.
    + destruct (re_search s) as [[[a' m'] b']|] eqn:E'; [|discriminate].
      injection H as <- <- <-.
      destruct (IH _ eq_refl) as (Hs & Hm & Hb & Hno).
      repeat split; auto.
      * simpl. congruence.
      * intros a1 a2 Ha Hne. destruct a1 as [|x a1].
        -- simpl in Ha. subst a2. simpl. rewrite <- Hs. exact E.
        -- simpl in Ha. injection Ha as -> ->. apply (Hno a1 a2); auto.
Qed.

Lemma re_search_none (s : text) :
  re_search s = None -> forall a1 a2, s = a1 ++ a2 -> meta_tag_re a2 = None.
Proof.
  induction s as [|c s IH]; intros H a1 a2 E; rewrite re_search_eq in H.
  - destruct a1; destruct a2; try discriminate. reflexivity.
  - destruct (meta_tag_re (c :: s)) eqn:E1; [discriminate|].
    destruct (re_search s) as [[[? ?] ?]|] eqn:E2; [discriminate|].
    destruct a1 as [|x a1].
    + simpl in E. subst a2. exact E1.
    + simpl in E. injection E as -> ->. apply (IH eq_refl a1 a2 eq_refl).
Qed.

(** Positions without a match are passed over. *)
Lemma re_search_skip (a rest : text) :
  no_match_within a rest ->
  re_search (a ++ rest) =
  match re_search rest with
  | Some (x, m, b) => Some (a ++ x, m, b)
  | None => None
  end.
Proof.
  induction a as [|c a IH]; intros Hno.
  - simpl. destruct (re_search rest) as [[[? ?] ?]|]; reflexivity.
  - rewrite re_search_eq.
    rewrite (Hno [] (c :: a) eq_refl) by discriminate.
    simpl. rewrite IH.
    + destruct (re_search rest) as [[[? ?] ?]|]; reflexivity.
    + intros a1 a2 E Hne. apply (Hno (c :: a1) a2); [simpl; congruence|exact Hne].
Qed.

(** The text of the leftmost match occurs nowhere before that match. *)
Lemma match_is_first_occurrence (a m b : text) :
  meta_literal m -> no_match_within a (m ++ b) ->
  no_occurrence_within m a (m ++ b).
Proof.
  intros Hm Hno a1 a2 E Hne.
  destruct (starts_with m (a2 ++ m ++ b)) eqn:Hs; [|reflexivity].
  apply starts_with_inv in Hs as [t Ht].
  specialize (Hno a1 a2 E Hne). rewrite Ht in Hno.
  exfalso. revert Hno. apply meta_tag_re_complete. exact Hm.
Qed.

(** ** Placeholders *)

Lemma string_of_uint_digits (u : uint) :
  forallb is_digit (list_ascii_of_string (NilEmpty.string_of_uint u)) = true.
Proof. induction u; simpl; auto. Qed.

Lemma str_of_nat_digits (n : nat) : forallb is_digit (str_of_nat n) = true.
Proof.
  unfold str_of_nat, NilZero.string_of_uint.
  destruct (Nat.to_uint n) eqn:E; try reflexivity;
    rewrite <- E; apply string_of_uint_digits.
Qed.

Lemma str_of_nat_not_nil (n : nat) : str_of_nat n <> [].
Proof.
  unfold str_of_nat, NilZero.string_of_uint.
  destruct (Nat.to_uint n); simpl; discriminate.
Qed.

Lemma digit_not_colon (c : ascii) : is_digit c = true -> c <> c_colon.
Proof. intros H ->. discriminate. Qed.

Lemma count_colons_app (a b : text) :
  count_colons (a ++ b) = count_colons a + count_colons b.
Proof. apply count_occ_app. Qed.

Lemma count_colons_digits (ds : text) :
  forallb is_digit ds = true -> count_colons ds = 0.
Proof.
  induction ds as [|d ds IH]; simpl; intros H; [reflexivity|].
  apply andb_true_iff in H as [Hd Hds].
  unfold count_colons in *. simpl.
  destruct (ascii_dec d c_colon) as [E|_].
  - exfalso. revert E. apply digit_not_colon. exact Hd.
  - apply IH. exact Hds.
Qed.

Lemma count_colons_placeholder (index : nat) : count_colons (placeholder index) = 0.
Proof.
  unfold placeholder. rewrite !count_colons_app.
  rewrite (count_colons_digits _ (str_of_nat_digits index)). reflexivity.
Qed.

Lemma count_colons_meta_literal (m : text) : meta_literal m -> 1 <= count_colons m.
Proof.
  intros H. apply meta_literal_colon in H.
  apply (count_occ_In ascii_dec) in H. exact H.
Qed.

(** ** The first loop of [_preprocess] *)

Lemma protect_loop_eq (fuel : nat) (query : text) (index : nat)
    (values : meta_tag_values) :
  protect_loop fuel query index values =
  match re_search query with
  | None => Some (query, index, values)
  | Some (_, m, _) =>
      match fuel with
      | 0 => None
      | S fuel' =>
          protect_loop fuel' (replace_first m (placeholder (index + 1)) query)
                       (index + 1) (values ++ [(index + 1, m)])
      end
  end.
Proof. destruct fuel; reflexivity. Qed.

(** What one iteration replaces is the match itself. *)
Lemma replace_match_in_place (before m after new : text) :
  re_search (before ++ m ++ after) = Some (before, m, after) ->
  replace_first m new (before ++ m ++ after) = before ++ new ++ after.
Proof.
  intros H. apply re_search_sound in H as (_ & Hm & _ & Hno).
  apply replace_first_at. apply match_is_first_occurrence; assumption.
Qed.

Lemma protect_loop_step (fuel : nat) (query : text) (index : nat)
    (values : meta_tag_values) (before m after : text) :
  re_search query = Some (before, m, after) ->
  protect_loop (S fuel) query index values =
  protect_loop fuel (before ++ placeholder (index + 1) ++ after) (index + 1)
               (values ++ [(index + 1, m)]).
Proof.
  intros H. rewrite protect_loop_eq, H.
  destruct (re_search_sound _ _ _ _ H) as (E & _).
  subst query. rewrite (replace_match_in_place before m after _ H). reflexivity.
Qed.

(** The code's loop and the specification's protector are one function. *)
Lemma protect_loop_is_protector_spec (fuel : nat) (query : text) (index : nat)
    (values : meta_tag_values) :
  protect_loop fuel query index values = protector_spec fuel query index values.
Proof.
  revert query index values.
  induction fuel as [|fuel IH]; intros query index values.
  - rewrite protect_loop_eq. simpl.
    destruct (re_search query) as [[[? ?] ?]|]; reflexivity.
  - destruct (re_search query) as [[[before m] after]|] eqn:E.
    + rewrite (protect_loop_step fuel _ index values _ _ _ E). simpl. rewrite E.
      rewrite Nat.add_1_r. apply IH.
    + rewrite protect_loop_eq. simpl. rewrite E. reflexivity.
Qed.

(** The indices stored are consecutive. *)
Lemma protect_loop_indices (fuel : nat) (query : text) (index : nat)
    (values : meta_tag_values) (work : text) (n : nat) (vs : meta_tag_values) :
  protect_loop fuel query index values = Some (work, n, vs) ->
  index <= n /\ map fst vs = map fst values ++ seq (index + 1) (n - index).
Proof.
  revert query index values.
  induction fuel as [|fuel IH]; intros query index values H;
    rewrite protect_loop_eq in H;
    destruct (re_search query) as [[[before m] after]|] eqn:E;
    try discriminate.
  - injection H as <- <- <-. rewrite Nat.sub_diag, app_nil_r. auto.
  - apply IH in H as [Hle Hm]. split; [lia|].
    rewrite Hm, map_app, <- app_assoc. simpl. f_equal.
    replace (n - index) with (S (n - (index + 1))) by lia.
    simpl. f_equal. f_equal. lia.
  - injection H as <- <- <-. rewrite Nat.sub_diag, app_nil_r. auto.
Qed.

(** Each iteration takes at least one colon out of the query. *)
Lemma protect_step_colons (before m after : text) (index : nat) :
  meta_literal m ->
  count_colons (before ++ placeholder index ++ after)
  < count_colons (before ++ m ++ after).
Proof.
  intros Hm. rewrite !count_colons_app, count_colons_placeholder.
  apply count_colons_meta_literal in Hm. lia.
Qed.

Lemma protect_loop_terminates (fuel : nat) (query : text) (index : nat)
    (values : meta_tag_values) :
  count_colons query <= fuel ->
  exists work n added,
    protect_loop fuel query index values = Some (work, index + n, values ++ added)
    /\ length added = n /\ n <= count_colons query.
Proof.
  revert query index values.
  induction fuel as [|fuel IH]; intros query index values Hfuel.
  - rewrite protect_loop_eq.
    destruct (re_search query) as [[[before m] after]|] eqn:E.
    + exfalso. apply re_search_sound in E as (-> & Hm & _).
      apply count_colons_meta_literal in Hm.
      rewrite !count_colons_app in Hfuel. lia.
    + exists query, 0, []. rewrite Nat.add_0_r, app_nil_r. auto with arith.
  - destruct (re_search query) as [[[before m] after]|] eqn:E.
    + rewrite (protect_loop_step fuel _ index values _ _ _ E).
      destruct (re_search_sound _ _ _ _ E) as (-> & Hm & _).
      pose proof (protect_step_colons before m after (index + 1) Hm) as Hlt.
      destruct (IH (before ++ placeholder (index + 1) ++ after) (index + 1)
                   (values ++ [(index + 1, m)]))
        as (work & n & added & Hrun & Hlen & Hn); [lia|].
      exists work, (S n), ((index + 1, m) :: added).
      rewrite Hrun. repeat split.
      * f_equal. f_equal; [f_equal; lia|]. rewrite <- app_assoc. reflexivity.
      * simpl. congruence.
      * lia.
    + rewrite protect_loop_eq, E.
      exists query, 0, []. rewrite Nat.add_0_r, app_nil_r. auto with arith.
Qed.

(** [protect] is the loop run to its end. *)
Lemma protect_is_loop (query : text) :
  protect_loop (count_colons query) query 0 [] = Some (protect query).
Proof.
  unfold protect.
  destruct (protect_loop_terminates (count_colons query) query 0 [] (le_n _))
    as (work & n & added & H & _).
  rewrite H. reflexivity.
Qed.

(** More fuel does not change the result. *)
Lemma protect_loop_more_fuel (fuel fuel' : nat) (query : text) (index : nat)
    (values : meta_tag_values) (r : text * nat * meta_tag_values) :
  protect_loop fuel query index values = Some r -> fuel <= fuel' ->
  protect_loop fuel' query index values = Some r.
Proof.
  revert fuel' query index values.
  induction fuel as [|fuel IH]; intros fuel' query index values H Hle.
  - rewrite protect_loop_eq in H. rewrite protect_loop_eq.
    destruct (re_search query) as [[[? ?] ?]|]; [discriminate|exact H].
  - destruct fuel' as [|fuel']; [lia|].
    rewrite protect_loop_eq in H. rewrite protect_loop_eq.
    destruct (re_search query) as [[[? ?] ?]|]; [|exact H].
    apply IH; [exact H|lia].
Qed.

(** C9. The literal-protection loop terminates: with one unit of fuel per
    colon of the query it runs to its end, and the number of its
    iterations, which is the final index and the number of entries
    stored, is at most the number of colons of the input. *)
Theorem protection_terminates (query : text) (fuel : nat) :
  count_colons query <= fuel ->
  exists work n values,
    protect_loop fuel query 0 [] = Some (work, n, values)
    /\ protect query = (work, n, values)
    /\ length values = n
    /\ n <= count_colons query.
Proof.
  intros Hfuel.
  destruct (protect_loop_terminates fuel query 0 [] Hfuel)
    as (work & n & added & H & Hlen & Hn).
  exists work, n, added. simpl in H. repeat split; auto.
  pose proof (protect_is_loop query) as Hp.
  pose proof (protect_loop_more_fuel _ fuel _ _ _ _ Hp Hfuel) as Hq.
  rewrite H in Hq. injection Hq as Hq. symmetry. exact Hq.
Qed.

Lemma protection_terminates_witness :
  exists work n values,
    protect_loop 2 (str "k:/v/ k2:/w/") 0 [] = Some (work, n, values)
    /\ protect (str "k:/v/ k2:/w/") = (work, n, values)
    /\ length values = n
    /\ n <= count_colons (str "k:/v/ k2:/w/").
Proof. apply (protection_terminates (str "k:/v/ k2:/w/") 2). vm_compute. lia. Defined.

(** One iteration of the Literal Protector, for the match [m] that
    [re.search] finds between [before] and [after]: the match is the
    leftmost one (the pattern matches at no position of [before]) and [m]
    is its full text; the text [m] occurs nowhere before the match, so the
    single replacement of the code falls on the match itself; the
    iteration stores [m] under the next index and goes on with the
    placeholder of that index standing where the match stood. The indices
    of a whole run are 1, 2, ..., n in the order of storing. *)
Lemma protector_iteration (fuel : nat) (query : text) (index : nat)
    (values : meta_tag_values) (before m after : text) :
  re_search query = Some (before, m, after) ->
  (query = before ++ m ++ after
   /\ meta_literal m
   /\ meta_tag_re (m ++ after) = Some after
   /\ no_match_within before (m ++ after))
  /\ no_occurrence_within m before (m ++ after)
  /\ replace_first m (placeholder (index + 1)) query
     = before ++ placeholder (index + 1) ++ after
  /\ protect_loop (S fuel) query index values
     = protect_loop fuel (before ++ placeholder (index + 1) ++ after)
                    (index + 1) (values ++ [(index + 1, m)])
  /\ (forall work n vs, protect query = (work, n, vs) ->
        map fst vs = seq 1 n /\ length vs = n).
Proof.
  intros H. pose proof (re_search_sound _ _ _ _ H) as Hs.
  destruct Hs as (E & Hm & Hb & Hno). repeat split; auto.
  - apply match_is_first_occurrence; assumption.
  - subst query. apply replace_match_in_place. exact H.
  - apply protect_loop_step. exact H.
  - pose proof (protect_is_loop query) as Hp. rewrite H0 in Hp.
    apply protect_loop_indices in Hp as [_ Hp]. rewrite Hp.
    rewrite Nat.sub_0_r. reflexivity.
  - pose proof (protect_is_loop query) as Hp. rewrite H0 in Hp.
    apply protect_loop_indices in Hp as [_ Hp].
    apply (f_equal (@length nat)) in Hp.
    rewrite length_map in Hp. simpl in Hp. rewrite length_seq in Hp. lia.
Qed.

Lemma protector_iteration_example :
  re_search (str "k:/v/ x") = Some ([], str "k:/v/", str " x")
  /\ replace_first (str "k:/v/") (placeholder 1) (str "k:/v/ x") = str "%%1%% x"
  /\ protect_loop 1 (str "k:/v/ x") 0 []
     = protect_loop 0 (str "%%1%% x") 1 [(1, str "k:/v/")].
Proof.
  assert (H : re_search (str "k:/v/ x") = Some ([], str "k:/v/", str " x"))
    by (vm_compute; reflexivity).
  split; [exact H|].
  destruct (protector_iteration 0 (str "k:/v/ x") 0 [] [] (str "k:/v/") (str " x") H)
    as (_ & _ & Hr & Hl & _).
  split; [exact Hr|exact Hl].
Defined.

(** ** The second loop of [_preprocess] *)

Lemma expand_loop_eq (fuel : nat) (tags : list CompoundTag)
    (query previous : text) (depth : nat) :
  expand_loop fuel tags query previous depth =
  if text_eqb query previous then Some (Expanded query)
  else
    match fuel with
    | 0 => None
    | S fuel' =>
        match expand_pass tags query with
        | None => Some TemplateError
        | Some query' =>
            if _MAXIMUM_DEPTH <=? depth + 1 then Some (MaxRecursion query')
            else expand_loop fuel' tags query' query (depth + 1)
        end
    end.
Proof. destruct fuel; reflexivity. Qed.

Lemma passes_S_left (tags : list CompoundTag) (n : nat) (x : text) :
  passes tags (S n) x =
  match expand_pass tags x with
  | Some y => passes tags n y
  | None => None
  end.
Proof.
  induction n as [|n IH].
  - simpl. destruct (expand_pass tags x); reflexivity.
  - change (passes tags (S (S n)) x)
      with (match passes tags (S n) x with
            | Some q => expand_pass tags q
            | None => None
            end).
    rewrite IH. destruct (expand_pass tags x); reflexivity.
Qed.

Lemma pass_is_fixed_0 (tags : list CompoundTag) (x : text) :
  pass_is_fixed tags 0 x <-> expand_pass tags x = Some x.
Proof.
  unfold pass_is_fixed. simpl. split.
  - intros (q & E1 & E2). injection E1 as <-. exact E2.
  - intros E. exists x. auto.
Qed.

Lemma pass_is_fixed_S (tags : list CompoundTag) (n : nat) (x y : text) :
  expand_pass tags x = Some y ->
  (pass_is_fixed tags (S n) x <-> pass_is_fixed tags n y).
Proof.
  intros E. unfold pass_is_fixed.
  rewrite (passes_S_left tags (S n) x), (passes_S_left tags n x), E. reflexivity.
Qed.

(** The loop, entered at depth [d] with [n] passes left before the guard
    fires, ends in the error exactly when it makes all [n] passes: the
    loop condition holds at the entry and none of the first [n - 1]
    passes produces no change. *)
Lemma expand_loop_max_recursion (tags : list CompoundTag) (n : nat) :
  forall fuel d x p r,
    d + S n = _MAXIMUM_DEPTH -> S n <= fuel ->
    (expand_loop fuel tags x p d = Some (MaxRecursion r)
     <-> x <> p /\ passes tags (S n) x = Some r
         /\ forall k, k < n -> ~ pass_is_fixed tags k x).
Proof.
  induction n as [|n IH]; intros fuel d x p r Hd Hfuel;
    rewrite expand_loop_eq; destruct fuel as [|fuel]; try lia.
  - destruct (text_eqb x p) eqn:Exp.
    + apply text_eqb_eq in Exp. split; [discriminate|]. intros (Hne & _). contradiction.
    + apply text_eqb_neq in Exp. rewrite passes_S_left.
      destruct (expand_pass tags x) as [y|]; cbn [passes].
      * destruct (Nat.leb_spec _MAXIMUM_DEPTH (d + 1)) as [Hmax|Hmax]; [|lia].
        split.
        -- intros H. injection H as <-. repeat split; auto. intros k Hk. lia.
        -- intros (_ & H & _). congruence.
      * split; [discriminate|]. intros (_ & H & _). discriminate.
  - destruct (text_eqb x p) eqn:Exp.
    + apply text_eqb_eq in Exp. split; [discriminate|]. intros (Hne & _). contradiction.
    + apply text_eqb_neq in Exp. rewrite passes_S_left.
      destruct (expand_pass tags x) as [y|] eqn:Ey.
      * destruct (Nat.leb_spec _MAXIMUM_DEPTH (d + 1)) as [Hmax|Hmax]; [lia|].
        rewrite (IH fuel (d + 1) y x r) by lia.
        split.
        -- intros (Hyx & Hr & Hk). repeat split; auto.
           intros [|k] Hlt.
           ++ rewrite pass_is_fixed_0. congruence.
           ++ rewrite (pass_is_fixed_S tags k x y Ey). apply Hk. lia.
        -- intros (_ & Hr & Hk). repeat split; auto.
           ++ intros ->. apply (Hk 0); [lia|]. apply pass_is_fixed_0. exact Ey.
           ++ intros k Hlt. rewrite <- (pass_is_fixed_S tags k x y Ey).
              apply Hk. lia.
      * split; [discriminate|]. intros (_ & H & _). discriminate.
Qed.

(** A pass that produces no change before the guard fires ends the loop
    without error. *)
Lemma expand_loop_fixed (tags : list CompoundTag) (n : nat) :
  forall fuel d x p k,
    d + S n = _MAXIMUM_DEPTH -> S n <= fuel ->
    k < n -> pass_is_fixed tags k x ->
    exists r, expand_loop fuel tags x p d = Some (Expanded r).
Proof.
  induction n as [|n IH]; intros fuel d x p k Hd Hfuel Hk Hfix; [lia|].
  rewrite expand_loop_eq. destruct fuel as [|fuel]; [lia|].
  destruct (text_eqb x p); [eauto|].
  destruct (expand_pass tags x) as [y|] eqn:Ey.
  - destruct (Nat.leb_spec _MAXIMUM_DEPTH (d + 1)) as [Hmax|Hmax]; [lia|].
    destruct k as [|k].
    + apply pass_is_fixed_0 in Hfix. assert (y = x) by congruence. subst y.
      rewrite expand_loop_eq, text_eqb_refl. eauto.
    + apply (pass_is_fixed_S tags k x y Ey) in Hfix.
      apply (IH fuel (d + 1) y x k); auto; lia.
  - exfalso. destruct Hfix as (q & E1 & E2).
    destruct k as [|k].
    + simpl in E1, E2. injection E1 as <-. congruence.
    + rewrite passes_S_left, Ey in E1. discriminate.
Qed.

(** The loop ends after [_MAXIMUM_DEPTH] passes at the latest. *)
Lemma expand_loop_terminates (tags : list CompoundTag) (n : nat) :
  forall fuel d x p,
    d + S n = _MAXIMUM_DEPTH -> S n <= fuel ->
    expand_loop fuel tags x p d <> None.
Proof.
  induction n as [|n IH]; intros fuel d x p Hd Hfuel; rewrite expand_loop_eq;
    (destruct (text_eqb x p); [discriminate|]);
    (destruct fuel as [|fuel]; [lia|]);
    (destruct (expand_pass tags x); [|discriminate]);
    destruct (Nat.leb_spec _MAXIMUM_DEPTH (d + 1)) as [Hmax|Hmax];
    try discriminate; try lia.
  apply IH; lia.
Qed.

Lemma expand_is_loop (tags : list CompoundTag) (query : text) :
  expand_loop _MAXIMUM_DEPTH tags query [] 0 = Some (expand tags query).
Proof.
  unfold expand.
  destruct (expand_loop _MAXIMUM_DEPTH tags query [] 0) eqn:E; [reflexivity|].
  exfalso. revert E. apply (expand_loop_terminates tags 19); auto.
Qed.

(** C1, as amended. The Macro Expander ends in the max-recursion error
    exactly when it makes all 20 passes, that is when the protected query
    is not empty and none of the first 19 passes produces no change; the
    text it leaves is the result of the 20 passes. Whenever one of the
    first 19 passes produces no change, expansion completes with no
    error. The 20th pass is not looked at: the guard fires after it
    whether it changed the text or not. *)
Theorem max_recursion_iff (tags : list CompoundTag) (query : text) :
  (forall r,
     expand tags query = MaxRecursion r
     <-> query <> []
         /\ passes tags _MAXIMUM_DEPTH query = Some r
         /\ forall k, k < _MAXIMUM_DEPTH - 1 -> ~ pass_is_fixed tags k query)
  /\ ((exists k, k < _MAXIMUM_DEPTH - 1 /\ pass_is_fixed tags k query) ->
      exists r, expand tags query = Expanded r).
Proof.
  pose proof (expand_is_loop tags query) as Hloop. split.
  - intros r.
    pose proof (expand_loop_max_recursion tags 19 _MAXIMUM_DEPTH 0 query [] r
                  eq_refl (le_n _)) as H.
    rewrite Hloop in H. change (_MAXIMUM_DEPTH - 1) with 19.
    change (passes tags _MAXIMUM_DEPTH query) with (passes tags 20 query).
    rewrite <- H. split; congruence.
  - intros (k & Hk & Hfix).
    destruct (expand_loop_fixed tags 19 _MAXIMUM_DEPTH 0 query [] k
                eq_refl (le_n _) Hk Hfix) as (r & Hr).
    exists r. congruence.
Qed.

Lemma max_recursion_iff_witness :
  exists r, expand [compound_tag "pet" "cat OR dog"] (str "pet") = Expanded r.
Proof.
  apply (proj2 (max_recursion_iff [compound_tag "pet" "cat OR dog"] (str "pet"))).
  exists 1. split; [vm_compute; lia|].
  exists (str "(cat OR dog)"). split; vm_compute; reflexivity.
Defined.

(** C1, the claim as stated, fails on a chain of nineteen compound tags:
    the query [a] takes nineteen passes to expand, the twentieth pass
    produces no change, and the error is reported all the same. *)
Lemma max_recursion_at_fixed_point :
  (exists r, expand chain_of_19 (str "a") = MaxRecursion r)
  /\ pass_is_fixed chain_of_19 19 (str "a")
  /\ ~ max_recursion_as_specified chain_of_19 (str "a").
Proof.
  assert (Herr : exists r, expand chain_of_19 (str "a") = MaxRecursion r).
  { eexists. vm_compute. reflexivity. }
  assert (Hfix : pass_is_fixed chain_of_19 19 (str "a")).
  { eexists. split; vm_compute; reflexivity. }
  repeat split; auto.
  intros Hclaim. apply Hclaim in Herr as [_ Hno].
  apply (Hno 19); [vm_compute; lia|exact Hfix].
Qed.

(** ** The search thread *)

(** C6. A search for tagless images calls neither [_preprocess] nor the
    query compiler nor the tags DAO: [run] opens the image DAO, asks it
    for the tagless images and closes it, whatever the query text is; the
    images fetched are the answer of [get_tagless_images], and the query
    text is left as it was. *)
Theorem tagless_search_bypasses_compiler (Expr Image : Type)
    (env : collaborators Expr Image) (self : SearchThread Image) :
  _tagless_images self = true ->
  no_error (_error self) = true ->
  exists self',
    run env self
    = (Returned self', [Call_ImageDao; Call_get_tagless_images; Call_close])
    /\ fetched_images self' = get_tagless_images env
    /\ _query self' = _query self
    /\ (forall images, get_tagless_images env = Some images ->
          _error self' = _error self).
Proof.
  intros Htagless Hok. unfold run. rewrite Htagless. simpl. rewrite Hok.
  destruct (get_tagless_images env) as [images|] eqn:E.
  - eexists. split; [reflexivity|]. simpl. repeat split; auto.
  - eexists. split; [reflexivity|]. simpl. repeat split; auto.
    intros images H. discriminate.
Qed.

Lemma tagless_search_bypasses_compiler_witness :
  exists self',
    run refusing_env (new_thread nat (str "cat AND") true)
    = (Returned self', [Call_ImageDao; Call_get_tagless_images; Call_close])
    /\ fetched_images self' = Some [7]
    /\ _query self' = str "cat AND"
    /\ (forall images, Some [7] = Some images -> _error self' = None).
Proof.
  apply (tagless_search_bypasses_compiler unit nat refusing_env
           (new_thread nat (str "cat AND") true)); reflexivity.
Defined.

Lemma preprocess_calls (Expr Image : Type) (env : collaborators Expr Image)
    (self : SearchThread Image) :
  snd (_preprocess env self) = [Call_get_all_tags].
Proof.
  unfold _preprocess.
  destruct (protect (_query self)) as [[q1 n] values].
  destruct (expand (get_all_tags env) q1); reflexivity.
Qed.

Ltac in_calls H :=
  simpl in H;
  repeat (destruct H as [H|H]; [try discriminate; injection H; auto|]);
  try contradiction.

(** The calls of [run] to the compiler all ask for simplification. *)
Lemma run_compiles_with_simplify (Expr Image : Type)
    (env : collaborators Expr Image) (self : SearchThread Image)
    (q : text) (simplify : bool) :
  In (Call_query_to_sympy q simplify) (snd (run env self)) -> simplify = true.
Proof.
  unfold run. destruct (_tagless_images self); simpl.
  - destruct (no_error (_error self)); simpl; intros H; in_calls H.
  - pose proof (preprocess_calls Expr Image env self) as Hcalls.
    destruct (_preprocess env self) as [pre cs]. simpl in Hcalls. subst cs.
    destruct pre as [self1|]; simpl.
    + destruct (no_error (_error self1)); simpl.
      * destruct (query_to_sympy env (_query self1) true); simpl;
          intros H; in_calls H.
      * intros H; in_calls H.
    + intros H; in_calls H.
Qed.

(** A search by tags whose preprocessing returns without an error calls
    the compiler, on the preprocessed query and with [simplify=True],
    right after the preprocessing; what the compiler answers decides the
    rest of the run. *)
Lemma run_calls_compiler (Expr Image : Type)
    (env : collaborators Expr Image) (self self1 : SearchThread Image) :
  _tagless_images self = false ->
  fst (_preprocess env self) = Returned self1 ->
  no_error (_error self1) = true ->
  (exists rest,
     snd (run env self)
     = Call_ImageDao :: Call_preprocess :: Call_get_all_tags
       :: Call_query_to_sympy (_query self1) true :: rest)
  /\ (forall message,
        query_to_sympy env (_query self1) true = ValueError message ->
        fst (run env self) = Returned (set_error self1 message))
  /\ (forall expr,
        query_to_sympy env (_query self1) true = Compiled expr ->
        exists self2,
          fst (run env self) = Returned self2
          /\ fetched_images self2 = get_images env expr).
Proof.
  intros Ht Hp Hn. unfold run. rewrite Ht. cbn [negb].
  pose proof (preprocess_calls Expr Image env self) as Hcalls.
  destruct (_preprocess env self) as [pre cs]. cbn [fst snd] in Hp, Hcalls.
  subst pre cs. rewrite Hn.
  destruct (query_to_sympy env (_query self1) true) as [expr|message].
  - split; [eexists; reflexivity|]. split; [discriminate|].
    intros expr' E. injection E as <-. cbn [fst].
    destruct (get_images env expr); eexists; split; reflexivity.
  - split; [eexists; reflexivity|]. split; [|discriminate].
    intros message' E. injection E as <-. reflexivity.
Qed.

(** C7. The format check of the definition column (column 2) of the
    compound-tags tab calls the compiler on the cell text with
    [simplify=False], once, and accepts the cell exactly when that call
    raises no [ValueError]; a [ValueError] makes the check answer [False]
    with its message. The search thread, for its part, calls the compiler
    with [simplify=True]: a search by tags whose preprocessing returns
    without an error makes this call, on the preprocessed query, and its
    answer is the error of the search or the expression the images are
    fetched with; and no call of the search thread to the compiler asks
    for anything else than [simplify=True]. *)
Theorem definition_is_parsed_not_simplified (Expr Image : Type)
    (tab : tags_tab Expr) (row : nat)
    (env : collaborators Expr Image) (self : SearchThread Image) :
  let cell := item_text tab row 2 in
  snd (CompoundTagsTab_check_cell_format tab row 2)
  = [Call_query_to_sympy cell false]
  /\ (fst (CompoundTagsTab_check_cell_format tab row 2) = Checked true []
      <-> exists expr, tab_query_to_sympy tab cell false = Compiled expr)
  /\ (forall message,
        tab_query_to_sympy tab cell false = ValueError message ->
        fst (CompoundTagsTab_check_cell_format tab row 2) = Checked false message)
  /\ (forall q simplify,
        In (Call_query_to_sympy q simplify) (snd (run env self)) ->
        simplify = true)
  /\ (forall self1,
        _tagless_images self = false ->
        fst (_preprocess env self) = Returned self1 ->
        no_error (_error self1) = true ->
        (exists rest,
           snd (run env self)
           = Call_ImageDao :: Call_preprocess :: Call_get_all_tags
             :: Call_query_to_sympy (_query self1) true :: rest)
        /\ (forall message,
              query_to_sympy env (_query self1) true = ValueError message ->
              fst (run env self) = Returned (set_error self1 message))
        /\ (forall expr,
              query_to_sympy env (_query self1) true = Compiled expr ->
              exists self2,
                fst (run env self) = Returned self2
                /\ fetched_images self2 = get_images env expr)).
Proof.
  intros cell. unfold CompoundTagsTab_check_cell_format, TagsTab_check_cell_format.
  simpl. fold cell.
  destruct (tab_query_to_sympy tab cell false) as [expr|message] eqn:E; simpl.
  - split; [reflexivity|]. split; [split; [intros _; exists expr|]; reflexivity|].
    split; [intros message H; discriminate|].
    split; [apply run_compiles_with_simplify|].
    intros self1. apply run_calls_compiler.
  - split; [reflexivity|].
    split; [split; [intros H|intros (expr & H)]; discriminate|].
    split; [intros message' H; congruence|].
    split; [apply run_compiles_with_simplify|].
    intros self1. apply run_calls_compiler.
Qed.

Lemma definition_is_parsed_not_simplified_witness :
  fst (CompoundTagsTab_check_cell_format sample_tab 1 2)
  = Checked false (str "syntax error")
  /\ fst (CompoundTagsTab_check_cell_format sample_tab 0 2) = Checked true []
  /\ (exists rest,
        snd (run refusing_env (new_thread nat (str "cat") false))
        = Call_ImageDao :: Call_preprocess :: Call_get_all_tags
          :: Call_query_to_sympy (str "cat") true :: rest).
Proof.
  split; [|split].
  - apply (definition_is_parsed_not_simplified unit nat sample_tab 1 refusing_env
             (new_thread nat (str "cat") false)).
    reflexivity.
  - apply (definition_is_parsed_not_simplified unit nat sample_tab 0 refusing_env
             (new_thread nat (str "cat") false)).
    exists tt. reflexivity.
  - assert (Hp : fst (_preprocess refusing_env (new_thread nat (str "cat") false))
                 = Returned (new_thread nat (str "cat") false))
      by (vm_compute; reflexivity).
    destruct (definition_is_parsed_not_simplified unit nat sample_tab 0
                refusing_env (new_thread nat (str "cat") false))
      as (_ & _ & _ & _ & Hrun).
    exact (proj1 (Hrun (new_thread nat (str "cat") false) eq_refl Hp eq_refl)).
Defined.

Lemma failed_iff_error (Image : Type) (self : SearchThread Image) :
  failed self = true <-> error self <> None.
Proof.
  unfold failed, error. destruct (_error self); split; congruence.
Qed.

Lemma set_error_failed (Image : Type) (self : SearchThread Image) (e : text) :
  failed (set_error self e) = true /\ error (set_error self e) = Some e.
Proof. split; reflexivity. Qed.

(** Once an error is set, whatever [run] still does leaves one set. *)
Lemma run_after_error (Expr Image : Type) (env : collaborators Expr Image)
    (self : SearchThread Image) (r : text) :
  _tagless_images self = false ->
  expand (get_all_tags env) (fst (fst (protect (_query self)))) = MaxRecursion r ->
  exists self',
    fst (run env self) = Returned self'
    /\ failed self' = true
    /\ (translate_max_recursion env _MAXIMUM_DEPTH <> [] ->
        error self' = Some (translate_max_recursion env _MAXIMUM_DEPTH)
        /\ snd (run env self) = [Call_ImageDao; Call_preprocess; Call_get_all_tags]).
Proof.
  intros Htagless Hexp. unfold run, _preprocess. rewrite Htagless.
  destruct (protect (_query self)) as [[q1 n] values]. simpl in Hexp.
  rewrite Hexp. simpl.
  destruct (translate_max_recursion env _MAXIMUM_DEPTH) as [|c msg] eqn:Emsg; simpl.
  - destruct (query_to_sympy env r true) as [expr|message]; simpl.
    + destruct (get_images env expr); simpl; eexists;
        (split; [reflexivity|]); (split; [reflexivity|]);
        intros H; contradiction.
    + eexists. split; [reflexivity|]. split; [reflexivity|].
      intros H; contradiction.
  - eexists. split; [reflexivity|]. split; [reflexivity|].
    intros _. split; reflexivity.
Qed.

(** C8. Each failure of a search ends [run] with the error set, and
    leaves [run] by no exception:
    - when the expansion ends in the max-recursion condition, [run]
      returns with [failed] true, and [error] is the max-recursion message
      (whenever that translation is not the empty string, [run] stops
      there);
    - when the compiler raises [ValueError], [run] returns with [error]
      the message of the exception;
    - when the image store answers [None], for a query as for the tagless
      images, [run] returns with [error] the image-loading message;
    and [failed] is true exactly when [error] is not [None]. *)
Theorem search_failures_are_reported (Expr Image : Type)
    (env : collaborators Expr Image) (self : SearchThread Image) :
  (forall r,
     _tagless_images self = false ->
     expand (get_all_tags env) (fst (fst (protect (_query self)))) = MaxRecursion r ->
     exists self',
       fst (run env self) = Returned self'
       /\ failed self' = true
       /\ (translate_max_recursion env _MAXIMUM_DEPTH <> [] ->
           error self' = Some (translate_max_recursion env _MAXIMUM_DEPTH)
           /\ snd (run env self) = [Call_ImageDao; Call_preprocess; Call_get_all_tags]))
  /\ (forall self1 message,
        _tagless_images self = false ->
        fst (_preprocess env self) = Returned self1 ->
        no_error (_error self1) = true ->
        query_to_sympy env (_query self1) true = ValueError message ->
        exists self',
          fst (run env self) = Returned self'
          /\ failed self' = true /\ error self' = Some message)
  /\ (forall self1 expr,
        _tagless_images self = false ->
        fst (_preprocess env self) = Returned self1 ->
        no_error (_error self1) = true ->
        query_to_sympy env (_query self1) true = Compiled expr ->
        get_images env expr = None ->
        exists self',
          fst (run env self) = Returned self'
          /\ failed self' = true
          /\ error self' = Some (translate_image_loading_error env))
  /\ (_tagless_images self = true ->
      no_error (_error self) = true ->
      get_tagless_images env = None ->
      exists self',
        fst (run env self) = Returned self'
        /\ failed self' = true
        /\ error self' = Some (translate_image_loading_error env))
  /\ (forall s : SearchThread Image, failed s = true <-> error s <> None).
Proof.
  split; [|split; [|split; [|split]]].
  - intros r. apply run_after_error.
  - intros self1 message Htagless Hpre Hok Hcompile.
    unfold run. rewrite Htagless. simpl.
    destruct (_preprocess env self) as [pre cs]. simpl in Hpre. subst pre.
    rewrite Hok, Hcompile. simpl.
    eexists. split; [reflexivity|]. split; reflexivity.
  - intros self1 expr Htagless Hpre Hok Hcompile Hstore.
    unfold run. rewrite Htagless. simpl.
    destruct (_preprocess env self) as [pre cs]. simpl in Hpre. subst pre.
    rewrite Hok, Hcompile. simpl. rewrite Hstore.
    eexists. split; [reflexivity|]. split; reflexivity.
  - intros Htagless Hok Hstore.
    unfold run. rewrite Htagless. simpl. rewrite Hok, Hstore.
    eexists. split; [reflexivity|]. split; reflexivity.
  - intros s. apply failed_iff_error.
Qed.

Lemma search_failures_are_reported_witness :
  exists self',
    fst (run refusing_env (new_thread nat (str "cat AND") false)) = Returned self'
    /\ failed self' = true /\ error self' = Some (str "syntax error").
Proof.
  apply (proj1 (proj2 (search_failures_are_reported unit nat refusing_env
                         (new_thread nat (str "cat AND") false)))
           (new_thread nat (str "cat AND") false) (str "syntax error"));
    reflexivity.
Defined.

(** ** The image-edit dialog *)

Lemma tags_of_tokens_none (Tag : Type) (env : edit_image_env Tag)
    (tokens : list text) :
  tags_of_tokens env tokens = None
  <-> exists t, In t tokens /\ from_string env t = None.
Proof.
  induction tokens as [|t rest IH]; simpl.
  - split; [discriminate|]. intros (t & [] & _).
  - destruct (from_string env t) as [tag|] eqn:E.
    + destruct (tags_of_tokens env rest) as [tags|].
      * split; [discriminate|]. intros (t' & [<-|Hin] & H); [congruence|].
        assert (Hnone : Some tags = None) by (apply (proj2 IH); eauto).
        discriminate.
      * split; [|reflexivity]. intros _.
        destruct (proj1 IH eq_refl) as (t' & Hin & H). eauto.
    + split; [|reflexivity]. intros _. exists t. auto.
Qed.

Lemma tags_of_tokens_length (Tag : Type) (env : edit_image_env Tag)
    (tokens : list text) (tags : list Tag) :
  tags_of_tokens env tokens = Some tags -> length tags = length tokens.
Proof.
  revert tags. induction tokens as [|t rest IH]; simpl; intros tags H.
  - injection H as <-. reflexivity.
  - destruct (from_string env t); [|discriminate].
    destruct (tags_of_tokens env rest) as [tags'|]; [|discriminate].
    injection H as <-. simpl. f_equal. apply IH. reflexivity.
Qed.

Lemma is_compound_iff (c : option tag_class) :
  is_compound c = true <-> c = Some CompoundTagClass.
Proof. destruct c as [[|]|]; simpl; split; congruence. Qed.

Lemma no_compound_among_false (Tag : Type) (env : edit_image_env Tag)
    (tokens : list text) :
  no_compound_among env tokens = false
  <-> exists t, In t tokens
                /\ get_tag_class env (strip_type_symbol t) = Some CompoundTagClass.
Proof.
  induction tokens as [|t rest IH]; simpl.
  - split; [discriminate|]. intros (t & [] & _).
  - destruct (is_compound (get_tag_class env (strip_type_symbol t))) eqn:E.
    + split; [|reflexivity]. intros _. exists t. split; [auto|].
      apply is_compound_iff. exact E.
    + rewrite IH. split.
      * intros (t' & Hin & H). eauto.
      * intros (t' & [<-|Hin] & H); [|eauto].
        apply is_compound_iff in H. congruence.
Qed.

(** The tag list of the image-edit dialog is invalid, with an error
    message that is not [None], exactly when it holds no token, or
    [Tag.from_string] refuses one of its tokens, or the label of one of
    its tokens, a leading character that is neither alphanumeric nor an
    underscore taken off, names a compound tag. *)
Lemma tag_list_invalid_iff (Tag : Type) (env : edit_image_env Tag)
    (tags_input : text) :
  (_get_error env tags_input <> None <-> _is_valid env tags_input = false)
  /\ (_is_valid env tags_input = false
      <-> split tags_input = []
          \/ (exists t, In t (split tags_input) /\ from_string env t = None)
          \/ (exists t, In t (split tags_input)
                        /\ get_tag_class env (strip_type_symbol t)
                           = Some CompoundTagClass)).
Proof.
  unfold _is_valid, _get_error, _get_tags, _ensure_no_compound_tags.
  destruct (tags_of_tokens env (split tags_input)) as [tags|] eqn:E.
  - pose proof (tags_of_tokens_length Tag env _ _ E) as Hlen.
    destruct (length tags =? 0) eqn:E0.
    + apply Nat.eqb_eq in E0. split; [split; congruence|].
      split; [|reflexivity]. intros _. left.
      destruct (split tags_input); [reflexivity|simpl in Hlen; lia].
    + apply Nat.eqb_neq in E0.
      destruct (no_compound_among env (split tags_input)) eqn:En; simpl.
      * split; [split; congruence|]. split; [discriminate|].
        intros [H|[H|H]].
        -- rewrite H in Hlen. simpl in Hlen. lia.
        -- apply tags_of_tokens_none in H. congruence.
        -- apply no_compound_among_false in H. congruence.
      * split; [split; congruence|]. split; [|reflexivity].
        intros _. right. right. apply no_compound_among_false. exact En.
  - split; [split; congruence|]. split; [|reflexivity].
    intros _. right. left. apply tags_of_tokens_none. exact E.
Qed.

Lemma tag_list_invalid_iff_example :
  _is_valid sample_dialog_env (str "cat #pet") = false
  /\ _get_error sample_dialog_env (str "cat #pet") <> None.
Proof.
  assert (H : _is_valid sample_dialog_env (str "cat #pet") = false).
  { apply (proj2 (tag_list_invalid_iff text sample_dialog_env (str "cat #pet"))).
    right. right. exists (str "#pet"). split.
    - vm_compute. auto.
    - reflexivity. }
  split; [exact H|].
  apply (proj1 (tag_list_invalid_iff text sample_dialog_env (str "cat #pet"))).
  exact H.
Defined.

(** ** A placeholder the Macro Expander alters *)

(** C5, at a failing input. The query is the one metatag literal
    [path:/x/] and the one compound tag has the label [1] and the
    definition [cat]. Protection leaves the placeholder of index 1; the
    expander takes the digit between the percent signs for the label and
    puts the definition in its place; restoration then finds no
    placeholder, and the literal is lost. *)
Lemma numeric_label_alters_placeholder :
  protect (str "path:/x/") = (str "%%1%%", 1, [(1, str "path:/x/")])
  /\ expand [compound_tag "1" "cat"] (str "%%1%%") = Expanded (str "%%(cat)%%")
  /\ restore [(1, str "path:/x/")] (str "%%(cat)%%") = str "%%(cat)%%"
  /\ forall env : collaborators unit nat,
       get_all_tags env = [compound_tag "1" "cat"] ->
       fst (_preprocess env (new_thread nat (str "path:/x/") false))
       = Returned (set_query (new_thread nat (str "path:/x/") false)
                             (str "%%(cat)%%")).
Proof.
  assert (Hp : protect (str "path:/x/") = (str "%%1%%", 1, [(1, str "path:/x/")]))
    by (vm_compute; reflexivity).
  assert (He : expand [compound_tag "1" "cat"] (str "%%1%%")
               = Expanded (str "%%(cat)%%"))
    by (vm_compute; reflexivity).
  assert (Hr : restore [(1, str "path:/x/")] (str "%%(cat)%%") = str "%%(cat)%%")
    by (vm_compute; reflexivity).
  split; [exact Hp|]. split; [exact He|]. split; [exact Hr|].
  intros env Htags. unfold _preprocess.
  change (_query (new_thread nat (str "path:/x/") false)) with (str "path:/x/").
  rewrite Hp, Htags, He, Hr. reflexivity.
Qed.

(** ** Character classes *)

Ltac all_chars c :=
  destruct c as [[] [] [] [] [] [] [] []]; vm_compute; try reflexivity;
  try discriminate; auto.

Lemma digit_is_word (c : ascii) : is_digit c = true -> is_word c = true.
Proof. all_chars c. Qed.

Lemma word_not_space (c : ascii) : is_word c = true -> is_space c = false.
Proof. all_chars c. Qed.

Lemma word_not_delim (c : ascii) : is_word c = true -> is_delim c = false.
Proof. all_chars c. Qed.

Lemma space_not_delim (c : ascii) : is_space c = true -> is_delim c = false.
Proof. all_chars c. Qed.

Lemma key_char_not_percent (c : ascii) : is_key_char c = true -> c <> c_percent.
Proof. intros H ->. discriminate. Qed.

Lemma placeholder_char_not_delim (c : ascii) :
  is_placeholder_char c = true -> is_delim c = false.
Proof. all_chars c. Qed.

Lemma placeholder_char_not_backslash (c : ascii) :
  is_placeholder_char c = true -> c <> c_backslash.
Proof. intros H ->. discriminate. Qed.

Lemma placeholder_char_is_dot (c : ascii) :
  is_placeholder_char c = true -> is_dot c = true.
Proof. all_chars c. Qed.

Lemma delim_not_backslash (d : ascii) :
  is_delim d = true -> is_not_backslash d = true.
Proof. all_chars d. Qed.

Lemma forallb_weaken (p q : ascii -> bool) (s : text) :
  (forall c, p c = true -> q c = true) ->
  forallb p s = true -> forallb q s = true.
Proof.
  intros Hpq H. apply forallb_forall. intros c Hc. apply Hpq.
  revert c Hc. apply forallb_forall. exact H.
Qed.

Lemma forallb_In (p : ascii -> bool) (s : text) (c : ascii) :
  forallb p s = true -> In c s -> p c = true.
Proof. intros H. revert c. apply forallb_forall. exact H. Qed.

(** ** The shape of a placeholder *)

Lemma placeholder_chars (index : nat) :
  forallb is_placeholder_char (placeholder index) = true.
Proof.
  unfold placeholder. rewrite !forallb_app. simpl.
  rewrite (forallb_weaken is_digit is_placeholder_char); auto.
  - intros c H. unfold is_placeholder_char. rewrite H. apply orb_true_r.
  - apply str_of_nat_digits.
Qed.

Lemma placeholder_shape (index : nat) :
  exists d ds,
    placeholder index = c_percent :: c_percent :: d :: ds ++ [c_percent; c_percent]
    /\ is_digit d = true /\ forallb is_digit ds = true.
Proof.
  unfold placeholder.
  pose proof (str_of_nat_digits index) as Hd.
  pose proof (str_of_nat_not_nil index) as Hn.
  destruct (str_of_nat index) as [|d ds]; [contradiction|].
  simpl in Hd. apply andb_true_iff in Hd as [Hd Hds].
  exists d, ds. auto.
Qed.

(** ** No match begins inside a placeholder *)

(** A run of word characters followed by a character that is neither a
    word character, nor white space, nor the colon, begins no metatag
    literal. *)
Lemma no_match_word_then (x : text) (c : ascii) (rest : text) :
  forallb is_word x = true ->
  is_word c = false -> is_space c = false -> c <> c_colon ->
  meta_tag_re (x ++ c :: rest) = None.
Proof.
  intros Hx Hcw Hcs Hcc.
  destruct (meta_tag_re (x ++ c :: rest)) as [r|] eqn:E; [|reflexivity].
  exfalso. apply meta_tag_re_sound in E as (m & Hs & Hm).
  destruct Hm as [c0 w sp1 sp2 d v Hc0 Hw Hsp1 Hsp2 Hd Hv].
  assert (Hkey : forall y tl tl', sp1 ++ c_colon :: tl = y :: tl' ->
                                  is_space y = true \/ y = c_colon).
  { intros y tl tl' Hy. destruct sp1 as [|z sp1]; simpl in Hy.
    - injection Hy as <- _. auto.
    - injection Hy as <- _. simpl in Hsp1.
      apply andb_true_iff in Hsp1 as [Hz _]. auto. }
  change (c0 :: w ++ sp1 ++ c_colon :: sp2 ++ d :: v ++ [d])
    with ((c0 :: w) ++ sp1 ++ c_colon :: sp2 ++ d :: v ++ [d]) in Hs.
  rewrite <- app_assoc in Hs. symmetry in Hs.
  apply app_eq_app in Hs as (l & [[H1 H2]|[H1 H2]]).
  - destruct l as [|y l].
    + simpl in H2. rewrite <- app_assoc in H2. symmetry in H2.
      apply Hkey in H2 as [H2|H2]; congruence.
    + simpl in H2. injection H2 as <- _.
      assert (In c (c0 :: w)) by (rewrite H1; apply in_or_app; right; left; auto).
      assert (is_word c = true).
      { destruct H as [<-|H]; [exact Hc0|].
        apply (forallb_In is_word w); assumption. }
      congruence.
  - destruct l as [|y l].
    + simpl in H2. rewrite <- app_assoc in H2.
      apply Hkey in H2 as [H2|H2]; congruence.
    + rewrite <- app_assoc in H2. simpl in H2.
      apply Hkey in H2 as [H2|H2].
      * assert (is_word y = true).
        { apply (forallb_In is_word x); [exact Hx|].
          rewrite H1. apply in_or_app. right. left. reflexivity. }
        apply word_not_space in H. congruence.
      * subst y.
        assert (is_word c_colon = true).
        { apply (forallb_In is_word x); [exact Hx|].
          rewrite H1. apply in_or_app. right. left. reflexivity. }
        discriminate.
Qed.

(** A text of placeholder characters that is not empty and ends with a
    percent sign is a run of digits, a percent sign and a rest. *)
Lemma placeholder_suffix_shape (s : text) :
  forallb is_placeholder_char s = true ->
  (exists s', s = s' ++ [c_percent]) ->
  exists x rest, s = x ++ c_percent :: rest /\ forallb is_digit x = true.
Proof.
  induction s as [|c s IH]; intros Hs (s' & E).
  - destruct s'; discriminate.
  - simpl in Hs. apply andb_true_iff in Hs as [Hc Hs].
    destruct (Ascii.eqb c c_percent) eqn:Ec.
    + apply Ascii.eqb_eq in Ec. subst c. exists [], s. auto.
    + unfold is_placeholder_char in Hc. rewrite Ec in Hc. simpl in Hc.
      destruct s' as [|c' s'].
      * simpl in E. injection E as -> _. discriminate.
      * simpl in E. injection E as _ ->.
        destruct (IH Hs) as (x & rest & -> & Hx); [eauto|].
        exists (c :: x), rest. split; [reflexivity|]. simpl. rewrite Hc. exact Hx.
Qed.

Lemma no_match_in_placeholder (index : nat) (a1 a2 b : text) :
  placeholder index = a1 ++ a2 -> a2 <> [] -> meta_tag_re (a2 ++ b) = None.
Proof.
  intros E Hne.
  pose proof (placeholder_chars index) as Hch. rewrite E, forallb_app in Hch.
  apply andb_true_iff in Hch as [_ Hch].
  assert (Hlast : exists s', a2 = s' ++ [c_percent]).
  { destruct (exists_last Hne) as (s' & c & ->). exists s'.
    unfold placeholder in E.
    rewrite !app_assoc in E.
    change ([c_percent; c_percent]) with ([c_percent] ++ [c_percent]) in E at 2.
    rewrite !app_assoc in E. apply app_inj_tail in E as [_ <-]. reflexivity. }
  destruct (placeholder_suffix_shape a2 Hch Hlast) as (x & rest & -> & Hx).
  rewrite <- app_assoc. simpl.
  apply no_match_word_then; try reflexivity; try discriminate.
  apply (forallb_weaken is_digit is_word); [apply digit_is_word|exact Hx].
Qed.

(** ** No match appears before a placeholder *)

Lemma backslashes_chars (n : nat) (c : ascii) :
  In c (backslashes n) -> c = c_backslash.
Proof. unfold backslashes. intros H. apply repeat_spec in H. exact H. Qed.

Lemma meta_literal_last (m : text) :
  meta_literal m -> exists m0 d, m = m0 ++ [d] /\ is_delim d = true.
Proof.
  intros [c w sp1 sp2 d v _ _ _ _ Hd _].
  exists (c :: w ++ sp1 ++ c_colon :: sp2 ++ d :: v), d. split; [|exact Hd].
  simpl. repeat (rewrite <- app_assoc; simpl). reflexivity.
Qed.

(** The key of a literal, the colon and the opening delimiter hold no
    percent sign: they end before the first one. *)
Lemma key_before_percent (head rest u s : text) :
  forallb is_key_char head = true ->
  head ++ rest = u ++ c_percent :: s ->
  exists u', u = head ++ u' /\ rest = u' ++ c_percent :: s.
Proof.
  intros Hhead E. apply app_eq_app in E as (l & [[H1 H2]|[H1 H2]]).
  - destruct l as [|y l].
    + rewrite app_nil_r in H1. subst u. exists []. rewrite app_nil_r. auto.
    + simpl in H2. injection H2 as <- _. exfalso.
      apply (key_char_not_percent c_percent); [|reflexivity].
      apply (forallb_In is_key_char head); [exact Hhead|].
      rewrite H1. apply in_or_app. right. left. reflexivity.
  - exists l. auto.
Qed.

Arguments Nat.mul : simpl never.

Ltac sub_forallb H :=
  apply forallb_forall;
  let c := fresh "c" in
  let Hc := fresh "Hc" in
  intros c Hc; apply (forallb_In _ _ c H);
  repeat rewrite in_app_iff in Hc; repeat rewrite in_app_iff;
  simpl in Hc; simpl; tauto.

(** The value of a literal that holds a placeholder is still the value of
    a literal when a literal stands there in place of the placeholder. *)
Lemma literal_value_swap (x1 holder x2 m : text) :
  literal_value (x1 ++ holder ++ x2) ->
  (exists h, holder = h ++ [c_percent]) ->
  meta_literal m ->
  forallb is_dot (x1 ++ m ++ x2) = true ->
  literal_value (x1 ++ m ++ x2).
Proof.
  intros Hv (h & Hh) Hm Hdot.
  remember (x1 ++ holder ++ x2) as v eqn:Ev.
  destruct Hv as [k|x e k Hx He].
  - exfalso. apply (placeholder_char_not_backslash c_percent); [reflexivity|].
    apply (backslashes_chars (2 * k)). rewrite Ev, Hh.
    apply in_or_app. right. apply in_or_app. left.
    apply in_or_app. right. left. reflexivity.
  - rewrite app_assoc in Ev.
    apply app_eq_app in Ev as (t & [[H1 H2]|[H1 H2]]).
    + (* the placeholder lies in the lazy part *)
      subst x2.
      replace (x1 ++ m ++ t ++ e :: backslashes (2 * k))
        with ((x1 ++ m ++ t) ++ e :: backslashes (2 * k))
        by (rewrite <- !app_assoc; reflexivity).
      apply LV_lazy; [|exact He]. sub_forallb Hdot.
    + destruct t as [|y t].
      * simpl in H2. subst x2.
        replace (x1 ++ m ++ e :: backslashes (2 * k))
          with ((x1 ++ m) ++ e :: backslashes (2 * k))
          by (rewrite <- !app_assoc; reflexivity).
        apply LV_lazy; [|exact He]. sub_forallb Hdot.
      * simpl in H2. injection H2 as <- Hbs.
        destruct t as [|z0 t0].
        -- (* the last character of the placeholder is [e] *)
           simpl in Hbs. subst x2.
           destruct (meta_literal_last m Hm) as (m0 & dm & -> & Hdm).
           replace (x1 ++ (m0 ++ [dm]) ++ backslashes (2 * k))
             with ((x1 ++ m0) ++ dm :: backslashes (2 * k))
             by (rewrite <- !app_assoc; reflexivity).
           apply LV_lazy; [|apply delim_not_backslash; exact Hdm].
           sub_forallb Hdot.
        -- (* a backslash cannot end the placeholder *)
           exfalso.
           destruct (exists_last (l := z0 :: t0)) as (t' & z & Ht);
             [discriminate|].
           rewrite Ht in H1, Hbs.
           assert (Hz : z = c_backslash).
           { apply (backslashes_chars (2 * k)). rewrite Hbs.
             apply in_or_app. left. apply in_or_app. right. left. reflexivity. }
           rewrite Hh in H1.
           rewrite app_assoc in H1.
           change (x ++ e :: t' ++ [z]) with (x ++ (e :: t') ++ [z]) in H1.
           rewrite (app_assoc x) in H1.
           apply app_inj_tail in H1 as [_ H1]. subst z. discriminate.
Qed.

(** A match that begins before a placeholder begins there as well when
    the literal stands in place of the placeholder, in a text without
    newline. *)
Lemma no_match_before_placeholder (u m b : text) (index : nat) :
  forallb is_dot (u ++ m ++ b) = true ->
  meta_literal m ->
  meta_tag_re (u ++ m ++ b) = None ->
  meta_tag_re (u ++ placeholder index ++ b) = None.
Proof.
  intros Hdot Hm Hnone.
  destruct (meta_tag_re (u ++ placeholder index ++ b)) as [r|] eqn:E;
    [|reflexivity].
  exfalso. revert Hnone.
  pose proof (placeholder_chars index) as Hchars.
  destruct (placeholder_shape index) as (d0 & ds & Hshape & _ & _).
  assert (Hlast : exists h, placeholder index = h ++ [c_percent]).
  { exists (c_percent :: c_percent :: d0 :: ds ++ [c_percent]).
    rewrite Hshape. simpl. rewrite <- app_assoc. reflexivity. }
  assert (Hfirst : exists s, placeholder index = c_percent :: s).
  { rewrite Hshape. eauto. }
  remember (placeholder index) as holder eqn:Eh. clear Eh Hshape d0 ds.
  apply meta_tag_re_sound in E as (m' & Hs & Hm').
  destruct Hm' as [c0 w sp1 sp2 d v Hc0 Hw Hsp1 Hsp2 Hd Hv].
  set (head := c0 :: w ++ sp1 ++ c_colon :: sp2 ++ [d]).
  assert (Hhead : forallb is_key_char head = true).
  { unfold head. apply forallb_forall. intros c Hc. unfold is_key_char.
    simpl in Hc. repeat rewrite in_app_iff in Hc. simpl in Hc.
    repeat rewrite in_app_iff in Hc. simpl in Hc.
    destruct Hc as [<-|[Hc|[Hc|[<-|[Hc|[<-|[]]]]]]].
    - rewrite Hc0. reflexivity.
    - rewrite (forallb_In is_word w c Hw Hc). reflexivity.
    - rewrite (forallb_In is_space sp1 c Hsp1 Hc). apply orb_true_iff. left.
      apply orb_true_iff. left. apply orb_true_r.
    - reflexivity.
    - rewrite (forallb_In is_space sp2 c Hsp2 Hc). apply orb_true_iff. left.
      apply orb_true_iff. left. apply orb_true_r.
    - rewrite Hd. apply orb_true_r. }
  assert (Em' : forall val,
             c0 :: w ++ sp1 ++ c_colon :: sp2 ++ d :: val ++ [d]
             = head ++ val ++ [d]).
  { intros val. unfold head. simpl. repeat (rewrite <- app_assoc; simpl).
    reflexivity. }
  rewrite Em' in Hs. clearbody head.
  destruct Hfirst as (s & Hfirst).
  assert (Hrest' : exists u', u = head ++ u' /\ (v ++ [d]) ++ r = u' ++ holder ++ b).
  { rewrite Hfirst in Hs. symmetry in Hs. rewrite <- !app_assoc in Hs.
    change ((c_percent :: s) ++ b) with (c_percent :: s ++ b) in Hs.
    apply key_before_percent in Hs as (u' & Hu & Hrest); [|exact Hhead].
    exists u'. split; [exact Hu|].
    rewrite <- app_assoc, Hrest, Hfirst. reflexivity. }
  destruct Hrest' as (u' & -> & Hrest').
  (* the match [head ++ v ++ [d]] ends before the placeholder, or after it *)
  assert (Hcase :
            (exists l, u' = (v ++ [d]) ++ l)
            \/ (exists x2, v = u' ++ holder ++ x2 /\ b = x2 ++ d :: r)).
  { apply app_eq_app in Hrest' as (l & [[H1 H2]|[H1 H2]]).
    - destruct l as [|y l].
      + left. exists []. rewrite app_nil_r in *. auto.
      + right.
        symmetry in H2. apply app_eq_app in H2 as (l3 & [[H3 H4]|[H3 H4]]).
        * (* the closing delimiter stands after the placeholder *)
          rewrite H3 in H1. destruct Hlast as (h & Hh).
          destruct l3 as [|z0 l0].
          -- exfalso. rewrite app_nil_r in H1. rewrite Hh in H1.
             rewrite app_assoc in H1. apply app_inj_tail in H1 as [_ H1].
             subst d. discriminate.
          -- destruct (exists_last (l := z0 :: l0)) as (x2 & z & Hl);
               [discriminate|].
             rewrite Hl in H1, H4.
             rewrite !app_assoc in H1. apply app_inj_tail in H1 as [H1 <-].
             exists x2. split.
             ++ rewrite H1, <- app_assoc. reflexivity.
             ++ rewrite H4, <- app_assoc. reflexivity.
        * (* the closing delimiter would stand inside the placeholder *)
          exfalso.
          destruct (exists_last (l := y :: l)) as (l' & z & Hl);
            [discriminate|].
          rewrite Hl in H1, H3.
          rewrite app_assoc in H1. apply app_inj_tail in H1 as [_ <-].
          assert (Hin : In d holder).
          { rewrite H3. rewrite !in_app_iff. left. right. left. reflexivity. }
          apply (forallb_In is_placeholder_char holder d Hchars) in Hin.
          apply placeholder_char_not_delim in Hin. congruence.
    - left. exists l. exact H1. }
  destruct Hcase as [(l & ->)|(x2 & -> & ->)].
  - replace ((head ++ (v ++ [d]) ++ l) ++ m ++ b)
      with ((c0 :: w ++ sp1 ++ c_colon :: sp2 ++ d :: v ++ [d]) ++ l ++ m ++ b)
      by (rewrite Em', <- !app_assoc; reflexivity).
    apply meta_tag_re_complete. apply ML; assumption.
  - replace ((head ++ u') ++ m ++ x2 ++ d :: r)
      with ((c0 :: w ++ sp1 ++ c_colon :: sp2 ++ d :: (u' ++ m ++ x2) ++ [d]) ++ r)
      by (rewrite Em', <- !app_assoc; reflexivity).
    apply meta_tag_re_complete. apply ML; try assumption.
    apply (literal_value_swap u' holder x2 m); auto.
    sub_forallb Hdot.
Qed.

(** What precedes the placeholder put in by an iteration holds no match
    afterwards, the placeholder included. *)
Lemma dead_prefix_stays_dead (a m b : text) (index : nat) :
  forallb is_dot (a ++ m ++ b) = true ->
  meta_literal m ->
  no_match_within a (m ++ b) ->
  no_match_within (a ++ placeholder index) b.
Proof.
  intros Hdot Hm Hno a1 a2 E Hne.
  apply app_eq_app in E as (l & [[H1 H2]|[H1 H2]]).
  - destruct l as [|y l].
    + simpl in H2. subst a2.
      apply (no_match_in_placeholder index [] (placeholder index) b);
        [reflexivity|exact Hne].
    + subst a2. rewrite <- app_assoc.
      apply (no_match_before_placeholder (y :: l) m b index); [|exact Hm|].
      * subst a. sub_forallb Hdot.
      * apply (Hno a1 (y :: l)); [|discriminate]. exact H1.
  - apply (no_match_in_placeholder index l a2 b); [exact H2|exact Hne].
Qed.

(** ** The run of the Literal Protector, literal by literal *)

Arguments placeholder : simpl never.

Lemma is_dot_placeholder (index : nat) :
  forallb is_dot (placeholder index) = true.
Proof.
  apply (forallb_weaken is_placeholder_char is_dot).
  - apply placeholder_char_is_dot.
  - apply placeholder_chars.
Qed.


(** ** Restoration *)







(** ** Expansion without compound tags *)





(** The round trip also fails, without any percent sign in the query, on
    a literal that only matches once a literal inside it has been
    replaced: here the slash-delimited value holds a quoted value that
    ends with a newline. The outer literal is stored with the inner
    placeholder in it, and restoration, which goes by ascending index,
    looks for the inner placeholder before the outer one is back. *)
Lemma round_trip_fails_on_nested_literal :
  let query := str "a:/ b:" ++ [c_quote; c_newline; c_quote] ++ str "/" in
  protect query
  = (str "%%2%%", 2,
     [(1, str "b:" ++ [c_quote; c_newline; c_quote]); (2, str "a:/ %%1%%/")])
  /\ restore (snd (protect query)) (fst (fst (protect query))) = str "a:/ %%1%%/"
  /\ restore (snd (protect query)) (fst (fst (protect query))) <> query.
Proof.
  intros query.
  assert (Hp : protect query
               = (str "%%2%%", 2,
                  [(1, str "b:" ++ [c_quote; c_newline; c_quote]);
                   (2, str "a:/ %%1%%/")]))
    by (vm_compute; reflexivity).
  split; [exact Hp|]. rewrite Hp.
  split; [vm_compute; reflexivity|]. vm_compute. discriminate.
Qed.

(** ** The template of a definition without backslash *)




(** ** The compound-tag pattern *)

Arguments expand_template : simpl never.







(** ** The scan of [re.sub] *)







(** ** Every replacement adds a parenthesis *)








(** ** Whole words and the scan *)

Lemma nonword_not_word (c : ascii) :
  is_nonword c = true -> is_word c = true -> False.
Proof. unfold is_nonword. intros H1 H2. rewrite H2 in H1. discriminate. Qed.






Lemma ends_nonword_word (a : text) (c : ascii) :
  ends_nonword (a ++ [c]) -> is_word c = true -> False.
Proof.
  intros (a' & z & E & Hz) Hw. apply app_inj_tail in E as [_ ->].
  exact (nonword_not_word z Hz Hw).
Qed.











(** ** A pass over tags that refer to one another *)











(** C2, at a failing input. The compound tag [loop] refers to itself and
    its definition, [loop AND path:/\d+/], holds a backslash escape. Line
    658 hands the definition to [re.sub] as the replacement template
    without escaping it (line 646 does escape the text it hands to
    [re.sub]), and the template parser refuses the escape: on the query
    [loop] the first pass raises [re.error], no pass is completed, no
    max-recursion error is reported, and the exception leaves
    [_preprocess]. The claim has the expansion end in the max-recursion
    error after exactly 20 passes. *)
Theorem escape_in_definition_raises :
  whole_word (label digits_tag) (definition digits_tag)
  /\ whole_word (label digits_tag) (str "loop")
  /\ expand [digits_tag] (str "loop") = TemplateError
  /\ ~ (exists r, expand [digits_tag] (str "loop") = MaxRecursion r)
  /\ forall env : collaborators unit nat,
       get_all_tags env = [digits_tag] ->
       fst (_preprocess env (new_thread nat (str "loop") false)) = Raised.
Proof.
  assert (He : expand [digits_tag] (str "loop") = TemplateError)
    by (vm_compute; reflexivity).
  assert (Hp : protect (str "loop") = (str "loop", 0, []))
    by (vm_compute; reflexivity).
  split; [|split; [|split; [exact He|split]]].
  - exists [], (str " AND path:/\d+/"). split; [reflexivity|].
    split; [left; auto|]. right. exists " "%char, (str "AND path:/\d+/"). auto.
  - exists [], []. split; [reflexivity|]. split; [left; auto|left; reflexivity].
  - intros (r & Hr). rewrite He in Hr. discriminate.
  - intros env Htags. unfold _preprocess.
    change (_query (new_thread nat (str "loop") false)) with (str "loop").
    rewrite Hp, Htags, He. reflexivity.
Qed.

(** ** The search of a tab *)

Lemma wildcard_not_backslash (d : ascii) : is_wildcard d = true -> d <> c_backslash.
Proof. intros H ->. discriminate. Qed.

Lemma wildcard_not_meta (d : ascii) : is_wildcard d = true -> is_meta d = false.
Proof.
  unfold is_wildcard. intros H. apply orb_true_iff in H as [H|H];
    apply Ascii.eqb_eq in H; subst d; reflexivity.
Qed.

Lemma wildcard_not_newline (d : ascii) :
  is_wildcard d = true -> Ascii.eqb d c_newline = false.
Proof.
  unfold is_wildcard. intros H. apply orb_true_iff in H as [H|H];
    apply Ascii.eqb_eq in H; subst d; reflexivity.
Qed.

Lemma plain_or_end_backslash (s : text) : plain_or_end (c_backslash :: s) = None.
Proof. destruct s; reflexivity. Qed.

Lemma plain_or_end_wildcard (d : ascii) (s : text) :
  is_wildcard d = true -> plain_or_end (d :: s) = None.
Proof.
  intros H. unfold plain_or_end, re_alt, re_char, is_plain_char.
  rewrite H. cbn [orb negb at_dollar].
  destruct s; [|reflexivity]. rewrite (wildcard_not_newline _ H). reflexivity.
Qed.

Lemma invalid_backslash_re_other (prev : option ascii) (c : ascii) (s : text) :
  c <> c_backslash -> invalid_backslash_re prev (c :: s) = None.
Proof.
  intros H. unfold invalid_backslash_re, re_char.
  destruct (not_after_backslash prev); [|reflexivity].
  destruct (Ascii.eqb c_backslash c) eqn:E; [|reflexivity].
  apply Ascii.eqb_eq in E. congruence.
Qed.

Lemma invalid_backslash_re_pair (prev : option ascii) (s : text) :
  not_after_backslash prev = true ->
  invalid_backslash_re prev (c_backslash :: c_backslash :: s)
  = invalid_backslash_re None s.
Proof.
  intros Hp. unfold invalid_backslash_re. rewrite Hp.
  cbn [not_after_backslash re_char]. rewrite Ascii.eqb_refl.
  rewrite re_backslash_pairs_eq.
  destruct s as [|c s'].
  - reflexivity.
  - destruct (Ascii.eqb c c_backslash) eqn:E.
    + apply Ascii.eqb_eq in E. subst c. cbn [re_char].
      rewrite !Ascii.eqb_refl.
      cbn [andb]. rewrite plain_or_end_backslash.
      destruct (re_backslash_pairs plain_or_end s'); reflexivity.
    + cbn [re_char]. rewrite Ascii.eqb_refl. cbn [andb].
      rewrite plain_or_end_backslash.
      rewrite (Ascii.eqb_sym c_backslash c), E. reflexivity.
Qed.

Lemma has_invalid_backslash_eq (prev : option ascii) (s : text) :
  has_invalid_backslash prev s =
  match invalid_backslash_re prev s with
  | Some _ => true
  | None =>
      match s with
      | [] => false
      | c :: s' => has_invalid_backslash (Some c) s'
      end
  end.
Proof. destruct s; reflexivity. Qed.

Lemma not_after_backslash_some (c : ascii) :
  c <> c_backslash -> not_after_backslash (Some c) = true.
Proof.
  intros H. unfold not_after_backslash.
  destruct (Ascii.eqb c c_backslash) eqn:E; [|reflexivity].
  apply Ascii.eqb_eq in E. contradiction.
Qed.

(** The scan for an invalid backslash reads the escapes from the left. *)
Lemma has_invalid_backslash_escapes (n : nat) :
  forall s prev, length s <= n -> not_after_backslash prev = true ->
    has_invalid_backslash prev s = negb (escapes_ok s).
Proof.
  induction n as [|n IH]; intros s prev Hlen Hp.
  - destruct s; [|simpl in Hlen; lia].
    rewrite has_invalid_backslash_eq. unfold invalid_backslash_re.
    rewrite Hp. reflexivity.
  - destruct s as [|c s'].
    + rewrite has_invalid_backslash_eq. unfold invalid_backslash_re.
      rewrite Hp. reflexivity.
    + simpl in Hlen. cbn [escapes_ok].
      destruct (Ascii.eqb c c_backslash) eqn:Ec.
      * apply Ascii.eqb_eq in Ec. subst c.
        destruct s' as [|d s''].
        -- rewrite has_invalid_backslash_eq. unfold invalid_backslash_re.
           rewrite Hp. reflexivity.
        -- simpl in Hlen.
           destruct (Ascii.eqb d c_backslash) eqn:Ed.
           ++ apply Ascii.eqb_eq in Ed. subst d.
              rewrite orb_true_r. cbn [andb].
              rewrite <- (IH s'' None) by (simpl; lia || reflexivity).
              rewrite has_invalid_backslash_eq.
              rewrite (invalid_backslash_re_pair _ _ Hp).
              rewrite (has_invalid_backslash_eq None s'').
              destruct (invalid_backslash_re None s''); [reflexivity|].
              rewrite has_invalid_backslash_eq.
              change (invalid_backslash_re (Some c_backslash) (c_backslash :: s''))
                with (@None text).
              rewrite has_invalid_backslash_eq.
              change (invalid_backslash_re (Some c_backslash) s'') with (@None text).
              reflexivity.
           ++ rewrite orb_false_r.
              assert (Hd : d <> c_backslash)
                by (intros ->; rewrite Ascii.eqb_refl in Ed; discriminate).
              rewrite has_invalid_backslash_eq.
              rewrite has_invalid_backslash_eq with (prev := Some c_backslash).
              change (invalid_backslash_re (Some c_backslash) (d :: s''))
                with (@None text).
              destruct (is_wildcard d) eqn:Ew.
              ** cbn [andb].
                 rewrite <- (IH s'' (Some d))
                   by (lia || apply not_after_backslash_some; exact Hd).
                 unfold invalid_backslash_re. rewrite Hp.
                 cbn [re_char]. rewrite Ascii.eqb_refl.
                 rewrite re_backslash_pairs_eq.
                 destruct s'' as [|e s3].
                 --- rewrite (plain_or_end_wildcard _ _ Ew). reflexivity.
                 --- rewrite Ed. cbn [andb].
                     rewrite (plain_or_end_wildcard _ _ Ew). reflexivity.
              ** cbn [andb negb].
                 unfold invalid_backslash_re. rewrite Hp.
                 cbn [re_char]. rewrite Ascii.eqb_refl.
                 rewrite re_backslash_pairs_eq.
                 assert (Hk : plain_or_end (d :: s'') = Some s'').
                 { unfold plain_or_end, re_alt, re_char, is_plain_char.
                   rewrite Ew, Ed. reflexivity. }
                 destruct s'' as [|e s3].
                 --- rewrite Hk. reflexivity.
                 --- rewrite Ed. cbn [andb]. rewrite Hk. reflexivity.
      * assert (Hc : c <> c_backslash)
          by (intros ->; rewrite Ascii.eqb_refl in Ec; discriminate).
        rewrite has_invalid_backslash_eq.
        rewrite (invalid_backslash_re_other _ _ _ Hc).
        apply IH; [lia|apply not_after_backslash_some; exact Hc].
Qed.

Lemma escapes_ok_well_escaped (s : text) : escapes_ok s = true <-> well_escaped s.
Proof.
  split.
  - remember (length s) as n eqn:Hn. revert s Hn.
    induction n as [n IH] using lt_wf_ind. intros s Hn H.
    destruct s as [|c s']; [constructor|].
    cbn [escapes_ok] in H. destruct (Ascii.eqb c c_backslash) eqn:Ec.
    + apply Ascii.eqb_eq in Ec. subst c.
      destruct s' as [|d s'']; [discriminate|].
      apply andb_true_iff in H as [Hd H].
      apply WE_escape.
      * apply orb_true_iff in Hd as [Hd|Hd]; [left; exact Hd|].
        right. apply Ascii.eqb_eq. exact Hd.
      * apply (IH (length s'')); [simpl in Hn; lia|reflexivity|exact H].
    + apply WE_char.
      * intros ->. rewrite Ascii.eqb_refl in Ec. discriminate.
      * apply (IH (length s')); [simpl in Hn; lia|reflexivity|exact H].
  - induction 1 as [|c s Hc _ IH|d s Hd _ IH].
    + reflexivity.
    + cbn [escapes_ok]. destruct (Ascii.eqb c c_backslash) eqn:E; [|exact IH].
      apply Ascii.eqb_eq in E. contradiction.
    + cbn [escapes_ok]. rewrite Ascii.eqb_refl. rewrite IH, andb_true_r.
      destruct Hd as [Hd| ->]; [rewrite Hd; reflexivity|].
      rewrite Ascii.eqb_refl. apply orb_true_r.
Qed.

Lemma has_invalid_backslash_iff (query : text) :
  has_invalid_backslash None query = true <-> ~ well_escaped query.
Proof.
  rewrite (has_invalid_backslash_escapes (length query)) by (lia || reflexivity).
  rewrite <- escapes_ok_well_escaped.
  destruct (escapes_ok query); simpl; split; congruence.
Qed.

(** X1. [Tab.search] returns [None], its syntax error, exactly when some
    backslash of the query, read from the left, escapes neither a wildcard
    nor a backslash. *)
Theorem search_syntax_error (re_compile : text -> option (text -> bool))
    (tab : Tab) (selected : list (nat * nat)) (query : text) :
  Tab_search re_compile tab selected query = SearchReturned None None
  <-> ~ well_escaped query.
Proof.
  rewrite <- has_invalid_backslash_iff. unfold Tab_search.
  destruct (has_invalid_backslash None query); split; try reflexivity;
    try discriminate.
  destruct (search_pattern query) as [p|]; [|discriminate].
  destruct (re_compile p) as [f|]; [|discriminate].
  destruct (search_cells f tab (_search_columns tab) (start_row_of selected));
    discriminate.
Qed.

(** *** The two substitutions *)

Lemma re_sub_all_eq (m : matcher) (items : list tpl_item) (prev : option ascii)
    (skip : nat) (s : text) :
  re_sub_all m items prev skip s =
  match skip with
  | S skip' =>
      match s with
      | [] => []
      | c :: s' => re_sub_all m items (Some c) skip' s'
      end
  | 0 =>
      match m prev s with
      | Some (g1, g2, _) =>
          expand_template items (g1 ++ g2) g1 g2 ++
          match s with
          | [] => []
          | c :: s' => re_sub_all m items (Some c) (length (g1 ++ g2) - 1) s'
          end
      | None =>
          match s with
          | [] => []
          | c :: s' => c :: re_sub_all m items (Some c) 0 s'
          end
      end
  end.
Proof. destruct s, skip; reflexivity. Qed.

Lemma meta_template : parse_template 1 4 (str "\\\1") = Some meta_items.
Proof. reflexivity. Qed.

Lemma wildcard_template : parse_template 2 5 (str "\1.\2") = Some wildcard_items.
Proof. reflexivity. Qed.

Lemma sub_meta (s : text) (prev : option ascii) :
  re_sub_all meta_re meta_items prev 0 s = escape_meta s.
Proof.
  revert prev. induction s as [|c s IH]; intros prev.
  - reflexivity.
  - rewrite re_sub_all_eq. unfold meta_re at 1. unfold escape_meta.
    cbn [flat_map]. fold (escape_meta s).
    destruct (is_meta c).
    + unfold meta_items at 1, expand_template. cbn [flat_map app length Nat.sub].
      rewrite IH. reflexivity.
    + cbn [app]. rewrite IH. reflexivity.
Qed.

Lemma rx_backslash_pairs_eq (R : Type) (k : text -> text -> option R)
    (taken s : text) :
  rx_backslash_pairs k taken s =
  match s with
  | c1 :: c2 :: s' =>
      if Ascii.eqb c1 c_backslash && Ascii.eqb c2 c_backslash then
        match rx_backslash_pairs k (taken ++ [c1; c2]) s' with
        | Some r => Some r
        | None => k taken s
        end
      else k taken s
  | _ => k taken s
  end.
Proof. destruct s as [|c1 [|c2 s]]; reflexivity. Qed.

Lemma rx_pairs_taken (n : nat) :
  forall s t taken, length s <= n ->
    rx_backslash_pairs one_wildcard (t ++ taken) s
    = match rx_backslash_pairs one_wildcard taken s with
      | Some (g1, g2, r) => Some (t ++ g1, g2, r)
      | None => None
      end.
Proof.
  induction n as [|n IH]; intros s t taken Hlen.
  - destruct s; [reflexivity|simpl in Hlen; lia].
  - rewrite !rx_backslash_pairs_eq.
    destruct s as [|c1 [|c2 s']].
    + reflexivity.
    + unfold one_wildcard. destruct (is_wildcard c1); reflexivity.
    + simpl in Hlen.
      assert (Hk : one_wildcard (t ++ taken) (c1 :: c2 :: s')
                   = match one_wildcard taken (c1 :: c2 :: s') with
                     | Some (g1, g2, r) => Some (t ++ g1, g2, r)
                     | None => None
                     end)
        by (unfold one_wildcard; destruct (is_wildcard c1); reflexivity).
      destruct (Ascii.eqb c1 c_backslash && Ascii.eqb c2 c_backslash);
        [|exact Hk].
      rewrite <- app_assoc. rewrite (IH s') by lia.
      destruct (rx_backslash_pairs one_wildcard (taken ++ [c1; c2]) s')
        as [[[g1 g2] r]|]; [reflexivity|exact Hk].
Qed.

Lemma rx_pairs_group2 (n : nat) :
  forall s taken g1 g2 r, length s <= n ->
    rx_backslash_pairs one_wildcard taken s = Some (g1, g2, r) ->
    exists c, g2 = [c].
Proof.
  induction n as [|n IH]; intros s taken g1 g2 r Hlen H.
  - destruct s; [discriminate|simpl in Hlen; lia].
  - rewrite rx_backslash_pairs_eq in H.
    assert (Hk : forall u, one_wildcard taken u = Some (g1, g2, r) ->
                           exists c, g2 = [c]).
    { intros [|c u]; unfold one_wildcard; [discriminate|].
      destruct (is_wildcard c); [|discriminate].
      intros E. injection E as _ <- _. exists c. reflexivity. }
    destruct s as [|c1 [|c2 s']]; try (apply Hk in H; exact H).
    simpl in Hlen.
    destruct (Ascii.eqb c1 c_backslash && Ascii.eqb c2 c_backslash);
      [|apply Hk in H; exact H].
    destruct (rx_backslash_pairs one_wildcard (taken ++ [c1; c2]) s')
      as [[[g1' g2'] r']|] eqn:E; [|apply Hk in H; exact H].
    injection H as -> -> ->. apply (IH s' _ _ _ _ ltac:(lia) E).
Qed.

Lemma wildcard_re_after (s : text) : wildcard_re (Some c_backslash) s = None.
Proof. reflexivity. Qed.

Lemma wildcard_re_pair (prev : option ascii) (s : text) :
  not_after_backslash prev = true ->
  wildcard_re prev (c_backslash :: c_backslash :: s)
  = match wildcard_re None s with
    | Some (g1, g2, r) => Some (c_backslash :: c_backslash :: g1, g2, r)
    | None => None
    end.
Proof.
  intros Hp. unfold wildcard_re. rewrite Hp. cbn [not_after_backslash].
  rewrite rx_backslash_pairs_eq. rewrite Ascii.eqb_refl. cbn [andb app].
  change [c_backslash; c_backslash] with ([c_backslash; c_backslash] ++ []).
  rewrite (rx_pairs_taken (length s)) by lia.
  destruct (rx_backslash_pairs one_wildcard [] s) as [[[g1 g2] r]|];
    reflexivity.
Qed.

Lemma wildcard_re_other (prev : option ascii) (c : ascii) (s : text) :
  c <> c_backslash -> is_wildcard c = false -> wildcard_re prev (c :: s) = None.
Proof.
  intros Hc Hw. unfold wildcard_re.
  destruct (not_after_backslash prev); [|reflexivity].
  rewrite rx_backslash_pairs_eq.
  assert (E : Ascii.eqb c c_backslash = false).
  { destruct (Ascii.eqb c c_backslash) eqn:E; [|reflexivity].
    apply Ascii.eqb_eq in E. contradiction. }
  destruct s as [|c2 s']; unfold one_wildcard; rewrite ?E, Hw; reflexivity.
Qed.

Lemma wildcard_re_wildcard (prev : option ascii) (c : ascii) (s : text) :
  not_after_backslash prev = true -> is_wildcard c = true ->
  wildcard_re prev (c :: s) = Some ([], [c], s).
Proof.
  intros Hp Hw. unfold wildcard_re. rewrite Hp.
  rewrite rx_backslash_pairs_eq.
  assert (E : Ascii.eqb c c_backslash = false).
  { destruct (Ascii.eqb c c_backslash) eqn:E; [|reflexivity].
    apply Ascii.eqb_eq in E. subst c. discriminate. }
  destruct s as [|c2 s']; unfold one_wildcard; rewrite ?E, Hw; reflexivity.
Qed.

Lemma wildcard_re_escape (prev : option ascii) (d : ascii) (s : text) :
  d <> c_backslash -> wildcard_re prev (c_backslash :: d :: s) = None.
Proof.
  intros Hd. unfold wildcard_re.
  destruct (not_after_backslash prev); [|reflexivity].
  rewrite rx_backslash_pairs_eq.
  assert (E : Ascii.eqb d c_backslash = false).
  { destruct (Ascii.eqb d c_backslash) eqn:E; [|reflexivity].
    apply Ascii.eqb_eq in E. contradiction. }
  rewrite E, andb_false_r. reflexivity.
Qed.

Lemma meta_not_backslash (c : ascii) : is_meta c = true -> c <> c_backslash.
Proof. intros H ->. discriminate. Qed.

Lemma meta_not_wildcard (c : ascii) : is_meta c = true -> is_wildcard c = false.
Proof.
  intros H. destruct (is_wildcard c) eqn:E; [|reflexivity].
  rewrite (wildcard_not_meta _ E) in H. discriminate.
Qed.

(** The second substitution, on the text the first one made, reads the
    escapes from the left. *)
Lemma sub_wildcard (n : nat) :
  forall s prev, length s <= n -> escapes_ok s = true ->
    not_after_backslash prev = true ->
    re_sub_all wildcard_re wildcard_items prev 0 (escape_meta s)
    = wildcard_pattern s.
Proof.
  induction n as [|n IH]; intros s prev Hlen Hok Hp.
  - destruct s; [|simpl in Hlen; lia].
    cbn [escape_meta flat_map]. rewrite re_sub_all_eq.
    unfold wildcard_re. rewrite Hp. reflexivity.
  - destruct s as [|c s'].
    + cbn [escape_meta flat_map]. rewrite re_sub_all_eq.
      unfold wildcard_re. rewrite Hp. reflexivity.
    + simpl in Hlen. cbn [escapes_ok] in Hok. cbn [wildcard_pattern].
      unfold escape_meta. cbn [flat_map]. fold (escape_meta s').
      destruct (Ascii.eqb c c_backslash) eqn:Ec.
      * apply Ascii.eqb_eq in Ec. subst c.
        destruct s' as [|d s'']; [discriminate|].
        apply andb_true_iff in Hok as [Hd Hok]. simpl in Hlen.
        change (is_meta c_backslash) with false. cbn iota.
        unfold escape_meta. cbn [flat_map app]. fold (escape_meta s'').
        destruct (Ascii.eqb d c_backslash) eqn:Ed.
        -- apply Ascii.eqb_eq in Ed. subst d.
           change (is_meta c_backslash) with false. cbn iota. cbn [app].
           rewrite <- (IH s'' None) by (lia || assumption || reflexivity).
           rewrite re_sub_all_eq. rewrite (wildcard_re_pair _ _ Hp).
           rewrite (re_sub_all_eq _ _ None 0 (escape_meta s'')).
           destruct (wildcard_re None (escape_meta s'')) as [[[g1 g2] r]|] eqn:E.
           ++ assert (Hg : exists w, g2 = [w]).
              { unfold wildcard_re in E. cbn [not_after_backslash] in E.
                eapply rx_pairs_group2; [|exact E]. apply Nat.le_refl. }
              destruct Hg as [w ->].
              unfold wildcard_items, expand_template. cbn [flat_map].
              rewrite !app_nil_r. cbn [app].
              do 2 f_equal. rewrite <- !app_assoc. f_equal. cbn [app].
              do 2 f_equal.
              rewrite re_sub_all_eq.
              replace (length (c_backslash :: c_backslash :: g1 ++ [w]) - 1)
                with (S (length (g1 ++ [w]))) by (simpl; lia).
              replace (length (g1 ++ [w]))
                with (S (length (g1 ++ [w]) - 1))
                by (rewrite length_app; simpl; lia).
              rewrite (re_sub_all_eq _ _ _ (S _) (escape_meta s'')).
              replace (S (length (g1 ++ [w]) - 1) - 1)
                with (length (g1 ++ [w]) - 1) by lia.
              reflexivity.
           ++ do 2 f_equal.
              rewrite re_sub_all_eq. rewrite wildcard_re_after. f_equal.
              rewrite re_sub_all_eq. rewrite wildcard_re_after. reflexivity.
        -- rewrite orb_false_r in Hd.
           assert (Hdb : d <> c_backslash)
             by (intros ->; rewrite Ascii.eqb_refl in Ed; discriminate).
           rewrite (wildcard_not_meta _ Hd). cbn [app].
           rewrite re_sub_all_eq. rewrite (wildcard_re_escape _ _ _ Hdb). f_equal.
           rewrite re_sub_all_eq. rewrite wildcard_re_after. f_equal.
           apply IH; [lia|exact Hok|apply not_after_backslash_some; exact Hdb].
      * assert (Hc : c <> c_backslash)
          by (intros ->; rewrite Ascii.eqb_refl in Ec; discriminate).
        destruct (is_wildcard c) eqn:Ew.
        -- rewrite (wildcard_not_meta _ Ew). cbn [app].
           rewrite re_sub_all_eq. rewrite (wildcard_re_wildcard _ _ _ Hp Ew).
           unfold wildcard_items, expand_template.
           cbn [flat_map app length Nat.sub]. do 2 f_equal.
           apply IH; [lia|exact Hok|apply not_after_backslash_some; exact Hc].
        -- destruct (is_meta c) eqn:Em.
           ++ cbn [app]. rewrite re_sub_all_eq.
              rewrite (wildcard_re_escape _ _ _ Hc). f_equal.
              rewrite re_sub_all_eq. rewrite wildcard_re_after. f_equal.
              apply IH; [lia|exact Hok|apply not_after_backslash_some; exact Hc].
           ++ cbn [app]. rewrite re_sub_all_eq.
              rewrite (wildcard_re_other _ _ _ Hc Ew). f_equal.
              apply IH; [lia|exact Hok|apply not_after_backslash_some; exact Hc].
Qed.

Lemma search_pattern_well_escaped (query : text) :
  well_escaped query ->
  search_pattern query = Some (c_caret :: wildcard_pattern query ++ [c_dollar]).
Proof.
  intros H. apply escapes_ok_well_escaped in H.
  unfold search_pattern, re_sub.
  change (length (str "\\\1")) with 4. rewrite meta_template.
  change (length (str "\1.\2")) with 5. rewrite wildcard_template.
  rewrite sub_meta.
  rewrite (sub_wildcard (length query)) by (lia || assumption || reflexivity).
  reflexivity.
Qed.

(** X2. For a query whose backslashes all escape a wildcard or a
    backslash, the two substitutions of [Tab.search] make the pattern that
    reading the query from the left gives, between a caret and a dollar
    sign, and this is the pattern handed to [re.compile]. *)
Theorem search_pattern_reads_escapes (re_compile : text -> option (text -> bool))
    (tab : Tab) (selected : list (nat * nat)) (query : text) :
  well_escaped query ->
  search_pattern query = Some (c_caret :: wildcard_pattern query ++ [c_dollar])
  /\ Tab_search re_compile tab selected query
     = match re_compile (c_caret :: wildcard_pattern query ++ [c_dollar]) with
       | None => SearchRaised
       | Some fullmatch =>
           match search_cells fullmatch tab (_search_columns tab)
                              (start_row_of selected) with
           | Some cell => SearchReturned (Some true) (Some cell)
           | None => SearchReturned (Some false) None
           end
       end.
Proof.
  intros H. split; [apply search_pattern_well_escaped; exact H|].
  unfold Tab_search. rewrite (search_pattern_well_escaped _ H).
  destruct (has_invalid_backslash None query) eqn:E; [|reflexivity].
  apply has_invalid_backslash_iff in E. contradiction.
Qed.

Lemma search_pattern_reads_escapes_witness :
  well_escaped (str "a?\*(b)")
  /\ search_pattern (str "a?\*(b)") = Some (str "^a.?\*\(b\)$").
Proof.
  assert (H : well_escaped (str "a?\*(b)")).
  { apply escapes_ok_well_escaped. reflexivity. }
  split; [exact H|].
  exact (proj1 (search_pattern_reads_escapes sample_compile sample_search_tab [] _ H)).
Defined.

(** *** The scan of the table *)

Lemma search_rows_some (f : text -> bool) (tab : Tab) (col : nat) (n : nat) :
  forall row r, search_rows f tab col row n = Some r ->
    row <= r < row + n /\ f (cell_text tab r col) = true
    /\ forall r', row <= r' < r -> f (cell_text tab r' col) = false.
Proof.
  induction n as [|n IH]; intros row r H; [discriminate|].
  cbn [search_rows] in H.
  destruct (f (cell_text tab row col)) eqn:E.
  - injection H as <-. split; [lia|]. split; [exact E|]. intros r' Hr. lia.
  - apply IH in H as (Hr & Hf & Hbefore). split; [lia|]. split; [exact Hf|].
    intros r' Hr'. destruct (Nat.eq_dec r' row) as [->|Hne]; [exact E|].
    apply Hbefore. lia.
Qed.

Lemma search_rows_none (f : text -> bool) (tab : Tab) (col : nat) (n : nat) :
  forall row, search_rows f tab col row n = None ->
    forall r, row <= r < row + n -> f (cell_text tab r col) = false.
Proof.
  induction n as [|n IH]; intros row H r Hr; [lia|].
  cbn [search_rows] in H.
  destruct (f (cell_text tab row col)) eqn:E; [discriminate|].
  destruct (Nat.eq_dec r row) as [->|Hne]; [exact E|].
  apply (IH (S row) H). lia.
Qed.

Lemma search_cells_some (f : text -> bool) (tab : Tab) (start : nat) (cols : list nat) :
  forall row col, search_cells f tab cols start = Some (row, col) ->
    exists before after,
      cols = before ++ col :: after
      /\ start <= row < rowCount tab
      /\ f (cell_text tab row col) = true
      /\ (forall r, start <= r < row -> f (cell_text tab r col) = false)
      /\ (forall c r, In c before -> start <= r < rowCount tab ->
                      f (cell_text tab r c) = false).
Proof.
  induction cols as [|c cols IH]; intros row col H; [discriminate|].
  cbn [search_cells] in H.
  destruct (search_rows f tab c start (rowCount tab - start)) as [r|] eqn:E.
  - injection H as <- <-. apply search_rows_some in E as (Hr & Hf & Hb).
    exists [], cols. split; [reflexivity|]. split; [lia|].
    split; [exact Hf|]. split; [exact Hb|]. intros c' r' [].
  - destruct (IH _ _ H) as (before & after & -> & Hr & Hf & Hb & Hc).
    exists (c :: before), after. split; [reflexivity|]. split; [lia|].
    split; [exact Hf|]. split; [exact Hb|].
    intros c' r' [<-|Hin] Hr'.
    + apply (search_rows_none _ _ _ _ _ E). lia.
    + apply Hc; assumption.
Qed.

Lemma search_cells_none (f : text -> bool) (tab : Tab) (start : nat) (cols : list nat) :
  search_cells f tab cols start = None ->
  forall c r, In c cols -> start <= r < rowCount tab ->
              f (cell_text tab r c) = false.
Proof.
  induction cols as [|c cols IH]; intros H c' r [] Hr.
  - subst c'. cbn [search_cells] in H.
    destruct (search_rows f tab c start (rowCount tab - start)) eqn:E;
      [discriminate|].
    apply (search_rows_none _ _ _ _ _ E). lia.
  - cbn [search_cells] in H.
    destruct (search_rows f tab c start (rowCount tab - start)) eqn:E;
      [discriminate|].
    apply IH; assumption.
Qed.

(** X3. When the pattern compiles, [Tab.search] either returns [False]
    with nothing selected, no cell of a searched column matching from the
    start row on, or returns [True] and selects the cell of the first
    searched column that has a match from the start row on, at the first
    such row of that column. *)
Theorem search_selects_first_match_below (re_compile : text -> option (text -> bool))
    (tab : Tab) (selected : list (nat * nat)) (query : text)
    (fullmatch : text -> bool) :
  well_escaped query ->
  re_compile (c_caret :: wildcard_pattern query ++ [c_dollar]) = Some fullmatch ->
  let start := start_row_of selected in
  (Tab_search re_compile tab selected query = SearchReturned (Some false) None
   /\ forall col row, In col (_search_columns tab) ->
        start <= row < rowCount tab ->
        fullmatch (cell_text tab row col) = false)
  \/ (exists row col before after,
        Tab_search re_compile tab selected query
        = SearchReturned (Some true) (Some (row, col))
        /\ _search_columns tab = before ++ col :: after
        /\ start <= row < rowCount tab
        /\ fullmatch (cell_text tab row col) = true
        /\ (forall r, start <= r < row -> fullmatch (cell_text tab r col) = false)
        /\ (forall c r, In c before -> start <= r < rowCount tab ->
                        fullmatch (cell_text tab r c) = false)).
Proof.
  intros Hq Hc start.
  destruct (search_pattern_reads_escapes re_compile tab selected query Hq)
    as [_ ->].
  rewrite Hc. fold start.
  destruct (search_cells fullmatch tab (_search_columns tab) start)
    as [[row col]|] eqn:E.
  - right. apply search_cells_some in E
      as (before & after & Hcols & Hr & Hf & Hb & Hcb).
    exists row, col, before, after.
    split; [reflexivity|]. split; [exact Hcols|]. split; [lia|].
    split; [exact Hf|]. split; [exact Hb|exact Hcb].
  - left. split; [reflexivity|].
    intros col row Hin Hr. apply (search_cells_none _ _ _ _ E); assumption.
Qed.

Lemma search_selects_first_match_below_witness :
  well_escaped (str "c*")
  /\ Tab_search sample_compile sample_search_tab [(0, 1)] (str "c*")
     = SearchReturned (Some true) (Some (2, 1)).
Proof.
  assert (Hq : well_escaped (str "c*")).
  { apply escapes_ok_well_escaped. reflexivity. }
  split; [exact Hq|].
  destruct (search_selects_first_match_below sample_compile sample_search_tab
              [(0, 1)] (str "c*")
              (fun s => match s with c :: _ => Ascii.eqb c "c"%char | [] => false end)
              Hq eq_refl) as [[H _]|(row & col & before & after & H & _)];
    reflexivity.
Defined.

(** ** The integrity checks of a tab *)

Lemma find_duplicate_none (tab : Tab) (column row : nat) (v : text) (n : nat) :
  forall r, find_duplicate tab column row v r n = None ->
    forall r', r <= r' < r + n -> isRowHidden tab r' = false -> r' <> row ->
               cell_text tab r' column <> v.
Proof.
  induction n as [|n IH]; intros r H r' Hr Hv Hne; [lia|].
  cbn [find_duplicate] in H.
  destruct (Nat.eq_dec r' r) as [->|Hr'].
  - rewrite Hv in H.
    destruct (negb (r =? row) && text_eqb (cell_text tab r column) v) eqn:E;
      [discriminate|].
    apply andb_false_iff in E as [E|E].
    + apply negb_false_iff, Nat.eqb_eq in E. contradiction.
    + apply text_eqb_neq. exact E.
  - assert (Hn : find_duplicate tab column row v (S r) n = None).
    { destruct (isRowHidden tab r); [exact H|].
      destruct (negb (r =? row) && text_eqb (cell_text tab r column) v);
        [discriminate|exact H]. }
    apply (IH (S r) Hn); [lia|exact Hv|exact Hne].
Qed.

Lemma find_duplicate_some (tab : Tab) (column row : nat) (v : text) (n : nat) :
  forall r r0, find_duplicate tab column row v r n = Some r0 ->
    r <= r0 < r + n /\ isRowHidden tab r0 = false /\ r0 <> row
    /\ cell_text tab r0 column = v
    /\ forall r', r <= r' < r0 -> isRowHidden tab r' = false -> r' <> row ->
                  cell_text tab r' column <> v.
Proof.
  induction n as [|n IH]; intros r r0 H; [discriminate|].
  cbn [find_duplicate] in H.
  destruct (isRowHidden tab r) eqn:Hh.
  - apply IH in H as (Hr & Hv & Hne & Hc & Hb).
    split; [lia|]. split; [exact Hv|]. split; [exact Hne|]. split; [exact Hc|].
    intros r' Hr' Hv' Hne'. destruct (Nat.eq_dec r' r) as [->|Hd]; [congruence|].
    apply Hb; [lia|exact Hv'|exact Hne'].
  - destruct (negb (r =? row) && text_eqb (cell_text tab r column) v) eqn:E.
    + injection H as <-. apply andb_true_iff in E as [E1 E2].
      apply negb_true_iff, Nat.eqb_neq in E1. apply text_eqb_eq in E2.
      split; [lia|]. split; [exact Hh|]. split; [exact E1|]. split; [exact E2|].
      intros r' Hr'. lia.
    + apply IH in H as (Hr & Hv & Hne & Hc & Hb).
      split; [lia|]. split; [exact Hv|]. split; [exact Hne|]. split; [exact Hc|].
      intros r' Hr' Hv' Hne'. destruct (Nat.eq_dec r' r) as [->|Hd].
      * apply andb_false_iff in E as [E|E].
        -- apply negb_false_iff, Nat.eqb_eq in E. contradiction.
        -- apply text_eqb_neq. exact E.
      * apply Hb; [lia|exact Hv'|exact Hne'].
Qed.

Lemma no_duplicate_iff (tab : Tab) (column row : nat) :
  find_duplicate tab column row (cell_text tab row column) 0 (rowCount tab) = None
  <-> forall r, r < rowCount tab -> isRowHidden tab r = false -> r <> row ->
                cell_text tab r column <> cell_text tab row column.
Proof.
  split.
  - intros H r Hr. apply (find_duplicate_none _ _ _ _ _ _ H). lia.
  - intros H.
    destruct (find_duplicate tab column row (cell_text tab row column) 0
                             (rowCount tab)) as [r0|] eqn:E; [|reflexivity].
    apply find_duplicate_some in E as (Hr & Hv & Hne & Hc & _).
    exfalso. apply (H r0); [lia|exact Hv|exact Hne|exact Hc].
Qed.

(** What one round of the outer loop does with a visible row. *)
Lemma check_rows_step (tab : Tab) (column : nat) (dup : bool) (row n : nat) :
  isRowHidden tab row = false ->
  (row_passes tab column dup row
   /\ check_rows tab column dup row (S n) = check_rows tab column dup (S row) n)
  \/ (~ row_passes tab column dup row
      /\ (check_rows tab column dup row (S n) = ColumnRaised
          \/ (check_rows tab column dup row (S n)
              = ColumnChecked _EMPTY (Z.of_nat row) (translate_empty_cell tab)
              /\ strip (cell_text tab row column) = [])
          \/ (exists message,
                check_rows tab column dup row (S n)
                = ColumnChecked _FORMAT (Z.of_nat row) message
                /\ strip (cell_text tab row column) <> []
                /\ _check_cell_format tab row column = Checked false message)
          \/ (exists r message,
                check_rows tab column dup row (S n)
                = ColumnChecked _DUPLICATE (Z.of_nat r)
                                (translate_duplicate_value tab row)
                /\ dup = true
                /\ strip (cell_text tab row column) <> []
                /\ _check_cell_format tab row column = Checked true message
                /\ find_duplicate tab column row (cell_text tab row column)
                                  0 (rowCount tab) = Some r))).
Proof.
  intros Hv. cbn [check_rows]. rewrite Hv.
  destruct (text_eqb (strip (cell_text tab row column)) []) eqn:Ee.
  - apply text_eqb_eq in Ee. right. split.
    + intros (Hne & _). contradiction.
    + right. left. split; [reflexivity|exact Ee].
  - apply text_eqb_neq in Ee.
    destruct (_check_cell_format tab row column) as [[|] message|] eqn:Ef.
    + destruct dup.
      * destruct (find_duplicate tab column row (cell_text tab row column) 0
                                 (rowCount tab)) as [r|] eqn:Ed.
        -- right. split.
           ++ intros (_ & _ & Hd). specialize (Hd eq_refl).
              apply no_duplicate_iff in Hd. congruence.
           ++ right. right. right. exists r, message. auto.
        -- left. split; [|reflexivity]. split; [exact Ee|].
           split; [exists message; exact Ef|].
           intros _. apply no_duplicate_iff. exact Ed.
      * left. split; [|reflexivity]. split; [exact Ee|].
        split; [exists message; exact Ef|]. discriminate.
    + right. split.
      * intros (_ & [m Hm] & _). congruence.
      * right. right. left. exists message. auto.
    + right. split.
      * intros (_ & [m Hm] & _). congruence.
      * left. reflexivity.
Qed.

Lemma check_rows_ok (tab : Tab) (column : nat) (dup : bool) (n : nat) :
  forall row,
    (forall r, row <= r < row + n -> isRowHidden tab r = false ->
               row_passes tab column dup r) ->
    check_rows tab column dup row n = ColumnChecked _OK (-1) [].
Proof.
  induction n as [|n IH]; intros row H; [reflexivity|].
  destruct (isRowHidden tab row) eqn:Hv.
  - cbn [check_rows]. rewrite Hv. apply IH. intros r Hr. apply H. lia.
  - destruct (check_rows_step tab column dup row n Hv) as [[_ ->]|[Hno _]].
    + apply IH. intros r Hr. apply H. lia.
    + exfalso. apply Hno. apply H; [lia|exact Hv].
Qed.

Lemma check_rows_ok_inv (tab : Tab) (column : nat) (dup : bool) (n : nat) :
  forall row z message,
    check_rows tab column dup row n = ColumnChecked _OK z message ->
    z = (-1)%Z /\ message = []
    /\ forall r, row <= r < row + n -> isRowHidden tab r = false ->
                 row_passes tab column dup r.
Proof.
  induction n as [|n IH]; intros row z message H.
  - injection H as <- <-. split; [reflexivity|]. split; [reflexivity|].
    intros r Hr. lia.
  - destruct (isRowHidden tab row) eqn:Hv.
    + cbn [check_rows] in H. rewrite Hv in H.
      apply IH in H as (Hz & Hm & Hp). split; [exact Hz|]. split; [exact Hm|].
      intros r Hr Hvr. destruct (Nat.eq_dec r row) as [->|Hne]; [congruence|].
      apply Hp; [lia|exact Hvr].
    + destruct (check_rows_step tab column dup row n Hv)
        as [[Hpass E]|[_ [E|[[E _]|[(m & E & _)|(r & m & E & _)]]]]];
        rewrite E in H; try discriminate.
      apply IH in H as (Hz & Hm & Hp). split; [exact Hz|]. split; [exact Hm|].
      intros r Hr Hvr. destruct (Nat.eq_dec r row) as [->|Hne]; [exact Hpass|].
      apply Hp; [lia|exact Hvr].
Qed.

(** X4. [_check_column] answers [_OK] exactly when every visible row
    passes: its cell is not blank, its format is accepted and, when
    duplicates are looked for, no other visible row holds the same
    text. *)
Theorem check_column_ok_iff (tab : Tab) (column : nat) (check_duplicates : bool) :
  (exists row message,
     _check_column tab column check_duplicates = ColumnChecked _OK row message)
  <-> (forall row, row < rowCount tab -> isRowHidden tab row = false ->
                   row_passes tab column check_duplicates row).
Proof.
  unfold _check_column. split.
  - intros (z & message & H). apply check_rows_ok_inv in H as (_ & _ & H).
    intros row Hr. apply H. lia.
  - intros H. exists (-1)%Z, []. apply check_rows_ok. intros r Hr. apply H. lia.
Qed.

Lemma check_rows_first_failure (tab : Tab) (column : nat) (dup : bool) (n : nat) :
  forall row status z message,
    row + n = rowCount tab ->
    (forall r, r < row -> isRowHidden tab r = false -> row_passes tab column dup r) ->
    check_rows tab column dup row n = ColumnChecked status z message ->
    status <> _OK ->
    exists bad,
      bad < rowCount tab /\ isRowHidden tab bad = false
      /\ (forall r, r < bad -> isRowHidden tab r = false ->
                    row_passes tab column dup r)
      /\ ((status = _EMPTY /\ z = Z.of_nat bad
           /\ message = translate_empty_cell tab
           /\ strip (cell_text tab bad column) = [])
          \/ (status = _FORMAT /\ z = Z.of_nat bad
              /\ strip (cell_text tab bad column) <> []
              /\ _check_cell_format tab bad column = Checked false message)
          \/ (status = _DUPLICATE /\ dup = true
              /\ message = translate_duplicate_value tab bad
              /\ strip (cell_text tab bad column) <> []
              /\ (exists m, _check_cell_format tab bad column = Checked true m)
              /\ exists twin,
                   z = Z.of_nat twin /\ bad < twin < rowCount tab
                   /\ isRowHidden tab twin = false
                   /\ cell_text tab twin column = cell_text tab bad column
                   /\ forall r, r < twin -> isRowHidden tab r = false ->
                                r <> bad ->
                                cell_text tab r column <> cell_text tab bad column)).
Proof.
  induction n as [|n IH]; intros row status z message Hn Hinv H Hs.
  - injection H as <- _ _. contradiction.
  - destruct (isRowHidden tab row) eqn:Hv.
    + cbn [check_rows] in H. rewrite Hv in H.
      apply (IH (S row) status z message); [lia| |exact H|exact Hs].
      intros r Hr Hvr. destruct (Nat.eq_dec r row) as [->|Hne]; [congruence|].
      apply Hinv; [lia|exact Hvr].
    + destruct (check_rows_step tab column dup row n Hv)
        as [[Hpass E]|[_ [E|[[E He]|[(m & E & Hne & Hf)|(r & m & E & Hd & Hne & Hf & Hr)]]]]];
        rewrite E in H.
      * apply (IH (S row) status z message); [lia| |exact H|exact Hs].
        intros r Hr Hvr. destruct (Nat.eq_dec r row) as [->|Hne]; [exact Hpass|].
        apply Hinv; [lia|exact Hvr].
      * discriminate.
      * injection H as <- <- <-. exists row.
        split; [lia|]. split; [exact Hv|]. split; [exact Hinv|].
        left. auto.
      * injection H as <- <- <-. exists row.
        split; [lia|]. split; [exact Hv|]. split; [exact Hinv|].
        right. left. auto.
      * injection H as <- <- <-. exists row.
        split; [lia|]. split; [exact Hv|]. split; [exact Hinv|].
        right. right.
        apply find_duplicate_some in Hr as (Hr & Hvr & Hrne & Hc & Hb).
        split; [reflexivity|]. split; [exact Hd|]. split; [reflexivity|].
        split; [exact Hne|]. split; [exists m; exact Hf|].
        exists r. split; [reflexivity|].
        assert (Hlt : row < r).
        { destruct (Nat.lt_ge_cases row r) as [Hlt|Hge]; [exact Hlt|].
          exfalso. assert (Hrr : r < row) by lia.
          destruct (Hinv r Hrr Hvr) as (_ & _ & Hnd).
          apply (Hnd Hd row); [lia|exact Hv|lia|]. symmetry. exact Hc. }
        split; [lia|]. split; [exact Hvr|]. split; [exact Hc|].
        intros r' Hr' Hvr' Hne'. apply Hb; [lia|exact Hvr'|exact Hne'].
Qed.

(** X5. When [_check_column] answers another status than [_OK], it reports
    the first visible row that fails, with the status of the first check
    that row fails; for a duplicate the row returned is the first other
    visible row with the same text, it lies after the failing row, and the
    message names the failing row. *)
Theorem check_column_reports_first_failure (tab : Tab) (column : nat)
    (check_duplicates : bool) (status : nat) (z : Z) (message : text) :
  _check_column tab column check_duplicates = ColumnChecked status z message ->
  status <> _OK ->
  exists bad,
    bad < rowCount tab /\ isRowHidden tab bad = false
    /\ (forall r, r < bad -> isRowHidden tab r = false ->
                  row_passes tab column check_duplicates r)
    /\ ((status = _EMPTY /\ z = Z.of_nat bad
         /\ message = translate_empty_cell tab
         /\ strip (cell_text tab bad column) = [])
        \/ (status = _FORMAT /\ z = Z.of_nat bad
            /\ strip (cell_text tab bad column) <> []
            /\ _check_cell_format tab bad column = Checked false message)
        \/ (status = _DUPLICATE /\ check_duplicates = true
            /\ message = translate_duplicate_value tab bad
            /\ strip (cell_text tab bad column) <> []
            /\ (exists m, _check_cell_format tab bad column = Checked true m)
            /\ exists twin,
                 z = Z.of_nat twin /\ bad < twin < rowCount tab
                 /\ isRowHidden tab twin = false
                 /\ cell_text tab twin column = cell_text tab bad column
                 /\ forall r, r < twin -> isRowHidden tab r = false ->
                              r <> bad ->
                              cell_text tab r column <> cell_text tab bad column)).
Proof.
  unfold _check_column. intros H Hs.
  apply (check_rows_first_failure tab column check_duplicates (rowCount tab)
           0 status z message); [reflexivity| |exact H|exact Hs].
  intros r Hr. lia.
Qed.

Lemma check_column_reports_first_failure_witness :
  exists bad, bad = 0
    /\ _check_column twin_rows_tab 1 true
       = ColumnChecked _DUPLICATE 2 (str "duplicate of row 0").
Proof.
  assert (H : _check_column twin_rows_tab 1 true
              = ColumnChecked _DUPLICATE 2 (str "duplicate of row 0"))
    by reflexivity.
  assert (Hs : _DUPLICATE <> _OK) by discriminate.
  destruct (check_column_reports_first_failure twin_rows_tab 1 true _ _ _ H Hs)
    as (bad & _).
  exists 0. split; [reflexivity|exact H].
Defined.

Lemma check_columns_true (tab : Tab) (columns : list (nat * bool)) :
  check_columns tab columns = Some true
  <-> forall col dup, In (col, dup) columns ->
        exists z message, _check_column tab col dup = ColumnChecked _OK z message.
Proof.
  induction columns as [|[c d] columns IH]; cbn [check_columns].
  - split; [intros _ col dup []|reflexivity].
  - destruct (_check_column tab c d) as [status z message|] eqn:E.
    + destruct (status =? _OK) eqn:Es.
      * apply Nat.eqb_eq in Es. subst status. rewrite IH. split.
        -- intros H col dup [Heq|Hin].
           ++ injection Heq as <- <-. exists z, message. exact E.
           ++ apply H. exact Hin.
        -- intros H col dup Hin. apply H. right. exact Hin.
      * apply Nat.eqb_neq in Es. split; [discriminate|].
        intros H. destruct (H c d (or_introl eq_refl)) as (z' & m' & E').
        rewrite E in E'. injection E' as -> _ _. contradiction.
    + split; [discriminate|].
      intros H. destruct (H c d (or_introl eq_refl)) as (z' & m' & E').
      rewrite E in E'. discriminate.
Qed.

(** X6. [check_integrity] of the tab of the compound tags answers [True]
    exactly when every visible row holds a label that is not blank, is
    well formed, is taken by no other tag and by no other visible row, and
    a definition that is not blank and that compiles. *)
Theorem compound_tags_integrity (Expr : Type) (tab : tags_tab Expr) (rows : nat)
    (hidden : nat -> bool) (header empty_cell : text)
    (duplicate_value : nat -> text) :
  check_integrity (CompoundTagsTab tab rows hidden header empty_cell duplicate_value)
  = Some true
  <-> forall row, row < rows -> hidden row = false ->
        strip (item_text tab row 1) <> []
        /\ label_pattern_match tab (item_text tab row 1) = true
        /\ (exists tag_id, int_of_text tab (item_text tab row 0) = Some tag_id
                           /\ tag_exists tab tag_id (item_text tab row 1) = false)
        /\ (forall r, r < rows -> hidden r = false -> r <> row ->
                      item_text tab r 1 <> item_text tab row 1)
        /\ strip (item_text tab row 2) <> []
        /\ (exists expr, tab_query_to_sympy tab (item_text tab row 2) false
                         = Compiled expr).
Proof.
  set (T := CompoundTagsTab tab rows hidden header empty_cell duplicate_value).
  unfold check_integrity. rewrite check_columns_true.
  change (_columns_to_check T) with [(1, true); (2, false)].
  assert (H1 : forall row,
             row_passes T 1 true row
             <-> strip (item_text tab row 1) <> []
                 /\ label_pattern_match tab (item_text tab row 1) = true
                 /\ (exists tag_id, int_of_text tab (item_text tab row 0) = Some tag_id
                        /\ tag_exists tab tag_id (item_text tab row 1) = false)
                 /\ (forall r, r < rows -> hidden r = false -> r <> row ->
                               item_text tab r 1 <> item_text tab row 1)).
  { intros row. unfold row_passes.
    change (cell_text T) with (item_text tab).
    change (rowCount T) with rows. change (isRowHidden T) with hidden.
    change (_check_cell_format T row 1)
      with (fst (CompoundTagsTab_check_cell_format tab row 1)).
    unfold CompoundTagsTab_check_cell_format, TagsTab_check_cell_format.
    cbn [Nat.eqb].
    destruct (label_pattern_match tab (item_text tab row 1)); cbn [negb].
    - destruct (int_of_text tab (item_text tab row 0)) as [tag_id|].
      + destruct (tag_exists tab tag_id (item_text tab row 1)) eqn:Et; cbn [fst].
        * split.
          -- intros (_ & [m Hm] & _). congruence.
          -- intros (_ & _ & (i & Hi & He) & _). injection Hi as <-. congruence.
        * split.
          -- intros (Hne & _ & Hd). split; [exact Hne|]. split; [reflexivity|].
             split; [exists tag_id; auto|]. apply Hd. reflexivity.
          -- intros (Hne & _ & _ & Hd). split; [exact Hne|].
             split; [exists []; reflexivity|]. intros _. exact Hd.
      + cbn [fst]. split.
        * intros (_ & [m Hm] & _). congruence.
        * intros (_ & _ & (i & Hi & _) & _). congruence.
    - cbn [fst]. split.
      + intros (_ & [m Hm] & _). congruence.
      + intros (_ & Hl & _). congruence. }
  assert (H2 : forall row,
             row_passes T 2 false row
             <-> strip (item_text tab row 2) <> []
                 /\ (exists expr, tab_query_to_sympy tab (item_text tab row 2) false
                                  = Compiled expr)).
  { intros row. unfold row_passes.
    change (cell_text T) with (item_text tab).
    change (_check_cell_format T row 2)
      with (fst (CompoundTagsTab_check_cell_format tab row 2)).
    unfold CompoundTagsTab_check_cell_format, TagsTab_check_cell_format.
    cbn [Nat.eqb].
    destruct (tab_query_to_sympy tab (item_text tab row 2) false) as [expr|e];
      cbn [fst].
    - split.
      + intros (Hne & _). split; [exact Hne|]. exists expr. reflexivity.
      + intros (Hne & _). split; [exact Hne|].
        split; [exists []; reflexivity|]. discriminate.
    - split.
      + intros (_ & [m Hm] & _). congruence.
      + intros (_ & [expr He]). congruence. }
  split.
  - intros H row Hr Hv.
    pose proof (proj1 (check_column_ok_iff T 1 true)
                  (H 1 true (or_introl eq_refl)) row Hr Hv) as Q1.
    pose proof (proj1 (check_column_ok_iff T 2 false)
                  (H 2 false (or_intror (or_introl eq_refl))) row Hr Hv) as Q2.
    apply H1 in Q1. apply H2 in Q2.
    destruct Q1 as (A & B & C & D). destruct Q2 as (E & F).
    repeat split; assumption.
  - intros H col dup [Heq|[Heq|[]]]; injection Heq as <- <-;
      apply check_column_ok_iff; intros row Hr Hv;
      destruct (H row Hr Hv) as (A & B & C & D & E & F).
    + apply H1. auto.
    + apply H2. auto.
Qed.

(** ** The rows a tab has to save *)

Lemma new_rows_consistent (n : nat) : rows_consistent (new_rows n).
Proof.
  unfold rows_consistent, new_rows. cbn.
  repeat split; try constructor; try (intros r H; tauto); try tauto.
Qed.

Lemma row_step_consistent (op : row_op) (self : tab_rows) :
  rows_consistent self -> op_in_table op self ->
  rows_consistent (row_step op self).
Proof.
  intros (Na & Nc & Nd & Hlt & Hadd & Hdel) Hop.
  destruct op as [|sel confirmed|row differs]; cbn [row_step].
  - (* add_row *)
    unfold rows_consistent, add_row. cbn.
    split; [apply set_add_nodup; exact Na|].
    split; [exact Nc|]. split; [exact Nd|].
    split.
    { intros r [H|H].
      - apply set_add_iff in H as [->|H]; [lia|].
        specialize (Hlt r (or_introl H)). lia.
      - assert (r < row_count self); [|lia]. apply Hlt. tauto. }
    split.
    { intros r H. apply set_add_iff in H as [->|H].
      - repeat split; intros H';
          [specialize (Hlt _ (or_intror (or_introl H')))
          |specialize (Hlt _ (or_intror (or_intror (or_introl H'))))
          |specialize (Hlt _ (or_intror (or_intror (or_intror H'))))]; lia.
      - apply Hadd. exact H. }
    exact Hdel.
  - (* delete_selected_rows *)
    cbn in Hop. destruct Hop as [Nsel Hsel].
    unfold delete_selected_rows.
    destruct ((0 <? length sel) && confirmed); cbn [fst];
      [|unfold rows_consistent; tauto].
    unfold rows_consistent. cbn.
    split; [apply set_diff_nodup; assumption|].
    split; [apply set_diff_nodup; assumption|].
    split; [apply set_union_nodup; [exact Nd|apply set_diff_nodup; assumption]|].
    split.
    { intros r [H|[H|[H|H]]].
      - apply set_diff_iff in H as [H _]. apply Hlt. tauto.
      - apply set_diff_iff in H as [H _]. apply Hlt. tauto.
      - apply set_union_iff in H as [H|H]; [apply Hlt; tauto|].
        apply set_diff_iff in H as [H _]. apply Hsel. exact H.
      - apply set_union_iff in H as [H|H]; [apply Hlt; tauto|].
        apply Hsel. exact H. }
    split.
    { intros r H. apply set_diff_iff in H as [H Hns].
      destruct (Hadd r H) as (Hc & Hd & Hh).
      split; [intros H'; apply set_diff_iff in H' as [H' _]; contradiction|].
      split.
      - intros H'. apply set_union_iff in H' as [H'|H']; [contradiction|].
        apply set_diff_iff in H' as [H' _]. contradiction.
      - intros H'. apply set_union_iff in H' as [H'|H']; contradiction. }
    intros r H. apply set_union_iff. apply set_union_iff in H as [H|H].
    + left. apply Hdel. exact H.
    + right. apply set_diff_iff in H as [H _]. exact H.
  - (* _cell_edited *)
    cbn in Hop. unfold _cell_edited. cbn [andb].
    destruct (set_mem Nat.eq_dec row (_added_rows self)) eqn:Ea;
      [unfold rows_consistent; tauto|].
    apply set_mem_complete1 in Ea.
    destruct differs.
    + unfold rows_consistent. cbn.
      split; [exact Na|]. split; [apply set_add_nodup; exact Nc|].
      split; [exact Nd|].
      split.
      { intros r [H|[H|H]].
        - apply Hlt. tauto.
        - apply set_add_iff in H as [->|H]; [exact Hop|apply Hlt; tauto].
        - apply Hlt. tauto. }
      split; [|exact Hdel].
      intros r H. destruct (Hadd r H) as (Hc & Hd & Hh).
      split; [|tauto].
      intros H'. apply set_add_iff in H' as [->|H']; contradiction.
    + destruct (set_mem Nat.eq_dec row (_changed_rows self)) eqn:Ec;
        [|unfold rows_consistent; tauto].
      unfold rows_consistent. cbn.
      split; [exact Na|]. split; [apply set_remove_nodup; exact Nc|].
      split; [exact Nd|].
      split.
      { intros r [H|[H|H]].
        - apply Hlt. tauto.
        - apply set_remove_iff in H as [H _]; [apply Hlt; tauto|exact Nc].
        - apply Hlt. tauto. }
      split; [|exact Hdel].
      intros r H. destruct (Hadd r H) as (Hc & Hd & Hh).
      split; [|tauto].
      intros H'. apply set_remove_iff in H' as [H' _]; [contradiction|exact Nc].
Qed.

(** X7. Whatever the user does to the rows of a tab, adding rows, deleting
    selected rows and editing cells, the sets of added, changed and
    deleted rows stay consistent: a row added since the last save is
    never among the changed or the deleted rows, nor hidden, and every
    deleted row is hidden. *)
Theorem rows_stay_consistent (n : nat) (ops : list row_op) :
  ops_in_table ops (new_rows n) ->
  rows_consistent (run_ops ops (new_rows n)).
Proof.
  unfold run_ops. generalize (new_rows_consistent n).
  generalize (new_rows n) as self. induction ops as [|op ops IH]; intros self Hc H.
  - exact Hc.
  - destruct H as [Hop H]. cbn [fold_left]. apply IH; [|exact H].
    apply row_step_consistent; assumption.
Qed.

Lemma rows_stay_consistent_witness :
  rows_consistent
    (run_ops [AddRow; CellEdited 0 true; DeleteSelectedRows [2; 1] true]
             (new_rows 2)).
Proof.
  apply (rows_stay_consistent 2
           [AddRow; CellEdited 0 true; DeleteSelectedRows [2; 1] true]).
  cbn. split; [exact I|]. split; [lia|]. split; [|exact I]. split.
  - repeat constructor; cbn; intuition lia.
  - intros r [<-|[<-|[]]]; lia.
Defined.

(** X8. A row that is added and then deleted before the tab is saved leaves
    no trace: the sets of added, changed and deleted rows hold the rows
    they held before, and the number of modified rows is the same. *)
Theorem added_then_deleted_leaves_no_trace (self : tab_rows) :
  rows_consistent self ->
  let after :=
    fst (delete_selected_rows [row_count self] true (add_row self)) in
  (forall r, In r (_added_rows after) <-> In r (_added_rows self))
  /\ (forall r, In r (_changed_rows after) <-> In r (_changed_rows self))
  /\ (forall r, In r (_deleted_rows after) <-> In r (_deleted_rows self))
  /\ In (row_count self) (hidden_rows after).
Proof.
  intros (Na & Nc & Nd & Hlt & Hadd & Hdel) after.
  unfold after, delete_selected_rows, add_row. cbn.
  assert (Hfresh : forall r, In r (_added_rows self) \/ In r (_changed_rows self)
                             \/ In r (_deleted_rows self) ->
                             r <> row_count self).
  { intros r H Heq. assert (r < row_count self); [apply Hlt; tauto|lia]. }
  split.
  { intros r. rewrite set_diff_iff, set_add_iff. cbn. split.
    - intros [[->|H] Hn]; [exfalso; apply Hn; left; reflexivity|exact H].
    - intros H. split; [right; exact H|].
      intros [Heq|[]]. apply (Hfresh r); [tauto|congruence]. }
  split.
  { intros r. rewrite set_diff_iff. cbn. split.
    - intros [H _]. exact H.
    - intros H. split; [exact H|].
      intros [Heq|[]]. apply (Hfresh r); [tauto|congruence]. }
  split.
  { intros r.
    rewrite (set_mem_correct2 Nat.eq_dec _ _
               (set_add_intro2 Nat.eq_dec (_added_rows self) eq_refl)).
    reflexivity. }
  apply set_add_iff. left. reflexivity.
Qed.

Lemma added_then_deleted_leaves_no_trace_witness :
  rows_consistent (new_rows 2)
  /\ In 2 (hidden_rows (fst (delete_selected_rows [2] true (add_row (new_rows 2))))).
Proof.
  split; [apply new_rows_consistent|].
  apply (added_then_deleted_leaves_no_trace (new_rows 2) (new_rows_consistent 2)).
Defined.

(** ** Saving the rows *)

Lemma apply_rows_spec (S : Type) (op : nat -> S -> option (bool * S))
    (rows : list nat) :
  forall s ok keep s',
    apply_rows op rows s = Some (ok, keep, s') ->
    (ok = true <-> keep = []) /\ (forall r, In r keep -> In r rows).
Proof.
  induction rows as [|row rows IH]; intros s ok keep s' H; cbn [apply_rows] in H.
  - injection H as <- <- <-. split; [tauto|]. intros r [].
  - destruct (op row s) as [[res s1]|]; [|discriminate].
    destruct (apply_rows op rows s1) as [[[ok0 keep0] s2]|] eqn:E; [|discriminate].
    injection H as <- <- <-. destruct (IH _ _ _ _ E) as [Hok Hin].
    destruct res; cbn [andb].
    + split; [exact Hok|]. intros r H. right. apply Hin. exact H.
    + split; [split; discriminate|].
      intros r [<-|H]; [left; reflexivity|right; apply Hin; exact H].
Qed.

Lemma apply_sets_spec (S Value : Type)
    (add update : option Value -> S -> bool * S) (delete : Z -> S -> bool * S)
    (get_value : nat -> S -> option Value) (value_id : Value -> Z)
    (self : tab_rows) (s : S) (ok : bool) (self' : tab_rows) (s' : S) :
  apply_sets add update delete get_value value_id self s = Some (ok, self', s') ->
  (ok = true <-> modified_rows_number self' = 0)
  /\ (forall r, In r (_added_rows self') -> In r (_added_rows self))
  /\ (forall r, In r (_deleted_rows self') -> In r (_deleted_rows self))
  /\ (forall r, In r (_changed_rows self') -> In r (_changed_rows self))
  /\ row_count self' = row_count self
  /\ hidden_rows self' = hidden_rows self.
Proof.
  unfold apply_sets. intros H.
  destruct (apply_rows _ (_added_rows self) s) as [[[ok1 keep1] s1]|] eqn:E1;
    [|discriminate].
  destruct (apply_rows _ (_deleted_rows self) s1) as [[[ok2 keep2] s2]|] eqn:E2;
    [|discriminate].
  destruct (apply_rows _ (_changed_rows self) s2) as [[[ok3 keep3] s3]|] eqn:E3;
    [|discriminate].
  injection H as <- <- <-.
  apply apply_rows_spec in E1 as [Hok1 Hin1].
  apply apply_rows_spec in E2 as [Hok2 Hin2].
  apply apply_rows_spec in E3 as [Hok3 Hin3].
  unfold modified_rows_number. cbn.
  split; [|auto].
  rewrite !andb_true_iff, Hok1, Hok2, Hok3. split.
  - intros [[-> ->] ->]. reflexivity.
  - intros H. destruct keep1, keep2, keep3; cbn in H; try lia. auto.
Qed.

(** X9. When [apply] of a tab returns, it answers [True] exactly when no
    modified row is left in its three sets; the rows left are rows that
    were there before, and the table is as it was. *)
Theorem apply_reports_pending_rows (S TypeValue TagValue : Type)
    (dao : tags_dao S TypeValue TagValue)
    (type_value : nat -> S -> option TypeValue) (type_id : TypeValue -> Z)
    (tag_value : nat -> S -> option TagValue) (tag_id : TagValue -> Z)
    (self : tab_rows) (s : S) (ok : bool) (self' : tab_rows) (s' : S) :
  TagTypesTab_apply dao type_value type_id self s = Some (ok, self', s')
  \/ TagsTab_apply dao tag_value tag_id self s = Some (ok, self', s') ->
  (ok = true <-> modified_rows_number self' = 0)
  /\ (forall r, In r (_added_rows self') -> In r (_added_rows self))
  /\ (forall r, In r (_deleted_rows self') -> In r (_deleted_rows self))
  /\ (forall r, In r (_changed_rows self') -> In r (_changed_rows self))
  /\ row_count self' = row_count self
  /\ hidden_rows self' = hidden_rows self.
Proof.
  intros [H|H]; exact (apply_sets_spec _ _ _ _ _ _ _ _ _ _ _ _ H).
Qed.

Lemma apply_reports_pending_rows_witness :
  exists self' s',
    TagTypesTab_apply sample_dao (fun row _ => Some (Z.of_nat row + 6)%Z)
                      (fun v => v) (types_rows sample_tabs) 0
    = Some (false, self', s')
    /\ (false = true <-> modified_rows_number self' = 0).
Proof.
  eexists. eexists. split; [reflexivity|].
  exact (proj1 (apply_reports_pending_rows nat Z Z sample_dao
                  (fun row _ => Some (Z.of_nat row + 6)%Z) (fun v => v)
                  (fun row _ => Some 0%Z) (fun v => v)
                  (types_rows sample_tabs) 0 _ _ _ (or_introl eq_refl))).
Defined.

(** X10. [EditTagsDialog._apply] always returns [True]. It shows the error
    of saving exactly when some modified row is left in one of the three
    tabs, and it disables the Apply button exactly when it shows no
    error. The tabs are saved in their order and only as long as each one
    is saved completely: when the tag types are not, the compound tags
    and the tags are left as they were and the database holds what the
    tab of the tag types made of it; when the compound tags are not, the
    tags are left as they were. *)
Theorem dialog_apply_stops_at_first_failure (S TypeValue TagValue : Type)
    (dao : tags_dao S TypeValue TagValue)
    (type_value : nat -> S -> option TypeValue) (type_id : TypeValue -> Z)
    (compound_value tag_value : nat -> S -> option TagValue)
    (tag_id : TagValue -> Z)
    (tabs : editor_tabs) (s : S) (r : applied S) :
  EditTagsDialog_apply dao type_value type_id compound_value tag_value tag_id
                       tabs s = Some r ->
  returned r = true
  /\ apply_disabled r = negb (error_shown r)
  /\ (error_shown r = false
      <-> modified_rows_number (types_rows (tabs_after r)) = 0
          /\ modified_rows_number (compound_rows (tabs_after r)) = 0
          /\ modified_rows_number (tags_rows (tabs_after r)) = 0)
  /\ exists ok1 types' s1,
       TagTypesTab_apply dao type_value type_id (types_rows tabs) s
       = Some (ok1, types', s1)
       /\ types_rows (tabs_after r) = types'
       /\ (ok1 = false ->
           compound_rows (tabs_after r) = compound_rows tabs
           /\ tags_rows (tabs_after r) = tags_rows tabs
           /\ dao_after r = s1)
       /\ (ok1 = true ->
           exists ok2 compound' s2,
             TagsTab_apply dao compound_value tag_id (compound_rows tabs) s1
             = Some (ok2, compound', s2)
             /\ compound_rows (tabs_after r) = compound'
             /\ (ok2 = false ->
                 tags_rows (tabs_after r) = tags_rows tabs /\ dao_after r = s2)).
Proof.
  unfold EditTagsDialog_apply. intros H.
  destruct (TagTypesTab_apply dao type_value type_id (types_rows tabs) s)
    as [[[ok1 types'] s1]|] eqn:E1; [|discriminate].
  pose proof (apply_sets_spec _ _ _ _ _ _ _ _ _ _ _ _ E1) as [P1 _].
  destruct ok1; cbn [negb] in H.
  - destruct (TagsTab_apply dao compound_value tag_id (compound_rows tabs) s1)
      as [[[ok2 compound'] s2]|] eqn:E2; [|discriminate].
    pose proof (apply_sets_spec _ _ _ _ _ _ _ _ _ _ _ _ E2) as [P2 _].
    destruct ok2; cbn [negb] in H.
    + destruct (TagsTab_apply dao tag_value tag_id (tags_rows tabs) s2)
        as [[[ok3 tags'] s3]|] eqn:E3; [|discriminate].
      pose proof (apply_sets_spec _ _ _ _ _ _ _ _ _ _ _ _ E3) as [P3 _].
      injection H as <-. cbn.
      split; [reflexivity|]. split; [symmetry; apply negb_involutive|]. split.
      * rewrite negb_false_iff, P3. split.
        -- intros H. split; [apply P1; reflexivity|].
           split; [apply P2; reflexivity|exact H].
        -- intros (_ & _ & H). exact H.
      * exists true, types', s1. split; [reflexivity|]. split; [reflexivity|].
        split; [discriminate|]. intros _.
        exists true, compound', s2. split; [exact E2|]. split; [reflexivity|].
        discriminate.
    + injection H as <-. cbn.
      split; [reflexivity|]. split; [reflexivity|]. split.
      * split; [discriminate|]. intros (_ & H & _). apply P2 in H. discriminate.
      * exists true, types', s1. split; [reflexivity|]. split; [reflexivity|].
        split; [discriminate|]. intros _.
        exists false, compound', s2. split; [exact E2|]. split; [reflexivity|].
        intros _. split; reflexivity.
  - injection H as <-. cbn.
    split; [reflexivity|]. split; [reflexivity|]. split.
    + split; [discriminate|]. intros (H & _). apply P1 in H. discriminate.
    + exists false, types', s1. split; [reflexivity|]. split; [reflexivity|].
      split; [|discriminate]. intros _. repeat split.
Qed.

Lemma dialog_apply_stops_at_first_failure_witness :
  exists r,
    EditTagsDialog_apply sample_dao (fun row _ => Some (Z.of_nat row + 6)%Z)
                         (fun v => v) (fun row _ => Some 0%Z)
                         (fun row _ => Some 0%Z) (fun v => v) sample_tabs 0
    = Some r
    /\ returned r = true.
Proof.
  eexists. split; [reflexivity|].
  exact (proj1 (dialog_apply_stops_at_first_failure nat Z Z sample_dao
                  (fun row _ => Some (Z.of_nat row + 6)%Z) (fun v => v)
                  (fun row _ => Some 0%Z) (fun row _ => Some 0%Z) (fun v => v)
                  sample_tabs 0 _ eq_refl)).
Defined.

(** ** The items of the comboboxes *)

Lemma decimal_value_of_uint (u : uint) (acc : nat) :
  fold_left (fun a d => 10 * a + digit_value d)
            (list_ascii_of_string (NilEmpty.string_of_uint u)) acc
  = Nat.of_uint_acc u acc.
Proof.
  revert acc. induction u; intros acc; cbn [NilEmpty.string_of_uint
    list_ascii_of_string fold_left Nat.of_uint_acc]; try reflexivity;
    rewrite IHu; f_equal; rewrite Nat.tail_mul_spec;
    unfold digit_value, code; cbn [nat_of_ascii]; vm_compute Nat.sub; lia.
Qed.

Lemma decimal_value_str_of_nat (n : nat) : decimal_value (str_of_nat n) = n.
Proof.
  unfold decimal_value, str_of_nat.
  transitivity (Nat.of_uint (Nat.to_uint n)); [|apply Unsigned.of_to].
  unfold Nat.of_uint, NilZero.string_of_uint.
  destruct (Nat.to_uint n); [reflexivity|..]; apply decimal_value_of_uint.
Qed.

Lemma str_of_nat_inj (a b : nat) : str_of_nat a = str_of_nat b -> a = b.
Proof.
  intros H. rewrite <- (decimal_value_str_of_nat a), H.
  apply decimal_value_str_of_nat.
Qed.

Lemma digit_not_minus (c : ascii) : is_digit c = true -> c <> c_minus.
Proof. all_chars c. Qed.

Lemma digit_not_space_char (c : ascii) :
  is_digit c = true -> is_not_space_char c = true.
Proof. all_chars c. Qed.

Lemma str_of_nat_head (n : nat) :
  exists c rest, str_of_nat n = c :: rest /\ is_digit c = true.
Proof.
  pose proof (str_of_nat_digits n) as H. pose proof (str_of_nat_not_nil n) as N.
  destruct (str_of_nat n) as [|c rest]; [contradiction|].
  exists c, rest. split; [reflexivity|].
  cbn [forallb] in H. apply andb_true_iff in H. tauto.
Qed.

Lemma str_of_int_inj (a b : Z) : str_of_int a = str_of_int b -> a = b.
Proof.
  unfold str_of_int.
  destruct (Z.ltb_spec a 0) as [Ha|Ha], (Z.ltb_spec b 0) as [Hb|Hb]; intros H.
  - injection H as H. apply str_of_nat_inj in H. lia.
  - destruct (str_of_nat_head (Z.to_nat b)) as (c & rest & E & D).
    rewrite E in H. injection H as <- _. apply digit_not_minus in D. congruence.
  - destruct (str_of_nat_head (Z.to_nat a)) as (c & rest & E & D).
    rewrite E in H. injection H as -> _. apply digit_not_minus in D. congruence.
  - apply str_of_nat_inj in H. lia.
Qed.

Lemma str_of_int_no_space (n : Z) :
  forallb is_not_space_char (str_of_int n) = true.
Proof.
  unfold str_of_int. destruct (n <? 0)%Z; cbn [forallb];
    [change (is_not_space_char c_minus) with true; cbn [andb]|];
    apply (forallb_weaken is_digit); try apply str_of_nat_digits;
    apply digit_not_space_char.
Qed.

(** A run of characters other than the space, up to a space, is read in
    one way only. *)
Lemma run_to_space_unique (a b x y : text) :
  forallb is_not_space_char a = true -> forallb is_not_space_char b = true ->
  a ++ c_space :: x = b ++ c_space :: y -> a = b /\ x = y.
Proof.
  revert b. induction a as [|c a IH]; intros [|d b] Ha Hb H; cbn in *.
  - injection H as ->. tauto.
  - injection H as <- _. apply andb_true_iff in Hb as [Hb _].
    unfold is_not_space_char in Hb. rewrite Ascii.eqb_refl in Hb. discriminate.
  - injection H as -> _. apply andb_true_iff in Ha as [Ha _].
    unfold is_not_space_char in Ha. rewrite Ascii.eqb_refl in Ha. discriminate.
  - injection H as -> H. apply andb_true_iff in Ha as [_ Ha].
    apply andb_true_iff in Hb as [_ Hb].
    destruct (IH b Ha Hb H) as [-> ->]. tauto.
Qed.

Lemma combo_text_prefix (a b : Z) (label : text) :
  starts_with (str_of_int a ++ [c_space]) (_get_combo_text b label)
  = (b =? a)%Z.
Proof.
  unfold _get_combo_text.
  destruct (Z.eqb_spec b a) as [->|N].
  - change (str " - " ++ label) with ([c_space] ++ (c_minus :: c_space :: label)).
    rewrite app_assoc. apply starts_with_app.
  - destruct (starts_with _ _) eqn:E; [|reflexivity].
    apply starts_with_inv in E as [r E]. rewrite <- app_assoc in E. cbn in E.
    change (str_of_int b ++ c_space :: c_minus :: c_space :: label
            = str_of_int a ++ c_space :: r) in E.
    apply run_to_space_unique in E as [E _]; try apply str_of_int_no_space.
    apply str_of_int_inj in E. congruence.
Qed.

(** ** Reading an item back *)

Lemma rx_star_sound (R : Type) (p : ascii -> bool)
    (k : text -> text -> option R) (s : text) :
  forall taken r, rx_star p k taken s = Some r ->
    exists ds rest, s = ds ++ rest /\ forallb p ds = true
                    /\ k (taken ++ ds) rest = Some r.
Proof.
  induction s as [|c s IH]; intros taken r H; cbn [rx_star] in H.
  - exists [], []. cbn [app]. rewrite app_nil_r. auto.
  - destruct (p c) eqn:Pc.
    + destruct (rx_star p k (taken ++ [c]) s) as [r'|] eqn:E.
      * injection H as <-. destruct (IH _ _ E) as (ds & rest & -> & Hds & Hk).
        exists (c :: ds), rest. cbn [forallb]. rewrite Pc, Hds.
        rewrite <- app_assoc in Hk. auto.
      * exists [], (c :: s). cbn [app]. rewrite app_nil_r. auto.
    + exists [], (c :: s). cbn [app]. rewrite app_nil_r. auto.
Qed.

Lemma rx_plus_sound (R : Type) (p : ascii -> bool)
    (k : text -> text -> option R) (s : text) (r : R) :
  rx_plus p k s = Some r ->
  exists ds rest, s = ds ++ rest /\ ds <> [] /\ forallb p ds = true
                  /\ k ds rest = Some r.
Proof.
  unfold rx_plus. destruct s as [|c s]; [discriminate|].
  destruct (p c) eqn:Pc; [|discriminate]. intros H.
  apply rx_star_sound in H as (ds & rest & -> & Hds & Hk).
  exists (c :: ds), rest. cbn [forallb]. rewrite Pc, Hds.
  repeat split; [discriminate|exact Hk].
Qed.

(** The greedy star takes the whole run when the rest of the pattern
    agrees. *)
Lemma rx_star_whole_run (R : Type) (p : ascii -> bool)
    (k : text -> text -> option R) (ds rest : text) (r : R) :
  forallb p ds = true ->
  forall taken, k (taken ++ ds) rest = Some r ->
    match rest with c :: _ => p c = false | [] => True end ->
    rx_star p k taken (ds ++ rest) = Some r.
Proof.
  intros Hds. induction ds as [|d ds IH]; intros taken Hk Hrest.
  - rewrite app_nil_r in Hk. cbn [app].
    destruct rest as [|c rest]; cbn [rx_star]; [exact Hk|].
    rewrite Hrest. exact Hk.
  - cbn [forallb] in Hds. apply andb_true_iff in Hds as [Pd Hds].
    cbn [app rx_star]. rewrite Pd.
    rewrite (IH Hds (taken ++ [d])); [reflexivity| |exact Hrest].
    rewrite <- app_assoc. exact Hk.
Qed.

Lemma rx_plus_whole_run (R : Type) (p : ascii -> bool)
    (k : text -> text -> option R) (ds rest : text) (r : R) :
  ds <> [] -> forallb p ds = true -> k ds rest = Some r ->
  match rest with c :: _ => p c = false | [] => True end ->
  rx_plus p k (ds ++ rest) = Some r.
Proof.
  intros N Hds Hk Hrest. destruct ds as [|d ds]; [contradiction|].
  cbn [forallb] in Hds. apply andb_true_iff in Hds as [Pd Hds].
  cbn [app rx_plus]. rewrite Pd.
  apply rx_star_whole_run; assumption.
Qed.

(** What a match of [COMBO_ITEM_PATTERN] looks like. *)
Lemma combo_item_re_sound (s g1 g2 : text) :
  combo_item_re s = Some (g1, g2) ->
  g1 <> [] /\ forallb is_digit g1 = true
  /\ g2 <> [] /\ forallb is_dot g2 = true
  /\ exists tail, at_dollar tail = true /\ s = g1 ++ str " - " ++ g2 ++ tail.
Proof.
  unfold combo_item_re. intros H.
  apply rx_plus_sound in H as (ds & rest & -> & N1 & D1 & H).
  unfold rx_literal in H.
  destruct (starts_with (str " - ") rest) eqn:L; [|discriminate].
  apply starts_with_inv in L as [rest' ->].
  rewrite skipn_app_length in H.
  apply rx_plus_sound in H as (ls & tail & -> & N2 & D2 & H).
  destruct (at_dollar tail) eqn:A; [|discriminate].
  injection H as <- <-. repeat split; try assumption.
  exists tail. split; [exact A|reflexivity].
Qed.

Lemma combo_item_re_complete (n : nat) (label : text) :
  label <> [] -> forallb is_dot label = true ->
  combo_item_re (_get_combo_text (Z.of_nat n) label)
  = Some (str_of_nat n, label).
Proof.
  intros N D. unfold _get_combo_text, str_of_int, combo_item_re.
  destruct (Z.ltb_spec (Z.of_nat n) 0) as [H|_]; [lia|].
  rewrite Nat2Z.id.
  apply rx_plus_whole_run;
    [apply str_of_nat_not_nil|apply str_of_nat_digits| |reflexivity].
  unfold rx_literal. rewrite starts_with_app, skipn_app_length.
  rewrite <- (app_nil_r label) at 1.
  apply rx_plus_whole_run; [exact N|exact D|reflexivity|exact I].
Qed.

(** X11. The text [_get_combo_text] makes of an identifier and a label is
    read back by [_id_from_combo] and [_label_from_combo] as that
    identifier and that label exactly when the identifier is not
    negative and the label is not empty and holds no newline. With a
    negative identifier or an empty label both answer [None]. *)
Theorem combo_text_round_trip (ident : Z) (label : text) :
  ((_id_from_combo (_get_combo_text ident label) = Some ident
    /\ _label_from_combo (_get_combo_text ident label) = Some label)
   <-> (0 <= ident)%Z /\ label <> [] /\ forallb is_dot label = true)
  /\ ((ident < 0)%Z \/ label = [] ->
      _id_from_combo (_get_combo_text ident label) = None
      /\ _label_from_combo (_get_combo_text ident label) = None).
Proof.
  unfold _id_from_combo, _label_from_combo, combo_item_search. split.
  - split.
    + destruct (combo_item_re (_get_combo_text ident label)) as [[g1 g2]|] eqn:E;
        [|intros [H _]; discriminate].
      intros [H1 H2]. injection H1 as H1. injection H2 as H2.
      apply combo_item_re_sound in E as (_ & _ & N & D & _).
      subst g2. split; [lia|]. split; assumption.
    + intros (Hi & N & D). rewrite <- (Z2Nat.id ident Hi).
      rewrite (combo_item_re_complete _ _ N D), decimal_value_str_of_nat.
      split; reflexivity.
  - intros H.
    destruct (combo_item_re (_get_combo_text ident label)) as [[g1 g2]|] eqn:E;
      [exfalso|split; reflexivity].
    apply combo_item_re_sound in E as (N1 & D1 & N2 & D2 & tail & _ & E).
    unfold _get_combo_text in E. destruct H as [H| ->].
    + unfold str_of_int in E. destruct (Z.ltb_spec ident 0) as [_|H']; [|lia].
      destruct g1 as [|c g1]; [contradiction|]. injection E as <- _.
      cbn [forallb] in D1. apply andb_true_iff in D1 as [D1 _].
      apply digit_not_minus in D1. congruence.
    + change (str_of_int ident ++ c_space :: [c_minus; c_space]
              = g1 ++ c_space :: c_minus :: c_space :: g2 ++ tail) in E.
      apply run_to_space_unique in E as [_ E];
        [|apply str_of_int_no_space
         |apply (forallb_weaken is_digit); [apply digit_not_space_char|exact D1]].
      injection E as E. destruct g2; [contradiction|discriminate].
Qed.

(** ** Renaming a tag type in the comboboxes *)

Lemma relabel_absent (ident : Z) (label : text) (types : list (Z * text)) :
  ~ In ident (map fst types) -> relabel ident label types = types.
Proof.
  induction types as [|[i l] types IH]; intros H; [reflexivity|].
  cbn [relabel map fst] in *. destruct (Z.eqb_spec i ident) as [->|N].
  - exfalso. apply H. left. reflexivity.
  - f_equal. apply IH. intros H'. apply H. right. exact H'.
Qed.

Lemma set_first_item_types (ident : Z) (label : text) (types : list (Z * text)) :
  NoDup (map fst types) ->
  set_first_item (str_of_int ident ++ [c_space]) (_get_combo_text ident label)
                 (map (fun ty => _get_combo_text (fst ty) (snd ty)) types)
  = map (fun ty => _get_combo_text (fst ty) (snd ty)) (relabel ident label types).
Proof.
  induction types as [|[i l] types IH]; intros N; [reflexivity|].
  cbn [map fst snd] in N. inversion N as [|? ? Hi N']; subst.
  cbn [map relabel set_first_item fst snd]. rewrite combo_text_prefix.
  destruct (Z.eqb_spec i ident) as [->|Hne]; cbn [fst snd].
  - f_equal. fold (relabel ident label types).
    rewrite relabel_absent; [reflexivity|exact Hi].
  - f_equal. apply IH. exact N'.
Qed.

(** X12. When the comboboxes of the rows hold the item of no type and one
    item for every tag type, the identifiers of the types being distinct
    and the item of no type not starting with the identifier and a space,
    [update_type_label] leaves in every visible row the combobox of the
    types with the label of that type replaced, and the comboboxes of the
    hidden rows as they were. *)
Theorem update_type_label_renames_the_type (no_type : text)
    (types : list (Z * text)) (ident : Z) (label : text) (hidden : list bool) :
  NoDup (map fst types) ->
  starts_with (str_of_int ident ++ [c_space]) no_type = false ->
  update_type_label ident label
    (map (fun h : bool => (h, combo_items no_type types)) hidden)
  = map (fun h : bool => (h, if h then combo_items no_type types
                      else combo_items no_type (relabel ident label types)))
        hidden.
Proof.
  intros N H0. unfold update_type_label. rewrite map_map.
  apply map_ext. intros [|]; cbn [fst snd negb]; [reflexivity|].
  unfold combo_items. cbn [set_first_item]. rewrite H0.
  rewrite set_first_item_types; [reflexivity|exact N].
Qed.

Lemma update_type_label_renames_the_type_witness :
  update_type_label 1%Z (str "sea")
    (map (fun h : bool => (h, combo_items (str "None")
                         [(1%Z, str "see"); (12%Z, str "dog")]))
         [false; true])
  = [(false, [str "None"; str "1 - sea"; str "12 - dog"]);
     (true, [str "None"; str "1 - see"; str "12 - dog"])].
Proof.
  rewrite (update_type_label_renames_the_type (str "None")
             [(1%Z, str "see"); (12%Z, str "dog")] 1%Z (str "sea") [false; true]).
  - reflexivity.
  - repeat constructor; cbn; intuition discriminate.
  - reflexivity.
Defined.

(** ** The image-edit dialog *)

Lemma getitem_in_range (A : Type) (l : list A) (i : Z) :
  (0 <= i < Z.of_nat (length l))%Z -> exists x, EditImageDialog.getitem l i = Some x.
Proof.
  intros H. unfold EditImageDialog.getitem.
  destruct (Z.leb_spec 0 i) as [_|H']; [|lia].
  destruct (nth_error l (Z.to_nat i)) as [x|] eqn:E; [exists x; reflexivity|].
  apply nth_error_None in E. lia.
Qed.

(** What [_set] changes, when the index it is given is one of the list. *)
Lemma set_returns (index : Z) (self : EditImageDialog.dialog) :
  (0 <= index < Z.of_nat (length (EditImageDialog._images self)))%Z ->
  exists self',
    EditImageDialog._set index self = EditImageDialog.Return self'
    /\ EditImageDialog._index self' = EditImageDialog._index self
    /\ EditImageDialog._images self' = EditImageDialog._images self
    /\ EditImageDialog._mode self' = EditImageDialog._mode self
    /\ EditImageDialog._ok_btn_disabled self'
       = EditImageDialog._ok_btn_disabled self
    /\ EditImageDialog._image_to_replace self'
       = EditImageDialog._image_to_replace self
    /\ EditImageDialog._destination self' = EditImageDialog._destination self
    /\ (EditImageDialog._skip_btn self' = Some false ->
        EditImageDialog._index self
        <> (Z.of_nat (length (EditImageDialog._images self)) - 1)%Z)
    /\ (EditImageDialog._skip_btn self = None ->
        EditImageDialog._skip_btn self' = None)
    /\ (EditImageDialog._mode self = EditImageDialog.REPLACE ->
        EditImageDialog._tags_input_disabled self' = true).
Proof.
  intros H. destruct (getitem_in_range _ _ _ H) as [image E].
  unfold EditImageDialog._set. rewrite E. eexists. split; [reflexivity|].
  cbn. repeat (split; [reflexivity|]). split; [|split].
  - destruct (EditImageDialog._skip_btn self) as [d|]; [|discriminate].
    destruct (Z.eqb_spec (EditImageDialog._index self)
                (Z.of_nat (length (EditImageDialog._images self)) - 1)) as [_|N];
      [discriminate|]. intros _. exact N.
  - intros ->. reflexivity.
  - intros ->. reflexivity.
Qed.

Lemma next_in_range (self : EditImageDialog.dialog) :
  (0 <= EditImageDialog._index self
   < Z.of_nat (length (EditImageDialog._images self)) - 1)%Z ->
  (EditImageDialog._mode self = EditImageDialog.REPLACE ->
   EditImageDialog._ok_btn_disabled self = false ->
   EditImageDialog._image_to_replace self <> None) ->
  exists self',
    EditImageDialog._next self = EditImageDialog.Return self'
    /\ dialog_in_range self'.
Proof.
  intros H R. unfold EditImageDialog._next.
  match goal with
  | |- context [EditImageDialog._set ?i ?s] =>
      destruct (set_returns i s) as (self' & E & Hi & Hl & Hm & Ho & Hr & _ & Hs & _)
  end; [cbn; lia|].
  exists self'. split; [exact E|]. cbn in Hi, Hl, Hm, Ho, Hr, Hs.
  unfold dialog_in_range. rewrite Hi, Hl, Hm, Ho, Hr.
  split; [lia|]. split; [|exact R].
  intros S. specialize (Hs S). lia.
Qed.

Lemma show_error_in_range (message : text) (self : EditImageDialog.dialog) :
  dialog_in_range self ->
  dialog_in_range (EditImageDialog.show_error message self).
Proof. intros H. exact H. Qed.

(** Saving an image changes nothing of the dialog but the errors shown,
    and the one exception it can end in is the one of a call outside. *)
Lemma move_image_keeps (W Tag : Type) (sys : EditImageDialog.system W Tag)
    (old_path new_path : text) (self : EditImageDialog.dialog) (w : W) :
  match EditImageDialog._move_image sys old_path new_path self w with
  | EditImageDialog.Return (_, self1, _) =>
      self1 = self \/ exists m, self1 = EditImageDialog.show_error m self
  | EditImageDialog.Raise e => e = EditImageDialog.ExternalError
  end.
Proof.
  unfold EditImageDialog._move_image.
  destruct (EditImageDialog.shutil_move sys old_path new_path w)
    as [[[|] w0]|]; [left; reflexivity|right|reflexivity].
  eexists. reflexivity.
Qed.

Lemma add_keeps (W Tag : Type) (sys : EditImageDialog.system W Tag)
    (image : EditImageDialog.Image) (tags : list Tag) (new_path : option text)
    (self : EditImageDialog.dialog) (w : W) :
  match EditImageDialog._add sys image tags new_path self w with
  | EditImageDialog.Return (_, self1, _) =>
      self1 = self \/ exists m, self1 = EditImageDialog.show_error m self
  | EditImageDialog.Raise e => e = EditImageDialog.ExternalError
  end.
Proof.
  unfold EditImageDialog._add.
  destruct (EditImageDialog.add_image sys _ tags w) as [[ok w0]|];
    [|reflexivity].
  destruct new_path as [p|]; [|left; reflexivity].
  destruct ok; [apply move_image_keeps|left; reflexivity].
Qed.

Lemma edit_keeps (W Tag : Type) (sys : EditImageDialog.system W Tag)
    (image : EditImageDialog.Image) (tags : list Tag) (new_path : option text)
    (self : EditImageDialog.dialog) (w : W) :
  match EditImageDialog._edit sys image tags new_path self w with
  | EditImageDialog.Return (_, self1, _) =>
      self1 = self \/ exists m, self1 = EditImageDialog.show_error m self
  | EditImageDialog.Raise e => e = EditImageDialog.ExternalError
  end.
Proof.
  unfold EditImageDialog._edit.
  destruct (if EditImageDialog._tags_changed self
            then EditImageDialog.update_image_tags sys _ tags w
            else Some (true, w)) as [[ok0 w0]|]; [|reflexivity].
  destruct new_path as [p|]; [|left; reflexivity].
  destruct ok0; [|left; reflexivity].
  destruct (EditImageDialog.update_image_path sys _ (Some p) w0)
    as [[[|] w2]|]; [apply move_image_keeps|left; reflexivity|reflexivity].
Qed.

Lemma keeps_in_range (self self1 : EditImageDialog.dialog) :
  self1 = self \/ (exists m, self1 = EditImageDialog.show_error m self) ->
  dialog_in_range self -> dialog_in_range self1.
Proof. intros [->|[m ->]] H; exact H. Qed.

(** After a successful save: the next image, or the end. *)
Lemma apply_tail_in_range (W : Type) (ok : bool) (message : text)
    (self1 : EditImageDialog.dialog) (w1 : W) :
  dialog_in_range self1 ->
  match
    (if ok then
       if negb (EditImageDialog._index self1
                =? Z.of_nat (length (EditImageDialog._images self1)) - 1)%Z
       then match EditImageDialog._next self1 with
            | EditImageDialog.Raise e => EditImageDialog.Raise e
            | EditImageDialog.Return self2 =>
                EditImageDialog.Return
                  ((EditImageDialog._index self1
                    =? Z.of_nat (length (EditImageDialog._images self1)) - 1)%Z,
                   self2, w1)
            end
       else EditImageDialog.Return
              ((EditImageDialog._index self1
                =? Z.of_nat (length (EditImageDialog._images self1)) - 1)%Z,
               self1, w1)
     else
       EditImageDialog.Return
         (false,
          EditImageDialog.show_error message self1,
          w1))
  with
  | EditImageDialog.Return (_, self', _) => dialog_in_range self'
  | EditImageDialog.Raise e =>
      e = EditImageDialog.ValueError
      \/ e = EditImageDialog.ExternalError
  end.
Proof.
  intros H. destruct ok; [|exact H].
  destruct (Z.eqb_spec (EditImageDialog._index self1)
              (Z.of_nat (length (EditImageDialog._images self1)) - 1)) as [E|N];
    cbn [negb]; [exact H|].
  destruct H as (Hi & Hs & Hr).
  destruct (next_in_range self1) as (self2 & E2 & H2); [lia|exact Hr|].
  rewrite E2. exact H2.
Qed.

Lemma dialog_step_in_range (W Tag : Type) (env : edit_image_env Tag)
    (sys : EditImageDialog.system W Tag) (ev : dialog_event)
    (self : EditImageDialog.dialog) (w : W) :
  dialog_in_range self ->
  match dialog_step env sys ev self w with
  | EditImageDialog.Return (_, self', _) => dialog_in_range self'
  | EditImageDialog.Raise e =>
      e = EditImageDialog.ValueError
      \/ e = EditImageDialog.ExternalError
  end.
Proof.
  intros H. destruct ev as [|chosen|new_text|]; cbn [dialog_step].
  - (* Skip *)
    destruct (EditImageDialog._skip_btn self) as [[|]|] eqn:S; try exact H.
    destruct H as (Hi & Hs & Hr).
    destruct (next_in_range self) as (self' & E & H'); [specialize (Hs S); lia|exact Hr|].
    rewrite E. exact H'.
  - (* the destination *)
    unfold EditImageDialog._on_dest_button_clicked.
    destruct chosen as [destination|]; [|exact H].
    destruct (EditImageDialog.is_replace (EditImageDialog._mode self)) eqn:M.
    + destruct H as (Hi & Hs & Hr).
      destruct (getitem_in_range _ (EditImageDialog._images self) 0%Z) as [img E0];
        [lia|]. rewrite E0.
      destruct (text_eqb _ destination).
      * unfold dialog_in_range. cbn. split; [exact Hi|]. split; [exact Hs|].
        intros _ _. discriminate.
      * destruct (EditImageDialog._images self) as [|im0 images] eqn:EI;
          [cbn in Hi; lia|]. cbn [EditImageDialog.setitem_0].
        match goal with
        | |- context [EditImageDialog._set ?i ?s] =>
            destruct (set_returns i s)
              as (self' & E & Hi' & Hl' & Hm' & Ho' & Hr' & _ & Hs' & _)
        end; [cbn; lia|].
        rewrite E.
        cbn [EditImageDialog._index EditImageDialog._images
             EditImageDialog._image_to_replace EditImageDialog._skip_btn]
          in Hi', Hl', Hr', Hs'.
        unfold dialog_in_range. cbn. rewrite Hi', Hl', Hr'. cbn [length] in *.
        split; [exact Hi|]. split; [|intros _ _; discriminate].
        intros S. specialize (Hs' S). lia.
    + destruct H as (Hi & Hs & Hr). unfold dialog_in_range. cbn.
      split; [exact Hi|]. split; [exact Hs|].
      intros R. rewrite R in M. discriminate.
  - (* the tags *)
    destruct (EditImageDialog._tags_input_disabled self); exact H.
  - (* OK *)
    destruct (EditImageDialog._ok_btn_disabled self) eqn:O; [exact H|].
    unfold EditImageDialog._apply.
    destruct (_get_tags env (EditImageDialog._tags_input self)) as [tags|];
      [|left; reflexivity].
    pose proof H as (Hi & Hs & Hr).
    destruct (getitem_in_range _ (EditImageDialog._images self)
                (EditImageDialog._index self) Hi) as [image E]. rewrite E.
    destruct (EditImageDialog._mode self) eqn:M.
    + pose proof (edit_keeps W Tag sys image tags
                    (EditImageDialog._get_new_path sys self image) self w) as Ed.
      destruct (EditImageDialog._edit sys image tags _ self w)
        as [[[ok self1] w1]|e]; [|right; exact Ed].
      apply apply_tail_in_range. apply (keeps_in_range self); assumption.
    + pose proof (add_keeps W Tag sys image tags
                    (EditImageDialog._get_new_path sys self image) self w) as Ea.
      destruct (EditImageDialog._add sys image tags _ self w)
        as [[[ok self1] w1]|e]; [|right; exact Ea].
      apply apply_tail_in_range. apply (keeps_in_range self); assumption.
    + unfold EditImageDialog._replace.
      destruct (EditImageDialog._image_to_replace self) as [p|] eqn:P;
        [|exfalso; apply (Hr eq_refl O); reflexivity].
      destruct (EditImageDialog.os_remove sys p w) as [[[|] w1]|];
        [| exact H | right; reflexivity].
      destruct (getitem_in_range _ (EditImageDialog._images self) 0%Z)
        as [img E0]; [lia|]. rewrite E0.
      destruct (EditImageDialog.update_image_path sys _ _ w1) as [[ok w2]|];
        [|right; reflexivity].
      apply apply_tail_in_range. exact H.
Qed.

Lemma run_dialog_in_range (W Tag : Type) (env : edit_image_env Tag)
    (sys : EditImageDialog.system W Tag) (events : list dialog_event) :
  forall self w,
    dialog_in_range self ->
    match run_dialog env sys events self w with
    | EditImageDialog.Return (_, self', _) => dialog_in_range self'
    | EditImageDialog.Raise e =>
        e = EditImageDialog.ValueError
        \/ e = EditImageDialog.ExternalError
    end.
Proof.
  induction events as [|ev events IH]; intros self w H; cbn [run_dialog].
  - exact H.
  - pose proof (dialog_step_in_range W Tag env sys ev self w H) as S.
    destruct (dialog_step env sys ev self w) as [[[closed self'] w']|e];
      [|exact S].
    destruct closed; [exact S|]. apply IH. exact S.
Qed.

(** X13. A dialog opened on at least one image never reads its list of
    images out of range, whatever the user does and whatever the
    database and the disk answer: no event raises [IndexError], nor the
    [TypeError] of [os.remove(None)]; the exceptions that can leave an
    event are the [ValueError] of tags that do not parse and those that
    the calls to the database and to the disk raise themselves; and
    after every event the index is the one of an image of the list. *)
Theorem dialog_never_indexes_out_of_range (W Tag : Type)
    (env : edit_image_env Tag) (sys : EditImageDialog.system W Tag)
    (m : EditImageDialog.mode) (show_skip : bool)
    (images : list EditImageDialog.Image) (tags : Z -> option (list text))
    (events : list dialog_event) (w : W) :
  images <> [] ->
  show_skip && EditImageDialog.is_replace m = false ->
  exists opened shown,
    EditImageDialog.__init__ m show_skip = EditImageDialog.Return opened
    /\ EditImageDialog.set_images images tags opened
       = EditImageDialog.Return shown
    /\ match run_dialog env sys events shown w with
       | EditImageDialog.Return (_, self, _) =>
           (0 <= EditImageDialog._index self
            < Z.of_nat (length (EditImageDialog._images self)))%Z
       | EditImageDialog.Raise e =>
           e = EditImageDialog.ValueError
           \/ e = EditImageDialog.ExternalError
       end.
Proof.
  intros N V. unfold EditImageDialog.__init__. rewrite V.
  eexists. unfold EditImageDialog.set_images.
  match goal with
  | |- context [EditImageDialog._set ?i ?s] =>
      destruct (set_returns i s)
        as (shown & E & Hi & Hl & Hm & Ho & Hr & _ & Hs & _)
  end.
  { cbn. destruct images; [contradiction|]. cbn [length]. lia. }
  exists shown. split; [reflexivity|]. split; [exact E|].
  cbn [EditImageDialog._index EditImageDialog._images EditImageDialog._mode
       EditImageDialog._ok_btn_disabled EditImageDialog._image_to_replace
       EditImageDialog._skip_btn] in Hi, Hl, Hm, Ho, Hr, Hs.
  assert (R : dialog_in_range shown).
  { unfold dialog_in_range. rewrite Hi, Hl, Hm, Ho, Hr.
    destruct images as [|im images]; [contradiction|]. cbn [length].
    split; [lia|]. split.
    - intros S. specialize (Hs S). cbn [length] in Hs. lia.
    - intros -> D. discriminate D. }
  pose proof (run_dialog_in_range W Tag env sys events shown w R) as H.
  destruct (run_dialog env sys events shown w) as [[[closed self] w']|e];
    [|exact H].
  destruct H as [H _]. exact H.
Qed.

Lemma dialog_never_indexes_out_of_range_witness :
  exists opened shown,
    EditImageDialog.__init__ EditImageDialog.EDIT true
    = EditImageDialog.Return opened
    /\ EditImageDialog.set_images
         [sample_image 4 "a.png"; sample_image 9 "b.png"]
         (fun _ => Some [str "cat"]) opened
       = EditImageDialog.Return shown
    /\ match run_dialog sample_tag_env sample_system
               [ClickSkip; ClickSkip; EditTags (str "dog"); ClickOk; ClickOk]
               shown 0 with
       | EditImageDialog.Return (_, self, _) =>
           (0 <= EditImageDialog._index self
            < Z.of_nat (length (EditImageDialog._images self)))%Z
       | EditImageDialog.Raise e =>
           e = EditImageDialog.ValueError
           \/ e = EditImageDialog.ExternalError
       end.
Proof.
  apply (dialog_never_indexes_out_of_range nat text sample_tag_env sample_system
           EditImageDialog.EDIT true
           [sample_image 4 "a.png"; sample_image 9 "b.png"]).
  - discriminate.
  - reflexivity.
Defined.

(** ** Replacing an image *)

Lemma replacing_first_image (image : EditImageDialog.Image)
    (self : EditImageDialog.dialog) :
  replacing image self ->
  exists img,
    EditImageDialog.getitem (EditImageDialog._images self) 0 = Some img
    /\ EditImageDialog._images self = [img]
    /\ EditImageDialog.id img = EditImageDialog.id image
    /\ match EditImageDialog._image_to_replace self with
       | Some p => p
       | None => EditImageDialog.path img
       end = EditImageDialog.path image.
Proof.
  intros (_ & _ & _ & _ & H).
  destruct (EditImageDialog._destination self) as [d|].
  - destruct H as (_ & _ & -> & ->). eexists. repeat split; reflexivity.
  - destruct H as (_ & -> & [-> | ->]); exists image; repeat split; reflexivity.
Qed.

Lemma replacing_step (W Tag : Type) (env : edit_image_env Tag)
    (sys : EditImageDialog.system W Tag) (image : EditImageDialog.Image)
    (ev : dialog_event) (self self' : EditImageDialog.dialog) (w w' : W) :
  replacing image self ->
  dialog_step env sys ev self w = EditImageDialog.Return (false, self', w') ->
  replacing image self'.
Proof.
  intros R. pose proof R as (Hm & Hs & Ht & Hi & Hd).
  destruct ev as [|chosen|new_text|]; cbn [dialog_step].
  - rewrite Hs. intros H. injection H as <- _. exact R.
  - unfold EditImageDialog._on_dest_button_clicked.
    destruct chosen as [destination|]; [|intros H; injection H as <- _; exact R].
    rewrite Hm. cbn [EditImageDialog.is_replace].
    destruct (replacing_first_image image self R) as (img & E0 & EI & Eid & Ep).
    rewrite E0, Ep.
    destruct (text_eqb (EditImageDialog.path image) destination) eqn:Q.
    + intros H. injection H as <- _.
      unfold replacing. cbn.
      repeat (split; [assumption|]).
      destruct (EditImageDialog._destination self) as [d|].
      * destruct Hd as (Hd1 & Hd2 & Hd3 & Hd4). repeat split; assumption.
      * destruct Hd as (Hd1 & Hd2 & Hd3). repeat split; try assumption.
        right. reflexivity.
    + rewrite EI. cbn [EditImageDialog.setitem_0].
      match goal with
      | |- context [EditImageDialog._set ?i ?s] =>
          destruct (set_returns i s)
            as (s1 & E & Hi1 & Hl1 & Hm1 & Ho1 & Hr1 & Hd1 & _ & Hs1 & Ht1)
      end; [cbn; lia|].
      rewrite E. intros H. injection H as <- _.
      cbn [EditImageDialog._index EditImageDialog._images EditImageDialog._mode
           EditImageDialog._ok_btn_disabled EditImageDialog._image_to_replace
           EditImageDialog._destination EditImageDialog._skip_btn]
        in Hi1, Hl1, Hm1, Ho1, Hr1, Hd1, Hs1, Ht1.
      unfold replacing. cbn. rewrite Hi1, Hl1, Hm1, Ho1, Hr1, Hd1, Eid.
      split; [reflexivity|]. split; [exact (Hs1 Hs)|]. split; [exact (Ht1 eq_refl)|].
      split; [exact Hi|]. split; [|repeat split].
      intros ->. rewrite text_eqb_refl in Q. discriminate.
  - rewrite Ht. intros H. injection H as <- _. exact R.
  - destruct (EditImageDialog._ok_btn_disabled self) eqn:O;
      [intros H; injection H as <- _; exact R|].
    destruct (EditImageDialog._destination self) as [d|] eqn:D;
      [|destruct Hd as (Hd & _); congruence].
    destruct Hd as (Hne & _ & EI & Er).
    unfold EditImageDialog._apply.
    destruct (_get_tags env (EditImageDialog._tags_input self)) as [tags|];
      [|discriminate].
    rewrite Hi, EI, Hm. cbn [EditImageDialog.getitem Z.leb Z.compare Z.to_nat nth_error].
    unfold EditImageDialog._replace. rewrite Er, EI.
    destruct (EditImageDialog.os_remove sys _ w) as [[[|] w1]|];
      [| |discriminate].
    + cbn [EditImageDialog.getitem Z.leb Z.compare Z.to_nat nth_error].
      destruct (EditImageDialog.update_image_path sys _ _ w1) as [[[|] w2]|];
        [| |discriminate].
      * rewrite Hi, EI. cbn. discriminate.
      * intros H. injection H as <- _. unfold replacing. cbn. rewrite D.
        repeat split; assumption.
    + intros H. injection H as <- _. unfold replacing. cbn. rewrite D.
      repeat split; assumption.
Qed.

Lemma replacing_run (W Tag : Type) (env : edit_image_env Tag)
    (sys : EditImageDialog.system W Tag) (image : EditImageDialog.Image)
    (events : list dialog_event) :
  forall self w self' w',
    replacing image self ->
    run_dialog env sys events self w = EditImageDialog.Return (false, self', w') ->
    replacing image self'.
Proof.
  induction events as [|ev events IH]; intros self w self' w' R; cbn [run_dialog].
  - intros H. injection H as <- _. exact R.
  - destruct (dialog_step env sys ev self w) as [[[closed s1] w1]|e] eqn:E;
      [|discriminate].
    destruct closed; [discriminate|].
    apply IH. exact (replacing_step W Tag env sys image ev self s1 w w1 R E).
Qed.

(** X14. In the mode REPLACE, whatever the user did before, OK can be
    clicked only once a destination is set, the destination is another
    path than the one the image had when the dialog was opened, and
    [_replace] then removes the file the image had when the dialog was
    opened and gives the destination to the database as the path of that
    image. *)
Theorem replace_removes_the_original (W Tag : Type)
    (env : edit_image_env Tag) (sys : EditImageDialog.system W Tag)
    (image : EditImageDialog.Image) (tags : list text)
    (events : list dialog_event) (w w' : W)
    (opened shown self : EditImageDialog.dialog) :
  EditImageDialog.__init__ EditImageDialog.REPLACE false
  = EditImageDialog.Return opened ->
  EditImageDialog.set_image image tags opened = EditImageDialog.Return shown ->
  run_dialog env sys events shown w = EditImageDialog.Return (false, self, w') ->
  match EditImageDialog._destination self with
  | None => EditImageDialog._ok_btn_disabled self = true
  | Some d =>
      d <> EditImageDialog.path image
      /\ EditImageDialog._ok_btn_disabled self = false
      /\ EditImageDialog._replace sys self w'
         = match EditImageDialog.os_remove sys (EditImageDialog.path image) w'
           with
           | None => EditImageDialog.Raise EditImageDialog.ExternalError
           | Some (false, w1) => EditImageDialog.Return (false, self, w1)
           | Some (true, w1) =>
               match EditImageDialog.update_image_path
                       sys (EditImageDialog.id image) (Some d) w1 with
               | None => EditImageDialog.Raise EditImageDialog.ExternalError
               | Some (ok, w2) => EditImageDialog.Return (ok, self, w2)
               end
           end
  end.
Proof.
  intros Hopen Hshow Hrun.
  assert (R0 : replacing image shown).
  { cbn in Hopen. injection Hopen as <-.
    unfold EditImageDialog.set_image, EditImageDialog.set_images in Hshow.
    cbn in Hshow. injection Hshow as <-.
    unfold replacing. cbn. repeat split. left. reflexivity. }
  pose proof (replacing_run W Tag env sys image events shown w self w' R0 Hrun)
    as (Hm & Hs & Ht & Hi & Hd).
  destruct (EditImageDialog._destination self) as [d|] eqn:D.
  - destruct Hd as (Hne & Ho & EI & Er). split; [exact Hne|]. split; [exact Ho|].
    unfold EditImageDialog._replace. rewrite Er, EI, D. reflexivity.
  - destruct Hd as (Ho & _). exact Ho.
Qed.


Lemma replace_removes_the_original_witness :
  match EditImageDialog.__init__ EditImageDialog.REPLACE false with
  | EditImageDialog.Return opened =>
      match EditImageDialog.set_image (sample_image 4 "a.png") [str "cat"]
                                      opened with
      | EditImageDialog.Return shown =>
          match run_dialog sample_tag_env sample_system
                  [ClickDest (Some (str "a.png"));
                   ClickDest (Some (str "b.png")); ClickDest None; ClickSkip]
                  shown 0 with
          | EditImageDialog.Return (false, self, w') =>
              match EditImageDialog._destination self with
              | None => EditImageDialog._ok_btn_disabled self = true
              | Some d =>
                  d <> EditImageDialog.path (sample_image 4 "a.png")
                  /\ EditImageDialog._ok_btn_disabled self = false
                  /\ EditImageDialog._replace sample_system self w'
                     = match EditImageDialog.os_remove
                               sample_system
                               (EditImageDialog.path (sample_image 4 "a.png"))
                               w' with
                       | None =>
                           EditImageDialog.Raise EditImageDialog.ExternalError
                       | Some (false, w1) =>
                           EditImageDialog.Return (false, self, w1)
                       | Some (true, w1) =>
                           match EditImageDialog.update_image_path
                                   sample_system
                                   (EditImageDialog.id (sample_image 4 "a.png"))
                                   (Some d) w1 with
                           | None =>
                               EditImageDialog.Raise
                                 EditImageDialog.ExternalError
                           | Some (ok, w2) =>
                               EditImageDialog.Return (ok, self, w2)
                           end
                       end
              end
          | _ => False
          end
      | EditImageDialog.Raise _ => False
      end
  | EditImageDialog.Raise _ => False
  end.
Proof.
  destruct (EditImageDialog.__init__ EditImageDialog.REPLACE false)
    as [opened|e] eqn:E1; [|discriminate E1].
  destruct (EditImageDialog.set_image (sample_image 4 "a.png") [str "cat"] opened)
    as [shown|e] eqn:E2.
  - destruct (run_dialog sample_tag_env sample_system
                [ClickDest (Some (str "a.png"));
                 ClickDest (Some (str "b.png")); ClickDest None; ClickSkip]
                shown 0) as [[[[|] self] w']|e] eqn:E3.
    + injection E1 as <-. vm_compute in E2. injection E2 as <-.
      vm_compute in E3. discriminate E3.
    + exact (replace_removes_the_original nat text sample_tag_env sample_system
               (sample_image 4 "a.png") [str "cat"] _ 0 w' opened shown self
               E1 E2 E3).
    + injection E1 as <-. vm_compute in E2. injection E2 as <-.
      vm_compute in E3. discriminate E3.
  - injection E1 as <-. vm_compute in E2. discriminate E2.
Defined.

(** ** The tags shown and the tags read *)

Lemma split_from_word (w : text) :
  no_space w = true ->
  forall cur rest, split_from cur (w ++ rest) = split_from (rev w ++ cur) rest.
Proof.
  induction w as [|c w IH]; intros H cur rest; [reflexivity|].
  cbn [no_space forallb] in H. apply andb_true_iff in H as [Hc Hw].
  apply negb_true_iff in Hc. cbn [app split_from rev]. rewrite Hc.
  rewrite (IH Hw). rewrite <- app_assoc. reflexivity.
Qed.

Lemma split_join (labels : list text) :
  Forall (fun l => l <> [] /\ no_space l = true) labels ->
  split (EditImageDialog.join (str " ") labels) = labels.
Proof.
  unfold split. induction labels as [|x labels IH]; intros H; [reflexivity|].
  inversion H as [|? ? [Nx Sx] H']; subst.
  assert (R : exists c r, rev x = c :: r).
  { destruct (rev x) as [|c r] eqn:E; [|exists c, r; reflexivity].
    apply (f_equal (@rev ascii)) in E. rewrite rev_involutive in E.
    contradiction. }
  destruct R as (c & r & R).
  destruct labels as [|y labels].
  - cbn [EditImageDialog.join]. rewrite <- (app_nil_r x) at 1.
    rewrite (split_from_word x Sx), app_nil_r, R. cbn [split_from].
    rewrite <- R, rev_involutive. reflexivity.
  - change (EditImageDialog.join (str " ") (x :: y :: labels))
      with (x ++ " "%char :: EditImageDialog.join (str " ") (y :: labels)).
    rewrite (split_from_word x Sx), app_nil_r, R.
    cbn [split_from]. change (is_space " ") with true. cbv iota.
    rewrite <- R, rev_involutive, (IH H'). reflexivity.
Qed.

Lemma insert_sorted_perm (x : text) (l : list text) :
  Permutation (EditImageDialog.insert_sorted x l) (x :: l).
Proof.
  induction l as [|y l IH]; cbn [EditImageDialog.insert_sorted]; [reflexivity|].
  destruct (EditImageDialog.text_ltb x y); [reflexivity|].
  rewrite IH. apply perm_swap.
Qed.

Lemma sorted_perm (l : list text) : Permutation (EditImageDialog.sorted l) l.
Proof.
  unfold EditImageDialog.sorted.
  induction l as [|x l IH]; cbn [fold_right]; [reflexivity|].
  rewrite insert_sorted_perm. apply perm_skip. exact IH.
Qed.

(** X15. When [_set] shows an image in another mode than ADD, the tags
    of the image having labels that are not empty and hold no white
    space, the text it puts in the input field is read back by
    [_get_tags] as exactly these labels, each once, in ascending order;
    and the tags count as unchanged. *)
Theorem shown_tags_are_read_back (Tag : Type) (env : edit_image_env Tag)
    (index : Z) (self : EditImageDialog.dialog)
    (image : EditImageDialog.Image) (labels : list text) :
  EditImageDialog._mode self <> EditImageDialog.ADD ->
  EditImageDialog.getitem (EditImageDialog._images self) index = Some image ->
  EditImageDialog._tags self (EditImageDialog.id image) = Some labels ->
  Forall (fun l => l <> [] /\ no_space l = true) labels ->
  exists self',
    EditImageDialog._set index self = EditImageDialog.Return self'
    /\ split (EditImageDialog._tags_input self') = EditImageDialog.sorted labels
    /\ Permutation (EditImageDialog.sorted labels) labels
    /\ _get_tags env (EditImageDialog._tags_input self')
       = tags_of_tokens env (EditImageDialog.sorted labels)
    /\ EditImageDialog._tags_changed self' = false.
Proof.
  intros M E T F. unfold EditImageDialog._set. rewrite E.
  eexists. split; [reflexivity|].
  cbn [EditImageDialog._tags_input EditImageDialog._tags_changed]. rewrite T.
  assert (A : EditImageDialog.is_add (EditImageDialog._mode self) = false).
  { destruct (EditImageDialog._mode self); try reflexivity. contradiction. }
  rewrite A. cbn [negb].
  assert (S : split (EditImageDialog.join (str " ") (EditImageDialog.sorted labels))
              = EditImageDialog.sorted labels).
  { apply split_join. apply Forall_forall. intros l Hl.
    apply (Permutation_in _ (sorted_perm labels)) in Hl.
    revert l Hl. apply Forall_forall. exact F. }
  split; [exact S|]. split; [apply sorted_perm|].
  split; [|reflexivity]. unfold _get_tags. rewrite S. reflexivity.
Qed.

Lemma shown_tags_are_read_back_witness :
  exists self',
    EditImageDialog._set 0 sample_edit_dialog = EditImageDialog.Return self'
    /\ split (EditImageDialog._tags_input self')
       = EditImageDialog.sorted [str "dog"; str "cat"]
    /\ Permutation (EditImageDialog.sorted [str "dog"; str "cat"])
                   [str "dog"; str "cat"]
    /\ _get_tags sample_tag_env (EditImageDialog._tags_input self')
       = tags_of_tokens sample_tag_env
           (EditImageDialog.sorted [str "dog"; str "cat"])
    /\ EditImageDialog._tags_changed self' = false.
Proof.
  apply (shown_tags_are_read_back text sample_tag_env 0 sample_edit_dialog
           (sample_image 4 "a.png") [str "dog"; str "cat"]).
  - discriminate.
  - reflexivity.
  - reflexivity.
  - repeat constructor; discriminate.
Defined.

(** ** Adding images to the database *)

Lemma images_to_add_from_filter (env : files_env) (image_paths : list text) :
  forall before : list bool,
    images_to_add_from (before ++ map (image_registered env) image_paths)
                       (length before) image_paths
    = Some (filter (fun p => negb (image_registered env p)) image_paths).
Proof.
  induction image_paths as [|path rest IH]; intros before; [reflexivity|].
  cbn [images_to_add_from filter map].
  rewrite nth_error_app2, Nat.sub_diag; [|lia]. cbn [nth_error].
  specialize (IH (before ++ [image_registered env path])).
  rewrite <- app_assoc, length_app, Nat.add_1_r in IH. cbn [app length] in IH.
  rewrite IH. destruct (image_registered env path); reflexivity.
Qed.

Lemma all_registered_filter (env : files_env) (image_paths : list text) :
  all (map (image_registered env) image_paths) = true
  <-> filter (fun p => negb (image_registered env p)) image_paths = [].
Proof.
  unfold all. induction image_paths as [|p rest IH]; cbn [map forallb filter];
    [tauto|].
  destruct (image_registered env p); cbn [negb andb]; [exact IH|].
  split; discriminate.
Qed.

(** X16. [_add_images] never raises and never opens the dialog on an
    empty list: it does nothing for no path; it only tells that the
    images are registered when every path is; otherwise it opens the
    dialog on exactly the paths that are not registered, in their order,
    with the Skip button when there are several of them, after the
    message that some images are registered when some path is. *)
Theorem add_images_offers_the_new_ones (env : files_env) (image_paths : list text) :
  match _add_images env image_paths with
  | NothingToAdd => image_paths = []
  | AllRegistered plural =>
      image_paths <> []
      /\ (forall p, In p image_paths -> image_registered env p = true)
      /\ plural = (1 <? length image_paths)
  | DialogOpened some_registered_shown show_skip images =>
      images = filter (fun p => negb (image_registered env p)) image_paths
      /\ images <> []
      /\ (some_registered_shown = true
          <-> exists p, In p image_paths /\ image_registered env p = true)
      /\ show_skip = (1 <? length images)
  | AddRaised => False
  end.
Proof.
  unfold _add_images. destruct image_paths as [|p0 rest] eqn:EP; [reflexivity|].
  rewrite <- EP. assert (N : image_paths <> []) by (rewrite EP; discriminate).
  clear EP.
  pose proof (images_to_add_from_filter env image_paths []) as F.
  cbn [app length] in F. rewrite F.
  destruct (all (map (image_registered env) image_paths)) eqn:A.
  - split; [exact N|]. split; [|rewrite length_map; reflexivity].
    unfold all in A. rewrite forallb_forall in A. intros p Hp.
    apply A. apply in_map. exact Hp.
  - split; [reflexivity|]. split.
    + intros H. apply all_registered_filter in H. congruence.
    + split; [|reflexivity]. unfold any. rewrite existsb_exists. split.
      * intros (b & Hb & ->). apply in_map_iff in Hb as (p & E & Hp).
        exists p. split; assumption.
      * intros (p & Hp & E). exists true. split; [|reflexivity].
        rewrite <- E. apply in_map. exact Hp.
Qed.

(** ** Dropping files on the window *)

Lemma get_paths_from_spec (env : files_env) (us : list url) :
  forall paths,
    get_paths_from env us paths
    = if forallb isLocalFile us
      then Some (paths ++ map (fun u => absolute env (toLocalFile u)) us)
      else None.
Proof.
  induction us as [|u us IH]; intros paths; cbn [get_paths_from forallb map].
  - rewrite app_nil_r. reflexivity.
  - destruct (isLocalFile u); cbn [negb andb]; [|reflexivity].
    rewrite IH, <- app_assoc. reflexivity.
Qed.

Lemma check_paths_spec (env : files_env) (paths : list text) :
  check_paths env paths = true
  <-> forall p, In p paths -> is_dir env p = true \/ accept_image_file env p = true.
Proof.
  induction paths as [|p paths IH]; cbn [check_paths].
  - split; [intros _ q []|reflexivity].
  - destruct (is_dir env p) eqn:D, (accept_image_file env p) eqn:A;
      cbn [negb andb]; rewrite ?IH; split; intros H;
      try (intros q [<-|Hq]; [tauto|apply H; exact Hq]);
      try (intros q Hq; apply H; right; exact Hq);
      try discriminate.
    destruct (H p (or_introl eq_refl)); congruence.
Qed.

Lemma dropped_files_all (env : files_env) (paths : list text) :
  forall files,
    existsb (too_deep env) paths = false ->
    dropped_files env paths files = inl (files ++ flat_map (files_of env) paths).
Proof.
  induction paths as [|p paths IH]; intros files;
    cbn [dropped_files existsb flat_map].
  - rewrite app_nil_r. reflexivity.
  - unfold too_deep at 1, files_of at 1.
    destruct (is_file env p); cbn [orb].
    + intros H. rewrite (IH _ H), <- app_assoc. reflexivity.
    + destruct (get_files_from_directory env p) as [found|depth]; cbn [orb];
        [|discriminate].
      intros H. rewrite (IH _ H), <- app_assoc. reflexivity.
Qed.

Lemma dropped_files_too_deep (env : files_env) (paths : list text) :
  forall files,
    existsb (too_deep env) paths = true ->
    exists depth, dropped_files env paths files = inr depth.
Proof.
  induction paths as [|p paths IH]; intros files; cbn [dropped_files existsb];
    [discriminate|].
  unfold too_deep at 1.
  destruct (is_file env p); cbn [orb]; [apply IH|].
  destruct (get_files_from_directory env p) as [found|depth];
    cbn [orb]; [apply IH|].
  intros _. exists depth. reflexivity.
Qed.

(** X17. A drop that [_check_drag] accepts is read without the
    [ValueError] of [_get_paths]: every URL is a local file, and every
    path is a directory or an image file. [dropEvent] then hands to
    [_add_images] the files of all the paths, in their order, or, when
    one directory is too deep, shows the error and adds nothing, not
    even the files of the other paths. *)
Theorem accepted_drop_is_read (env : files_env) (event : drop_event) :
  _check_drag env event = true ->
  exists paths,
    _get_paths env event = Some paths
    /\ paths = map (fun u => absolute env (toLocalFile u)) (urls event)
    /\ (forall p, In p paths ->
                  is_dir env p = true \/ accept_image_file env p = true)
    /\ match dropEvent env event with
       | DropRaised => False
       | MaximumRecursion _ => existsb (too_deep env) paths = true
       | NoFilesFound =>
           existsb (too_deep env) paths = false
           /\ flat_map (files_of env) paths = []
       | ImagesAdded files added =>
           existsb (too_deep env) paths = false
           /\ files = flat_map (files_of env) paths
           /\ added = _add_images env files
       end.
Proof.
  unfold _check_drag, dropEvent, _get_paths. rewrite get_paths_from_spec.
  destruct (hasUrls event); [|discriminate].
  destruct (forallb isLocalFile (urls event)); [|discriminate].
  cbn [app]. intros C. eexists. split; [reflexivity|]. split; [reflexivity|].
  split; [apply check_paths_spec; exact C|].
  destruct (existsb (too_deep env)
              (map (fun u => absolute env (toLocalFile u)) (urls event))) eqn:D.
  - destruct (dropped_files_too_deep env _ [] D) as [depth ->]. reflexivity.
  - rewrite (dropped_files_all env _ [] D). cbn [app].
    destruct (flat_map _ _) as [|f files]; repeat split.
Qed.

Lemma accepted_drop_is_read_witness :
  exists paths,
    _get_paths sample_files_env sample_drop = Some paths
    /\ paths = map (fun u => absolute sample_files_env (toLocalFile u))
                   (urls sample_drop)
    /\ (forall p, In p paths ->
                  is_dir sample_files_env p = true
                  \/ accept_image_file sample_files_env p = true)
    /\ match dropEvent sample_files_env sample_drop with
       | DropRaised => False
       | MaximumRecursion _ => existsb (too_deep sample_files_env) paths = true
       | NoFilesFound =>
           existsb (too_deep sample_files_env) paths = false
           /\ flat_map (files_of sample_files_env) paths = []
       | ImagesAdded files added =>
           existsb (too_deep sample_files_env) paths = false
           /\ files = flat_map (files_of sample_files_env) paths
           /\ added = _add_images sample_files_env files
       end.
Proof.
  apply (accepted_drop_is_read sample_files_env sample_drop). reflexivity.
Defined.

(** ** The run of the Literal Protector is a scan from left to right *)

(** [protect_loop_segments], with the segments those of the scan. *)
Lemma protect_loop_scanned (fuel : nat) :
  forall (dead live : text) (index : nat) (values : meta_tag_values),
    forallb is_dot (dead ++ live) = true ->
    no_match_within dead live ->
    count_colons live <= fuel ->
    exists segs tail,
      live = original_of segs tail
      /\ scanned segs tail
      /\ protect_loop fuel (dead ++ live) index values
         = Some (dead ++ work_of segs index tail, index + length segs,
                 values ++ entries_of segs index).
Proof.
  induction fuel as [|fuel IH]; intros dead live index values Hdot Hdead Hfuel.
  - rewrite protect_loop_eq, (re_search_skip dead live Hdead).
    destruct (re_search live) as [[[x m] b]|] eqn:E.
    + exfalso. apply re_search_sound in E as (-> & Hm & _).
      apply count_colons_meta_literal in Hm.
      rewrite !count_colons_app in Hfuel. lia.
    + exists [], live. simpl. rewrite Nat.add_0_r, app_nil_r. auto.
  - pose proof (re_search_skip dead live Hdead) as Hskip.
    destruct (re_search live) as [[[x m] b]|] eqn:E.
    + rewrite (protect_loop_step fuel _ index values _ _ _ Hskip).
      destruct (re_search_sound _ _ _ _ E) as (Hlive & Hm & _ & _).
      destruct (re_search_sound _ _ _ _ Hskip) as (_ & _ & _ & Hno).
      subst live.
      assert (Hdot' : forallb is_dot ((dead ++ x) ++ m ++ b) = true)
        by (rewrite <- app_assoc; exact Hdot).
      pose proof (dead_prefix_stays_dead (dead ++ x) m b (index + 1) Hdot' Hm Hno)
        as Hdead'.
      destruct (IH ((dead ++ x) ++ placeholder (index + 1)) b (index + 1)
                   (values ++ [(index + 1, m)]))
        as (segs & tail & Hb & Hscan & Hrun).
      * pose proof (is_dot_placeholder (index + 1)) as Hp.
        apply forallb_forall. intros c Hc.
        repeat rewrite in_app_iff in Hc.
        destruct Hc as [[[Hc|Hc]|Hc]|Hc].
        -- apply (forallb_In is_dot _ c Hdot). rewrite !in_app_iff. tauto.
        -- apply (forallb_In is_dot _ c Hdot). rewrite !in_app_iff. tauto.
        -- apply (forallb_In is_dot _ c Hp). exact Hc.
        -- apply (forallb_In is_dot _ c Hdot). rewrite !in_app_iff. tauto.
      * exact Hdead'.
      * apply count_colons_meta_literal in Hm.
        rewrite !count_colons_app in Hfuel. lia.
      * exists ((x, m) :: segs), tail. split; [|split].
        -- simpl. rewrite <- Hb. reflexivity.
        -- cbn [scanned]. rewrite <- Hb. split; [exact E|exact Hscan].
        -- rewrite <- app_assoc in Hrun. rewrite Hrun.
           assert (E1 : ((dead ++ x) ++ placeholder (index + 1))
                        ++ work_of segs (index + 1) tail
                        = dead ++ work_of ((x, m) :: segs) index tail)
             by (cbn [work_of]; rewrite <- !app_assoc; reflexivity).
           assert (E2 : index + 1 + length segs = index + length ((x, m) :: segs))
             by (cbn [length]; lia).
           assert (E3 : (values ++ [(index + 1, m)]) ++ entries_of segs (index + 1)
                        = values ++ entries_of ((x, m) :: segs) index)
             by (cbn [entries_of]; rewrite <- app_assoc; reflexivity).
           rewrite E1, E2, E3. reflexivity.
    + rewrite protect_loop_eq, Hskip.
      exists [], live. simpl. rewrite Nat.add_0_r, app_nil_r. auto.
Qed.

Lemma scanned_literals (segs : segments) (tail : text) :
  scanned segs tail -> Forall (fun s => meta_literal (snd s)) segs.
Proof.
  induction segs as [|[t m] segs IH]; intros H; constructor.
  - destruct H as [H _]. apply re_search_sound in H as (_ & Hm & _). exact Hm.
  - apply IH. exact (proj2 H).
Qed.

Lemma entries_of_indices (segs : segments) (index : nat) :
  map fst (entries_of segs index) = seq (index + 1) (length segs).
Proof.
  revert index. induction segs as [|[t m] segs IH]; intros index.
  - reflexivity.
  - cbn [entries_of map fst length seq]. rewrite IH.
    replace (index + 1 + 1) with (S (index + 1)) by lia. reflexivity.
Qed.

Lemma entries_of_texts (segs : segments) (index : nat) :
  map snd (entries_of segs index) = map snd segs.
Proof.
  revert index. induction segs as [|[t m] segs IH]; intros index.
  - reflexivity.
  - cbn [entries_of map snd]. rewrite IH. reflexivity.
Qed.

(** C4, as amended. A query that holds no newline is cut, from left to
    right, into the texts the protector leaves alone and the metatag
    literals: each literal is the leftmost match of what follows the
    literal before it, and what follows the last literal holds no match.
    The run of the Literal Protector on the query ends, and what it
    returns is, for these literals taken from left to right: the query
    with each literal replaced, where it stands, by the placeholder of its
    rank, the ranks being 1, 2, ..., n; the number n of the literals; and
    the n entries that store the full text of each literal under its
    rank, in this order. A text that occurs as a literal more than once
    gets one placeholder and one entry for each of its occurrences. *)
Theorem protector_goes_left_to_right (query : text) :
  forallb is_dot query = true ->
  exists segs tail,
    query = original_of segs tail
    /\ scanned segs tail
    /\ Forall (fun s => meta_literal (snd s)) segs
    /\ protect_loop (count_colons query) query 0 []
       = Some (work_of segs 0 tail, length segs, entries_of segs 0)
    /\ protect query = (work_of segs 0 tail, length segs, entries_of segs 0)
    /\ map fst (entries_of segs 0) = seq 1 (length segs)
    /\ map snd (entries_of segs 0) = map snd segs.
Proof.
  intros Hdot.
  destruct (protect_loop_scanned (count_colons query) [] query 0 [])
    as (segs & tail & Hq & Hscan & Hrun).
  - exact Hdot.
  - intros a1 a2 E. destruct a1; destruct a2; try discriminate.
    intros H. contradiction.
  - apply le_n.
  - cbn [app plus] in Hrun.
    exists segs, tail. repeat split.
    + exact Hq.
    + exact Hscan.
    + apply (scanned_literals segs tail Hscan).
    + exact Hrun.
    + pose proof (protect_is_loop query) as Hp. rewrite Hrun in Hp.
      injection Hp as Hp. symmetry. exact Hp.
    + apply (entries_of_indices segs 0).
    + apply entries_of_texts.
Qed.

Lemma protector_goes_left_to_right_witness :
  forallb is_dot (str "k:/v/ 50% k:/v/") = true
  /\ exists segs tail,
       str "k:/v/ 50% k:/v/" = original_of segs tail
       /\ scanned segs tail
       /\ Forall (fun s => meta_literal (snd s)) segs
       /\ protect_loop (count_colons (str "k:/v/ 50% k:/v/"))
                       (str "k:/v/ 50% k:/v/") 0 []
          = Some (work_of segs 0 tail, length segs, entries_of segs 0)
       /\ protect (str "k:/v/ 50% k:/v/")
          = (work_of segs 0 tail, length segs, entries_of segs 0)
       /\ map fst (entries_of segs 0) = seq 1 (length segs)
       /\ map snd (entries_of segs 0) = map snd segs.
Proof.
  split; [reflexivity|].
  apply (protector_goes_left_to_right (str "k:/v/ 50% k:/v/")). reflexivity.
Defined.

(** The run of the witness, computed: the two occurrences of the one
    literal get the placeholders 1 and 2. *)
Lemma protector_on_repeated_literal :
  protect (str "k:/v/ 50% k:/v/")
  = (str "%%1%% 50% %%2%%", 2, [(1, str "k:/v/"); (2, str "k:/v/")])
  /\ str "k:/v/ 50% k:/v/"
     = original_of [([], str "k:/v/"); (str " 50% ", str "k:/v/")] []
  /\ scanned [([], str "k:/v/"); (str " 50% ", str "k:/v/")] [].
Proof.
  split; [vm_compute; reflexivity|]. split; [reflexivity|].
  cbn [scanned original_of]. repeat split; vm_compute; reflexivity.
Qed.

(** C4, the claim as stated, fails on a query with a newline: a
    slash-delimited value that holds a quoted value with a newline in it.
    The dot of the pattern matches no newline, so the first match is the
    quoted literal, at position 4; once the placeholder stands in its
    place the newline is gone and the second match is the slash-delimited
    literal, which starts at position 0, to the left of the first. The
    text stored under the index 2 holds the placeholder of the index 1
    and is no text of the query; so the run is not the one of any cut of
    the query from left to right. *)
Lemma protector_comes_back_on_nested_literal :
  re_search nested_literal_query = Some (str "a:/ ", inner_literal, str "/")
  /\ replace_first inner_literal (placeholder 1) nested_literal_query
     = str "a:/ %%1%%/"
  /\ re_search (str "a:/ %%1%%/") = Some ([], str "a:/ %%1%%/", [])
  /\ protect nested_literal_query
     = (str "%%2%%", 2, [(1, inner_literal); (2, str "a:/ %%1%%/")])
  /\ (forall a b, nested_literal_query <> a ++ str "a:/ %%1%%/" ++ b)
  /\ ~ (exists segs tail,
          nested_literal_query = original_of segs tail
          /\ protect nested_literal_query
             = (work_of segs 0 tail, length segs, entries_of segs 0)).
Proof.
  assert (Hp : protect nested_literal_query
               = (str "%%2%%", 2, [(1, inner_literal); (2, str "a:/ %%1%%/")]))
    by (vm_compute; reflexivity).
  split; [vm_compute; reflexivity|].
  split; [vm_compute; reflexivity|].
  split; [vm_compute; reflexivity|].
  split; [exact Hp|]. split.
  - intros a b E. pose proof (f_equal (@length ascii) E) as Hl.
    rewrite !length_app in Hl.
    change (length nested_literal_query) with 10 in Hl.
    change (length (str "a:/ %%1%%/")) with 10 in Hl.
    destruct a; [|simpl in Hl; lia]. destruct b; [|simpl in Hl; lia].
    vm_compute in E. discriminate.
  - intros (segs & tail & Hq & Hrun). rewrite Hp in Hrun.
    injection Hrun as _ _ He.
    destruct segs as [|[t1 m1] [|[t2 m2] segs]]; cbn [entries_of] in He;
      try discriminate.
    inversion He as [[Hm1 Hm2 Hrest]]. subst m1 m2.
    pose proof (f_equal (@length ascii) Hq) as Hl.
    cbn [original_of] in Hl. rewrite !length_app in Hl.
    change (length nested_literal_query) with 10 in Hl.
    change (length inner_literal) with 5 in Hl.
    simpl length in Hl. lia.
Qed.

(** ** The tag list of the image-edit dialog and the click on OK *)

(** A tag list that passes the check is read as tags, at least one, and
    none of its tokens names a compound tag. *)
Lemma valid_tag_list (Tag : Type) (env : edit_image_env Tag) (tags_input : text) :
  _is_valid env tags_input = true ->
  exists tags,
    _get_tags env tags_input = Some tags
    /\ tags <> []
    /\ forall t, In t (split tags_input) ->
         get_tag_class env (strip_type_symbol t) <> Some CompoundTagClass.
Proof.
  intros Hv.
  destruct (_get_tags env tags_input) as [tags|] eqn:Et.
  - exists tags. split; [reflexivity|].
    pose proof (proj2 (tag_list_invalid_iff Tag env tags_input)) as [_ Hiff].
    split.
    + intros ->. unfold _get_tags in Et.
      apply tags_of_tokens_length in Et.
      destruct (split tags_input) eqn:Es; [|discriminate].
      rewrite Hiff in Hv; [discriminate|]. left. reflexivity.
    + intros t Hin Hc. rewrite Hiff in Hv; [discriminate|].
      right. right. exists t. auto.
  - unfold _is_valid, _get_error in Hv. rewrite Et in Hv. discriminate.
Qed.

(** [_apply] hands to the database the tags it reads from the field, and
    no others. *)
Lemma apply_same_on (W Tag : Type) (env : edit_image_env Tag)
    (P : list Tag -> Prop) (sys sys' : EditImageDialog.system W Tag)
    (self : EditImageDialog.dialog) (w : W) (tags : list Tag) :
  _get_tags env (EditImageDialog._tags_input self) = Some tags ->
  P tags ->
  same_on P sys sys' ->
  EditImageDialog._apply env sys self w = EditImageDialog._apply env sys' self w.
Proof.
  intros Ht HP Hs.
  destruct sys as [d b pj sl ai uit uip sm orm].
  destruct sys' as [d' b' pj' sl' ai' uit' uip' sm' orm'].
  unfold same_on in Hs.
  cbn [EditImageDialog.dirname EditImageDialog.basename EditImageDialog.path_join
       EditImageDialog.slashed EditImageDialog.add_image
       EditImageDialog.update_image_tags EditImageDialog.update_image_path
       EditImageDialog.shutil_move EditImageDialog.os_remove] in Hs.
  destruct Hs as (<- & <- & <- & <- & <- & <- & <- & Ha & Hu).
  specialize (Ha tags HP). specialize (Hu tags HP).
  unfold EditImageDialog._apply. rewrite Ht.
  destruct (EditImageDialog.getitem (EditImageDialog._images self)
              (EditImageDialog._index self)) as [image|]; [|reflexivity].
  unfold EditImageDialog._get_new_path, EditImageDialog._add,
    EditImageDialog._edit, EditImageDialog._replace, EditImageDialog._move_image.
  cbn [EditImageDialog.dirname EditImageDialog.basename EditImageDialog.path_join
       EditImageDialog.slashed EditImageDialog.add_image
       EditImageDialog.update_image_tags EditImageDialog.update_image_path
       EditImageDialog.shutil_move EditImageDialog.os_remove].
  destruct (EditImageDialog._mode self).
  - rewrite Hu. reflexivity.
  - rewrite Ha. reflexivity.
  - reflexivity.
Qed.

Lemma ok_clicked_same_on (W Tag : Type) (env : edit_image_env Tag)
    (sys sys' : EditImageDialog.system W Tag)
    (self : EditImageDialog.dialog) (w : W) :
  same_on (compound_free env) sys sys' ->
  ok_clicked env sys self w = ok_clicked env sys' self w.
Proof.
  intros Hs. unfold ok_clicked.
  destruct (_is_valid env (EditImageDialog._tags_input self)) eqn:Hv;
    [|reflexivity].
  destruct (valid_tag_list Tag env _ Hv) as (tags & Ht & _ & Hc).
  apply (apply_same_on W Tag env (compound_free env) sys sys' self w tags Ht);
    [|exact Hs].
  exists (split (EditImageDialog._tags_input self)). split; [exact Ht|exact Hc].
Qed.

Lemma checked_run_same_on (W Tag : Type) (env : edit_image_env Tag)
    (sys sys' : EditImageDialog.system W Tag) (events : list dialog_event) :
  same_on (compound_free env) sys sys' ->
  forall (self : EditImageDialog.dialog) (w : W),
    checked_run env sys events self w = checked_run env sys' events self w.
Proof.
  intros Hs. induction events as [|ev rest IH]; intros self w; [reflexivity|].
  cbn [checked_run].
  assert (Hstep : checked_step env sys ev self w = checked_step env sys' ev self w).
  { destruct ev; try reflexivity.
    cbn [checked_step]. rewrite (ok_clicked_same_on W Tag env sys sys' self w Hs).
    reflexivity. }
  rewrite Hstep.
  destruct (checked_step env sys' ev self w) as [[[closed self'] w']|e];
    [|reflexivity].
  destruct closed; [reflexivity|]. apply IH.
Qed.

(** C10. In the image-edit dialog the tag list is invalid, with an error
    that is not [None], exactly when it holds no token, or
    [Tag.from_string] refuses one of its tokens, or the label of one of
    its tokens, a leading character that is neither alphanumeric nor an
    underscore taken off, names a compound tag. An invalid tag list blocks
    apply: the click on OK shows the error and leaves the database and the
    disk as they are, whatever they would answer. With a valid tag list
    the click on OK is [_apply], on the tags read from the field, none of
    which comes from a token that names a compound tag. So no image is
    ever saved with a compound tag: the click on OK, and every sequence of
    events of the dialog, call [add_image] and [update_image_tags] with no
    other lists of tags than such ones, since a database that answers
    otherwise on the other lists changes no outcome. *)
Theorem compound_tags_are_refused (W Tag : Type) (env : edit_image_env Tag)
    (self : EditImageDialog.dialog) :
  (_get_error env (EditImageDialog._tags_input self) <> None
   <-> _is_valid env (EditImageDialog._tags_input self) = false)
  /\ (_is_valid env (EditImageDialog._tags_input self) = false
      <-> split (EditImageDialog._tags_input self) = []
          \/ (exists t, In t (split (EditImageDialog._tags_input self))
                        /\ from_string env t = None)
          \/ (exists t, In t (split (EditImageDialog._tags_input self))
                        /\ get_tag_class env (strip_type_symbol t)
                           = Some CompoundTagClass))
  /\ (_is_valid env (EditImageDialog._tags_input self) = false ->
      exists reason,
        _get_error env (EditImageDialog._tags_input self) = Some reason
        /\ forall (sys : EditImageDialog.system W Tag) (w : W),
             ok_clicked env sys self w
             = EditImageDialog.Return
                 (false, EditImageDialog.show_error reason self, w))
  /\ (_is_valid env (EditImageDialog._tags_input self) = true ->
      exists tags,
        _get_tags env (EditImageDialog._tags_input self) = Some tags
        /\ tags <> []
        /\ (forall t, In t (split (EditImageDialog._tags_input self)) ->
              get_tag_class env (strip_type_symbol t) <> Some CompoundTagClass)
        /\ forall (sys : EditImageDialog.system W Tag) (w : W),
             ok_clicked env sys self w = EditImageDialog._apply env sys self w)
  /\ (forall (sys sys' : EditImageDialog.system W Tag) (w : W),
        same_on (compound_free env) sys sys' ->
        ok_clicked env sys self w = ok_clicked env sys' self w)
  /\ (forall (sys sys' : EditImageDialog.system W Tag)
             (events : list dialog_event) (w : W),
        same_on (compound_free env) sys sys' ->
        checked_run env sys events self w = checked_run env sys' events self w).
Proof.
  pose proof (tag_list_invalid_iff Tag env (EditImageDialog._tags_input self))
    as [H1 H2].
  split; [exact H1|]. split; [exact H2|]. split; [|split; [|split]].
  - intros Hv.
    destruct (_get_error env (EditImageDialog._tags_input self)) as [reason|] eqn:Ee.
    + exists reason. split; [reflexivity|]. intros sys w.
      unfold ok_clicked. rewrite Hv, Ee. reflexivity.
    + exfalso. apply (proj2 H1) in Hv. apply Hv. reflexivity.
  - intros Hv. destruct (valid_tag_list Tag env _ Hv) as (tags & Ht & Hne & Hc).
    exists tags. repeat split; auto.
    intros sys w. unfold ok_clicked. rewrite Hv. reflexivity.
  - intros sys sys' w Hs. apply ok_clicked_same_on. exact Hs.
  - intros sys sys' events w Hs. apply checked_run_same_on. exact Hs.
Qed.

Lemma compound_tags_are_refused_witness :
  _is_valid sample_dialog_env
    (EditImageDialog._tags_input (sample_add_dialog "cat #pet")) = false
  /\ (forall w : list (list text),
        ok_clicked sample_dialog_env recording_system
                   (sample_add_dialog "cat #pet") w
        = EditImageDialog.Return
            (false,
             EditImageDialog.show_error
               (str "Compound tags are not allowed here!")
               (sample_add_dialog "cat #pet"),
             w)).
Proof.
  destruct (compound_tags_are_refused (list (list text)) text sample_dialog_env
              (sample_add_dialog "cat #pet"))
    as (_ & Hiff & Hblock & _).
  assert (Hv : _is_valid sample_dialog_env
                 (EditImageDialog._tags_input (sample_add_dialog "cat #pet"))
               = false).
  { apply (proj2 Hiff). right. right. exists (str "#pet"). split.
    - vm_compute. auto.
    - reflexivity. }
  split; [exact Hv|].
  destruct (Hblock Hv) as (reason & Hr & Hok).
  vm_compute in Hr. injection Hr as <-.
  intros w. exact (Hok recording_system w).
Defined.

(** A valid tag list is saved: in the mode ADD, the click on OK hands the
    tags of the field to [add_image]; and a tag list with a compound tag
    reaches the database when [_apply] is called without the check. *)
Lemma valid_tag_list_is_saved :
  ok_clicked sample_dialog_env recording_system (sample_add_dialog "cat dog") []
  = EditImageDialog.Return
      (true, sample_add_dialog "cat dog", [[str "cat"; str "dog"]])
  /\ EditImageDialog._apply sample_dialog_env recording_system
       (sample_add_dialog "cat #pet") []
     = EditImageDialog.Return
         (true, sample_add_dialog "cat #pet", [[str "cat"; str "#pet"]]).
Proof. split; vm_compute; reflexivity. Qed.

(** ** The dialog behind the check of the tag list *)

Lemma set_raises (index : Z) (self : EditImageDialog.dialog)
    (e : EditImageDialog.exception) :
  EditImageDialog._set index self = EditImageDialog.Raise e ->
  e = EditImageDialog.IndexError.
Proof.
  unfold EditImageDialog._set.
  destruct (EditImageDialog.getitem (EditImageDialog._images self) index);
    intros H; [discriminate|]. injection H as <-. reflexivity.
Qed.

Lemma apply_tail_raises (W : Type) (message : EditImageDialog.dialog -> text)
    (done : EditImageDialog.result (bool * EditImageDialog.dialog * W)) :
  (forall e, done = EditImageDialog.Raise e -> e <> EditImageDialog.ValueError) ->
  match done with
  | EditImageDialog.Raise e => EditImageDialog.Raise e
  | EditImageDialog.Return (ok, self1, w1) =>
      if ok then
        let close :=
          (EditImageDialog._index self1
           =? Z.of_nat (length (EditImageDialog._images self1)) - 1)%Z in
        if negb close then
          match EditImageDialog._next self1 with
          | EditImageDialog.Raise e => EditImageDialog.Raise e
          | EditImageDialog.Return self2 => EditImageDialog.Return (close, self2, w1)
          end
        else EditImageDialog.Return (close, self1, w1)
      else
        EditImageDialog.Return
          (false, EditImageDialog.show_error (message self1) self1, w1)
  end <> EditImageDialog.Raise EditImageDialog.ValueError.
Proof.
  intros Hd. destruct done as [[[ok self1] w1]|e].
  - destruct ok; [|discriminate]. cbv zeta.
    destruct (negb _); [|discriminate].
    destruct (EditImageDialog._next self1) as [self2|e] eqn:En; [discriminate|].
    unfold EditImageDialog._next in En. apply set_raises in En. subst e.
    discriminate.
  - intros H. injection H as ->. apply (Hd _ eq_refl). reflexivity.
Qed.

(** Once the tags are read, [_apply] raises no [ValueError]. *)
Lemma apply_no_value_error (W Tag : Type) (env : edit_image_env Tag)
    (sys : EditImageDialog.system W Tag) (self : EditImageDialog.dialog) (w : W)
    (tags : list Tag) :
  _get_tags env (EditImageDialog._tags_input self) = Some tags ->
  EditImageDialog._apply env sys self w
  <> EditImageDialog.Raise EditImageDialog.ValueError.
Proof.
  intros Ht. unfold EditImageDialog._apply. rewrite Ht.
  destruct (EditImageDialog.getitem (EditImageDialog._images self)
              (EditImageDialog._index self)) as [image|]; [|discriminate].
  cbv zeta.
  apply (apply_tail_raises W
           (fun self1 => if EditImageDialog.is_edit (EditImageDialog._mode self1)
                         then str "Could not apply changes!"
                         else str "Could not add image!")).
  intros e He.
  destruct (EditImageDialog._mode self).
  - pose proof (edit_keeps W Tag sys image tags
                  (EditImageDialog._get_new_path sys self image) self w) as K.
    rewrite He in K. subst e. discriminate.
  - pose proof (add_keeps W Tag sys image tags
                  (EditImageDialog._get_new_path sys self image) self w) as K.
    rewrite He in K. subst e. discriminate.
  - unfold EditImageDialog._replace in He.
    destruct (EditImageDialog._image_to_replace self) as [p|];
      [|injection He as <-; discriminate].
    destruct (EditImageDialog.os_remove sys p w) as [[[|] w1]|];
      [|discriminate|injection He as <-; discriminate].
    destruct (EditImageDialog.getitem (EditImageDialog._images self) 0) as [img|];
      [|injection He as <-; discriminate].
    destruct (EditImageDialog.update_image_path sys _ _ w1) as [[ok w2]|];
      [discriminate|injection He as <-; discriminate].
Qed.

(** With the check of the tag list before [_apply], the dialog stays in
    range as it does without it, and no tags that do not parse reach
    [_apply]: the one exception that can leave an event is one of a call
    to the database or to the disk. *)
Lemma checked_run_in_range (W Tag : Type) (env : edit_image_env Tag)
    (sys : EditImageDialog.system W Tag) (events : list dialog_event) :
  forall self w,
    dialog_in_range self ->
    match checked_run env sys events self w with
    | EditImageDialog.Return (_, self', _) => dialog_in_range self'
    | EditImageDialog.Raise e => e = EditImageDialog.ExternalError
    end.
Proof.
  induction events as [|ev events IH]; intros self w H; cbn [checked_run].
  - exact H.
  - assert (S : match checked_step env sys ev self w with
                | EditImageDialog.Return (_, self', _) => dialog_in_range self'
                | EditImageDialog.Raise e => e = EditImageDialog.ExternalError
                end).
    { pose proof (dialog_step_in_range W Tag env sys ev self w H) as D.
      destruct ev.
      - cbn [checked_step].
        destruct (dialog_step env sys ClickSkip self w) as [[[c s] w']|e] eqn:E;
          [exact D|].
        exfalso. cbn [dialog_step] in E.
        destruct (EditImageDialog._skip_btn self) as [[|]|]; try discriminate.
        destruct (EditImageDialog._next self) as [s|e'] eqn:En; [discriminate|].
        injection E as ->. unfold EditImageDialog._next in En.
        apply set_raises in En. subst e. destruct D; discriminate.
      - cbn [checked_step].
        destruct (dialog_step env sys (ClickDest chosen) self w)
          as [[[c s] w']|e] eqn:E; [exact D|].
        exfalso. cbn [dialog_step] in E.
        destruct (EditImageDialog._on_dest_button_clicked chosen self)
          as [s|e'] eqn:En; [discriminate|].
        injection E as ->. revert En.
        unfold EditImageDialog._on_dest_button_clicked.
        destruct D as [-> | ->]; clear; intros En;
          repeat match type of En with
                 | match ?x with _ => _ end = _ => destruct x eqn:?
                 | (if ?x then _ else _) = _ => destruct x eqn:?
                 end; try discriminate;
          try (injection En as ->;
               match goal with
               | Hs : EditImageDialog._set _ _ = _ |- _ =>
                   apply set_raises in Hs; discriminate
               end).
      - cbn [checked_step dialog_step]. cbn [dialog_step] in D.
        destruct (EditImageDialog._tags_input_disabled self); exact D.
      - cbn [checked_step]. cbn [dialog_step] in D.
        destruct (EditImageDialog._ok_btn_disabled self); [exact D|].
        unfold ok_clicked.
        destruct (_is_valid env (EditImageDialog._tags_input self)) eqn:Hv.
        + destruct (valid_tag_list Tag env _ Hv) as (tags & Ht & _).
          pose proof (apply_no_value_error W Tag env sys self w tags Ht) as Hn.
          destruct (EditImageDialog._apply env sys self w) as [[[c s] w']|e];
            [exact D|].
          destruct D as [-> | ->]; [contradiction Hn; reflexivity|reflexivity].
        + destruct (_get_error env (EditImageDialog._tags_input self));
            [apply show_error_in_range|]; exact H. }
    destruct (checked_step env sys ev self w) as [[[closed self'] w']|e];
      [|exact S].
    destruct closed; [exact S|]. apply IH. exact S.
Qed.

(** X19. With the check of the tag list before [_apply], a dialog opened
    on at least one image never reads its list of images out of range and
    never hands tags that do not parse to [_apply], whatever the user does
    and whatever the database and the disk answer: the one exception that
    can leave an event is one that a call to the database or to the disk
    raises itself, and after every event the index is the one of an image
    of the list. *)
Theorem checked_dialog_stays_in_range (W Tag : Type)
    (env : edit_image_env Tag) (sys : EditImageDialog.system W Tag)
    (m : EditImageDialog.mode) (show_skip : bool)
    (images : list EditImageDialog.Image) (tags : Z -> option (list text))
    (events : list dialog_event) (w : W) :
  images <> [] ->
  show_skip && EditImageDialog.is_replace m = false ->
  exists opened shown,
    EditImageDialog.__init__ m show_skip = EditImageDialog.Return opened
    /\ EditImageDialog.set_images images tags opened
       = EditImageDialog.Return shown
    /\ match checked_run env sys events shown w with
       | EditImageDialog.Return (_, self, _) =>
           (0 <= EditImageDialog._index self
            < Z.of_nat (length (EditImageDialog._images self)))%Z
       | EditImageDialog.Raise e => e = EditImageDialog.ExternalError
       end.
Proof.
  intros N V. unfold EditImageDialog.__init__. rewrite V.
  eexists. unfold EditImageDialog.set_images.
  match goal with
  | |- context [EditImageDialog._set ?i ?s] =>
      destruct (set_returns i s)
        as (shown & E & Hi & Hl & Hm & Ho & Hr & _ & Hs & _)
  end.
  { cbn. destruct images; [contradiction|]. cbn [length]. lia. }
  exists shown. split; [reflexivity|]. split; [exact E|].
  cbn [EditImageDialog._index EditImageDialog._images EditImageDialog._mode
       EditImageDialog._ok_btn_disabled EditImageDialog._image_to_replace
       EditImageDialog._skip_btn] in Hi, Hl, Hm, Ho, Hr, Hs.
  assert (R : dialog_in_range shown).
  { unfold dialog_in_range. rewrite Hi, Hl, Hm, Ho, Hr.
    destruct images as [|im images]; [contradiction|]. cbn [length].
    split; [lia|]. split.
    - intros S. specialize (Hs S). cbn [length] in Hs. lia.
    - intros -> D. discriminate D. }
  pose proof (checked_run_in_range W Tag env sys events shown w R) as H.
  destruct (checked_run env sys events shown w) as [[[closed self] w']|e];
    [|exact H].
  destruct H as [H _]. exact H.
Qed.

Lemma checked_dialog_stays_in_range_witness :
  exists opened shown,
    EditImageDialog.__init__ EditImageDialog.ADD true
    = EditImageDialog.Return opened
    /\ EditImageDialog.set_images
         [sample_image 4 "a.png"; sample_image 9 "b.png"]
         (fun _ => None) opened
       = EditImageDialog.Return shown
    /\ match checked_run sample_dialog_env recording_system
               [ClickOk; EditTags (str "cat #pet"); ClickOk;
                EditTags (str "cat"); ClickOk; ClickOk]
               shown [] with
       | EditImageDialog.Return (_, self, _) =>
           (0 <= EditImageDialog._index self
            < Z.of_nat (length (EditImageDialog._images self)))%Z
       | EditImageDialog.Raise e => e = EditImageDialog.ExternalError
       end.
Proof.
  apply (checked_dialog_stays_in_range (list (list text)) text sample_dialog_env
           recording_system EditImageDialog.ADD true
           [sample_image 4 "a.png"; sample_image 9 "b.png"]).
  - discriminate.
  - reflexivity.
Defined.
